(** * NeuralMorphoTagger: the dependency parser and the tag helper

    A shallow embedding of
    - [neural_LM/UD_preparation/read_tags.py]: [descr_to_feats], [is_subsumed];
    - [syntax/network.py]: [evaluate_heads], and [train], [predict],
      [predict_heads] and [predict_deps] of [StrangeSyntacticParser] with
      the attributes of the object as explicit state; the networks, the
      vocabularies and the data generators stay opaque;
    - the tree decoder [chu_liu_edmonds], which the parser imports from the
      package [dependency_decoding]: it is not among the sources and is
      modelled from the specification.

    Python exceptions are values of [exn]; a function that can raise returns
    [res A].  A [dict] is a [gmap]; Python [int]s are [Z], counts and
    positions are [nat]; probabilities are fractions.

    Part I holds the definitions, Part II the theorems. *)

From Stdlib Require Import ZArith QArith Lia List Ascii String.
From stdpp Require Import base option list gmap strings.
Import ListNotations.

Local Open Scope nat_scope.

(** * Part I: definitions *)

(** ** Exceptions *)

Inductive exn : Set :=
  | ValueError          (* unpacking failure, "Different sentence lengths." *)
  | ZeroDivisionError
  | IndexError
  | AttributeError      (* attribute of [None], attribute never assigned *)
  | TypeError           (* iterating over [None] *)
  | ShapeMismatch.      (* the tree decoder's shape failure *)

Inductive res (A : Type) : Type :=
  | Ok (a : A)
  | Raise (e : exn).
Arguments Ok {A} a.
Arguments Raise {A} e.

Definition bind {A B} (m : res A) (k : A → res B) : res B :=
  match m with
  | Ok a => k a
  | Raise e => Raise e
  end.

Global Instance res_bind : MBind res := λ A B k m, bind m k.
Global Instance res_ret : MRet res := λ A a, Ok a.

Definition raises {A} (m : res A) : Prop := ∃ e, m = Raise e.

(** ** read_tags.py *)

Module ReadTags.

Local Open Scope string_scope.

(** [s.split(sep, maxsplit=1)] when [sep in s]: the text before the first
    [sep] and the text after it; [None] when [sep] does not occur. *)
Fixpoint split_once (sep : ascii) (s : string) : option (string * string) :=
  match s with
  | EmptyString => None
  | String c r =>
      if Ascii.eqb c sep then Some (EmptyString, r)
      else match split_once sep r with
           | Some (a, b) => Some (String c a, b)
           | None => None
           end
  end.

(** [s.split(sep)]: every piece between separators, empty pieces kept. *)
Fixpoint split_all (sep : ascii) (s : string) : list string :=
  match s with
  | EmptyString => [EmptyString]
  | String c r =>
      if Ascii.eqb c sep then EmptyString :: split_all sep r
      else match split_all sep r with
           | h :: t => String c h :: t
           | [] => [String c EmptyString]
           end
  end.

(** The loop body of [descr_to_feats]: [key, values = elem.split("=", maxsplit=1)]
    raises [ValueError] when [elem] has no ["="]. *)
Definition elem_fields (elem : string) : res (list (string * string)) :=
  match split_once "=" elem with
  | None => Raise ValueError
  | Some (key, values) => Ok (map (λ value, (key, value)) (split_all "," values))
  end.

Fixpoint fields_loop (elems : list string) (fields : list (string * string))
  : res (list (string * string)) :=
  match elems with
  | [] => Ok fields
  | elem :: rest =>
      kvs ← elem_fields elem;
      fields_loop rest (fields ++ kvs)
  end.

(** [descr_to_feats(symbol)] with [return_dict=False]. *)
Definition descr_to_feats (symbol : string) : res (string * list (string * string)) :=
  match split_once "," symbol with
  | Some (symbol', feats) =>
      fields ← fields_loop (split_all "|" feats) [];
      Ok (symbol', fields)
  | None => Ok (symbol, [])
  end.

(** [dict(fields)]: pairs are inserted from left to right, a later pair
    replaces the value of an earlier one with the same key. *)
Definition dict (fields : list (string * string)) : gmap string string :=
  fold_left (λ d kv, <[kv.1 := kv.2]> d) fields ∅.

(** [descr_to_feats(symbol, return_dict=True)]. *)
Definition descr_to_feats_dict (symbol : string) : res (string * gmap string string) :=
  '(symbol', fields) ← descr_to_feats symbol;
  Ok (symbol', dict fields).

(** The two rewrites of [value] in the loop of [is_subsumed]. *)
Definition alias (value : string) : string :=
  let value := if String.eqb value "Ptan" then "Plur" else value in
  let value := if String.eqb value "Brev" then "Short" else value in
  value.

(** The [for key, value in first_descr.items()] loop; [false] is the early
    [return False], [true] is falling out of the loop. *)
Fixpoint items_loop (items : list (string * string)) (second_descr : gmap string string)
  : bool :=
  match items with
  | [] => true
  | (key, value) :: rest =>
      if String.eqb key "Abbr" then items_loop rest second_descr
      else if bool_decide (second_descr !! key ≠ Some (alias value)) then false
      else items_loop rest second_descr
  end.

Definition is_subsumed (first_tag second_tag : string) : res bool :=
  '(first_pos, first_descr) ← descr_to_feats_dict first_tag;
  '(second_pos, second_descr) ← descr_to_feats_dict second_tag;
  if negb (String.eqb first_pos second_pos) then Ok false
  else Ok (items_loop (map_to_list first_descr) second_descr).

(** The POS part in the words of the specification: the text before the
    first comma, the whole string when there is none. *)
Fixpoint pos_part (tag : string) : string :=
  match tag with
  | EmptyString => EmptyString
  | String c r => if Ascii.eqb c "," then EmptyString else String c (pos_part r)
  end.

(** The features of a tag, as the pairs that [descr_to_feats] lists for
    it: one pair for every value of every feature. *)
Definition feature_pairs (tag : string) : list (string * string) :=
  match descr_to_feats tag with
  | Ok (_, fields) => fields
  | Raise _ => []
  end.

(** The condition under which the specification has [is_subsumed] return
    [True], in its words: the POS parts are equal, and every feature pair
    of the first tag, pairs with the key ["Abbr"] apart and with ["Ptan"]
    read as ["Plur"] and ["Brev"] as ["Short"], is among the feature pairs
    of the second tag. *)
Definition claimed_subsumed (first_tag second_tag : string) : Prop :=
  pos_part first_tag = pos_part second_tag ∧
  ∀ key value, (key, value) ∈ feature_pairs first_tag → key ≠ "Abbr" →
               (key, alias value) ∈ feature_pairs second_tag.

End ReadTags.

(** ** syntax/network.py: [evaluate_heads] *)

Module Evaluate.

(** [corr_sent[1:-1]]: the list without its first and its last element
    (empty when there are fewer than three). *)
Definition strip {A} (l : list A) : list A := removelast (tl l).

(** [for x, y in zip(corr_sent, pred_sent)]: [corr += int(x == y)] and
    [has_nonequal |= (x != y)]. *)
Fixpoint compare_loop (pairs : list (Z * Z)) (corr : nat) (has_nonequal : bool)
  : nat * bool :=
  match pairs with
  | [] => (corr, has_nonequal)
  | (x, y) :: rest =>
      compare_loop rest (corr + Nat.b2n (Z.eqb x y)) (has_nonequal || negb (Z.eqb x y))
  end.

(** [for corr_sent, pred_sent in zip(corr_heads, pred_heads)], with the
    three counters as the loop state. *)
Fixpoint sentences_loop (pairs : list (list Z * list Z)) (corr total corr_sents : nat)
  : res (nat * nat * nat) :=
  match pairs with
  | [] => Ok (corr, total, corr_sents)
  | (corr_sent, pred_sent) :: rest =>
      let corr_sent :=
        if length corr_sent =? length pred_sent + 2 then strip corr_sent else corr_sent in
      if negb (length corr_sent =? length pred_sent) then Raise ValueError
      else
        let '(corr, has_nonequal) := compare_loop (zip corr_sent pred_sent) corr false in
        sentences_loop rest corr (total + length corr_sent)
                       (corr_sents + (1 - Nat.b2n has_nonequal))
  end.

(** [a / b] on two [int]s: the quotient as a fraction (Python rounds it to
    the nearest double), [ZeroDivisionError] when [b] is 0. *)
Definition true_div (a b : nat) : res Q :=
  if b =? 0 then Raise ZeroDivisionError else Ok (Z.of_nat a # Pos.of_nat b).

Definition evaluate_heads (corr_heads pred_heads : list (list Z))
  : res (nat * nat * Q * nat * nat * Q) :=
  '(corr, total, corr_sents) ← sentences_loop (zip corr_heads pred_heads) 0 0 0;
  accuracy ← true_div corr total;
  sent_accuracy ← true_div corr_sents (length corr_heads);
  Ok (corr, total, accuracy, corr_sents, length corr_heads, sent_accuracy).

(** A gold sentence passes the length test of the loop body. *)
Definition aligned (corr_sent pred_sent : list Z) : Prop :=
  length corr_sent = length pred_sent ∨ length corr_sent = length pred_sent + 2.

End Evaluate.

(** ** The tree decoder *)

Module Decoder.

(** The decoder is [chu_liu_edmonds] of the package [dependency_decoding],
    which [syntax/network.py] imports and which is not among the sources.
    It is modelled from section 4.3 of the specification, step by step.

    What the decoder needs of a score: a strict comparison and the two
    operations of the adjusted-weight rule.  Nothing is assumed of them, so
    the results below hold for doubles (NaN included) as for fractions. *)
Class Weight (W : Type) := {
  gtb : W → W → bool;
  wadd : W → W → W;
  wsub : W → W → W;
  wzero : W
}.

#[global] Instance Q_weight : Weight Q := {|
  gtb a b := negb (Qle_bool a b);
  wadd := Qplus;
  wsub := Qminus;
  wzero := 0%Q
|}.

Section decoder.
Context {W : Type} `{Weight W}.

(** Modelled from the spec: the score matrix of section 3; [entry m d h]
    is the score of word [d] attaching to head [h], position 0 is the
    virtual root. *)
Definition entry (m : list (list W)) (d h : nat) : W := nth h (nth d m []) wzero.

(** Modelled from the spec: the shapes the decoder accepts, square and at
    least 2x2. *)
Definition valid_shape (m : list (list W)) : bool :=
  (2 <=? length m) && forallb (λ row, length row =? length m) m.

(** Modelled from the spec: the arg-max of step 1, as the first position
    of [best :: xs] at which [f] is largest. *)
Fixpoint argmax (f : nat → W) (best : nat) (xs : list nat) : nat :=
  match xs with
  | [] => best
  | x :: rest => argmax f (if gtb (f x) (f best) then x else best) rest
  end.

(** Modelled from the spec: step 1, the highest-scoring head of [v] among
    the root and the other nodes. *)
Definition greedy (sc : nat → nat → W) (nodes : list nat) (v : nat) : nat :=
  argmax (sc v) 0 (filter (λ h, h ≠ v) nodes).

(** Modelled from the spec: the cycle of step 2 is the front of [path] up
    to and including the first [v]. *)
Fixpoint upto (v : nat) (path : list nat) : list nat :=
  match path with
  | [] => []
  | x :: rest => if decide (x = v) then [x] else x :: upto v rest
  end.

(** Modelled from the spec: step 2, following the candidate heads from
    [v]; [path] holds the nodes already passed, the latest first.  Reaching
    the root gives [None], coming back to a node of [path] gives the cycle.
    One unit of fuel for every node is enough ([walk_None] below). *)
Fixpoint walk (p : nat → nat) (fuel : nat) (path : list nat) (v : nat)
  : option (list nat) :=
  if decide (v = 0) then None
  else if decide (v ∈ path) then Some (upto v path)
  else match fuel with
       | 0 => None
       | S fuel' => walk p fuel' (v :: path) (p v)
       end.

(** Modelled from the spec: step 2 for every node in turn. *)
Fixpoint find_cycle (p : nat → nat) (fuel : nat) (starts : list nat)
  : option (list nat) :=
  match starts with
  | [] => None
  | s :: rest =>
      match walk p fuel [] s with
      | Some cycle => Some cycle
      | None => find_cycle p fuel rest
      end
  end.

(** Modelled from the spec: step 3, the weight of the cycle's own edges.
    The cycle is contracted into its first node. *)
Definition cycle_weight (sc : nat → nat → W) (p : nat → nat) (cycle : list nat) : W :=
  fold_left (λ acc u, wadd acc (sc u (p u))) cycle wzero.

(** Modelled from the spec: step 3, the node of the cycle at which an edge
    from the outside head [h] best enters, by the external edge weight minus
    the cycle edge it replaces. *)
Definition enter (sc : nat → nat → W) (p : nat → nat) (cycle : list nat) (h : nat) : nat :=
  argmax (λ u, wsub (sc u h) (sc u (p u))) (hd 0 cycle) (tl cycle).

(** Modelled from the spec: step 3, the node of the cycle that is the best
    head of the outside node [d]. *)
Definition leave (sc : nat → nat → W) (cycle : list nat) (d : nat) : nat :=
  argmax (sc d) (hd 0 cycle) (tl cycle).

(** Modelled from the spec: step 3, the scores of the reduced graph. *)
Definition contract (sc : nat → nat → W) (p : nat → nat) (cycle : list nat)
  : nat → nat → W :=
  λ d h,
    if decide (d = hd 0 cycle) then
      let u := enter sc p cycle h in
      wadd (cycle_weight sc p cycle) (wsub (sc u h) (sc u (p u)))
    else if decide (h = hd 0 cycle) then sc d (leave sc cycle d)
    else sc d h.

(** Modelled from the spec: step 3, expanding the contraction.  The head
    chosen for the contracted node replaces the cycle edge of the node it
    enters at, the other cycle edges stay, and a node whose head is the
    contracted node gets its best head in the cycle. *)
Definition expand (sc : nat → nat → W) (p : nat → nat) (cycle : list nat)
    (h' : nat → nat) : nat → nat :=
  let c := hd 0 cycle in
  let w := h' c in
  let e := enter sc p cycle w in
  λ v,
    if decide (v ∈ cycle) then (if decide (v = e) then w else p v)
    else if decide (h' v = c) then leave sc cycle v
    else h' v.

(** Modelled from the spec: steps 1 to 3 with the recursion on the
    reduced graph.  Every contraction removes a node, so one unit of fuel
    for every node and one more is enough ([cle_total] below). *)
Fixpoint cle (fuel : nat) (sc : nat → nat → W) (nodes : list nat)
  : option (nat → nat) :=
  match fuel with
  | 0 => None
  | S fuel' =>
      let p := greedy sc nodes in
      match find_cycle p (length nodes) nodes with
      | None => Some p
      | Some cycle =>
          h' ← cle fuel' (contract sc p cycle) (filter (λ v, v ∉ tl cycle) nodes);
          Some (expand sc p cycle h')
      end
  end.

(** Modelled from the spec: [chu_liu_edmonds] of the package
    [dependency_decoding], which is imported by [syntax/network.py] and is
    not among the sources.  Section 4.3 of the specification: a matrix that
    is not square or is smaller than 2x2 is refused with a shape-mismatch
    failure; otherwise steps 1 to 3 above give each non-root word its head.
    The caller reads item 0 of the result and drops its first entry, so the
    result is a pair whose first part lists the root's own entry (a
    placeholder, here 0) before the heads of the words; the second part is
    the weight of the chosen edges.  The fuel never runs out on an accepted
    matrix ([chu_liu_edmonds_Ok] below). *)
Definition chu_liu_edmonds (m : list (list W)) : res (list nat * W) :=
  if negb (valid_shape m) then Raise ShapeMismatch
  else
    let words := seq 1 (length m - 1) in
    match cle (length m) (entry m) words with
    | None => Raise ShapeMismatch
    | Some h =>
        Ok (0 :: map h words, fold_left (λ acc d, wadd acc (entry m d (h d))) words wzero)
    end.

(** [chu_liu_edmonds(elem.astype("float64"))[0][1:]] for one [elem] of
    [probs]; an [elem] left at [None] has no [astype]. *)
Definition decode_elem (elem : option (list (list W))) : res (list nat) :=
  match elem with
  | None => Raise AttributeError
  | Some m => '(heads, _) ← chu_liu_edmonds m; Ok (tl heads)
  end.

(** The list comprehension of [predict_heads]: the first failure ends it. *)
Fixpoint decode_all (probs : list (option (list (list W)))) : res (list (list nat)) :=
  match probs with
  | [] => Ok []
  | elem :: rest =>
      heads ← decode_elem elem;
      others ← decode_all rest;
      Ok (heads :: others)
  end.

End decoder.

(** *** Properties of candidate heads, cycles and trees *)

(** Every node has a head among the root and the nodes, other than itself. *)
Definition candidate (nodes : list nat) (p : nat → nat) : Prop :=
  ∀ v, v ∈ nodes → (p v = 0 ∨ p v ∈ nodes) ∧ p v ≠ v.

(** [rchain p path v]: each node of [path] is the head of the one after
    it, and [v] is the head of the first. *)
Fixpoint rchain (p : nat → nat) (path : list nat) (v : nat) : Prop :=
  match path with
  | [] => True
  | x :: rest => p x = v ∧ rchain p rest x
  end.

(** A cycle of the candidate heads among the nodes. *)
Record is_cycle (p : nat → nat) (nodes cycle : list nat) : Prop := {
  cycle_nonempty : cycle ≠ [];
  cycle_nodes : ∀ u, u ∈ cycle → u ∈ nodes;
  cycle_NoDup : NoDup cycle;
  cycle_closed : ∀ u, u ∈ cycle → p u ∈ cycle;
  cycle_connected : ∀ u u', u ∈ cycle → u' ∈ cycle → ∃ k, Nat.iter k p u = u'
}.

(** [h] gives every node a head among the root and the nodes, never the
    node itself, and from every node the heads lead to the root. *)
Definition tree (nodes : list nat) (h : nat → nat) : Prop :=
  ∀ v, v ∈ nodes →
       (h v = 0 ∨ h v ∈ nodes) ∧ h v ≠ v ∧ ∃ k, Nat.iter k h v = 0.

(** [head_of heads i]: the head of word [i >= 1] in a decoded sequence,
    which starts with the head of word 1; the root stays where it is. *)
Definition head_of (heads : list nat) (i : nat) : nat :=
  match i with
  | 0 => 0
  | S j => nth j heads 0
  end.

(** The sequence gives every word [1 .. length heads] one head among the
    root and the words, never the word itself, and following the heads from
    any word arrives at the root. *)
Definition dependency_tree (heads : list nat) : Prop :=
  ∀ i, 1 ≤ i ≤ length heads →
       head_of heads i ≤ length heads ∧
       head_of heads i ≠ i ∧
       ∃ k, Nat.iter k (head_of heads) i = 0.

(** The scenario of the specification: word 1 prefers the root, word 2
    prefers word 1, word 3 prefers word 2. *)
Definition chain_scores : list (list Q) :=
  [[0; 0; 0; 0]; [7 # 10; 0; 1 # 10; 2 # 10]; [1 # 10; 8 # 10; 0; 1 # 10];
   [1 # 10; 1 # 10; 8 # 10; 0]]%Q.

(** Words 1 and 2 prefer each other, word 3 prefers word 2: the greedy
    choice has a cycle. *)
Definition cyclic_scores : list (list Q) :=
  [[0; 0; 0; 0]; [2 # 10; 0; 7 # 10; 1 # 10]; [1 # 10; 8 # 10; 0; 1 # 10];
   [1 # 10; 1 # 10; 8 # 10; 0]]%Q.

End Decoder.

(** ** syntax/network.py: the parser around its networks *)

Module Parser.
Import Decoder.

(** *** Arrays *)

(** [l[:stop]]. *)
Definition slice_to {A} (stop : Z) (l : list A) : list A :=
  if (0 <=? stop)%Z then take (Z.to_nat stop) l
  else take (length l - Z.to_nat (- stop)) l.

(** [l[1:stop]]. *)
Definition slice_1 {A} (stop : Z) (l : list A) : list A := drop 1 (slice_to stop l).

(** [a[:k, :k]] on an array given by its rows. *)
Definition truncate (k : Z) (a : list (list Q)) : list (list Q) :=
  map (slice_to k) (slice_to k a).

Definition Qsum (row : list Q) : Q := fold_right Qplus 0%Q row.

(** [curr_probs /= np.sum(curr_probs, axis=-1)].  The sums form a vector
    with one entry per row; dividing an n x n array by a vector of length n
    lines the vector up with the last axis, so the entry in column [h] is
    divided by the sum of row [h].  A single row is divided by its own sum;
    other shapes cannot be broadcast.  (Probabilities are fractions here,
    and a zero sum gives 0 where numpy gives inf or nan.) *)
Definition renormalize (curr_probs : list (list Q)) : res (list (list Q)) :=
  let sums := map Qsum curr_probs in
  if forallb (λ row, length row =? length curr_probs) curr_probs then
    Ok (map (λ row, zip_with Qdiv row sums) curr_probs)
  else if length curr_probs =? 1 then
    Ok (map (map (λ x, x / hd 0 sums)%Q) curr_probs)
  else Raise ValueError.

(** The position of the first largest entry of a row. *)
Definition argmax_row (row : list Q) : nat :=
  argmax (λ i, nth i row 0%Q) 0 (seq 1 (length row - 1)).

(** [np.argmax(curr_probs[1:], axis=-1)] refuses an array without columns;
    its value is not used by [predict_heads]. *)
Definition argmax_check (curr_probs : list (list Q)) : res unit :=
  match curr_probs with
  | [] => Raise ValueError
  | row :: _ => if length row =? 0 then Raise ValueError else Ok ()
  end.

(** The body of the inner loop of [predict_heads] for a sentence of padded
    length [L]: the value stored in [probs[index]]. *)
Definition sentence_probs (L : nat) (batch_probs_i : list (list Q)) : res (list (list Q)) :=
  curr_probs ← renormalize (truncate (Z.of_nat L - 1) batch_probs_i);
  _ ← argmax_check curr_probs;
  Ok curr_probs.

(** An output of the head network for a batch whose longest sentence has
    one word: three positions, every row a distribution with nothing on
    its own position. *)
Definition one_word_batch : list (list Q) :=
  [[0; 1 # 2; 1 # 2]; [1 # 4; 0; 3 # 4]; [1 # 2; 1 # 2; 0]]%Q.

(** *** Collaborators that are not among the sources *)

Class Externals := {
  Word : Type;                 (* a token of a sentence *)
  Symbol : Type;               (* an item of a processed word *)
  Embedder : Type;
  SymbolVocabulary : Type;     (* common.vocabulary.Vocabulary(character=True) *)
  TagVocabulary : Type;        (* common.vocabulary.FeatureVocabulary *)
  DepVocabulary : Type;        (* common.vocabulary.Vocabulary *)
  TagVector : Type;
  HeadModel : Type;
  DepModel : Type;
  Batch : Type;                (* what a DataGenerator yields to a network *)
  Indexes : Type;              (* what make_indexes_for_syntax returns *)
  BEGIN_word : Word;
  END_word : Word;
  BEGIN : Z;
  END : Z;
  PAD : Z;
  pad_heads : list (list Z) → list (list Z);
  pad_deps : list (list string) → list (list string);
  process_word : Word → list Symbol;
  symbol_vocabulary_train : list (list (list Symbol)) → SymbolVocabulary;
  tag_vocabulary_train : list (list string) → TagVocabulary;
  dep_vocabulary_train : list (list string) → DepVocabulary;
  toidx : SymbolVocabulary → Symbol → Z;
  to_vector : TagVocabulary → string → TagVector;
  symbols_ : DepVocabulary → list string;
  (* DataGenerator(data, embedder=..., yield_targets=False, yield_indexes=True,
     nepochs=1), as the batches it yields *)
  head_batches : option Embedder → list (list Word) → list (Batch * list nat);
  (* the same with additional_data=[dep_indexes, head_indexes] *)
  dep_batches : option Embedder → list (list Word) → Indexes → Indexes →
                list (Batch * list nat);
  make_indexes_for_syntax : list (list nat) → Indexes * Indexes;
  head_model_predict : HeadModel → Batch → list (list (list Q));
  dep_model_predict : DepModel → Batch → list (list (list Q));
}.

Section parser.
Context `{Externals}.

(** What [train] hands to the networks for the sentences: the padded
    sentences themselves, or their character codes. *)
Inductive sent_data :=
  | Sentences (sents : list (list Word))
  | Codes (codes : list (list (list Z))).

(** The attributes of a [StrangeSyntacticParser]; an attribute that was
    never assigned is [None]. *)
Record parser := {
  embedder : option Embedder;
  use_tags : bool;
  use_char_model : bool;
  max_word_length : nat;
  symbol_vocabulary : option SymbolVocabulary;
  tag_vocabulary : option TagVocabulary;
  dep_vocab : option DepVocabulary;
  head_model : option HeadModel;
  dep_model : option DepModel
}.

(** Development data as [train] passes it on: sentences, heads, labels,
    tag vectors. *)
Definition dev_data : Type :=
  sent_data * list (list Z) * list (list string) * option (list (list TagVector)).

(** The networks and their fitting, as functions of the attributes they
    read and of the data they are given. *)
Context (fit_head_model :
           parser → sent_data → list (list Z) → option (list (list TagVector)) →
           option dev_data → HeadModel).
Context (fit_dep_model :
           parser → sent_data → list (list Z) → list (list string) →
           option (list (list TagVector)) → option dev_data → DepModel).

(** Methods: a result or an exception, and the attributes afterwards. *)
Definition M (A : Type) : Type := parser → res A * parser.

Definition ret {A} (a : A) : M A := λ self, (Ok a, self).

Definition raise {A} (e : exn) : M A := λ self, (Raise e, self).

Definition mbind_M {A B} (m : M A) (k : A → M B) : M B :=
  λ self,
    match m self with
    | (Ok a, self') => k a self'
    | (Raise e, self') => (Raise e, self')
    end.

Definition lift {A} (r : res A) : M A := λ self, (r, self).

(** Reading an attribute. *)
Definition attr {A} (field : parser → option A) : M A :=
  λ self,
    match field self with
    | Some a => (Ok a, self)
    | None => (Raise AttributeError, self)
    end.

(** The object as it is now. *)
Definition get_self : M parser := λ self, (Ok self, self).

(** Reading an attribute that [__init__] assigns. *)
Definition read {A} (field : parser → A) : M A := λ self, (Ok (field self), self).

Definition set_symbol_vocabulary (v : SymbolVocabulary) : M unit :=
  λ self,
    (Ok (), {| embedder := embedder self; use_tags := use_tags self;
               use_char_model := use_char_model self;
               max_word_length := max_word_length self;
               symbol_vocabulary := Some v;
               tag_vocabulary := tag_vocabulary self; dep_vocab := dep_vocab self;
               head_model := head_model self; dep_model := dep_model self |}).

Definition set_tag_vocabulary (v : TagVocabulary) : M unit :=
  λ self,
    (Ok (), {| embedder := embedder self; use_tags := use_tags self;
               use_char_model := use_char_model self;
               max_word_length := max_word_length self;
               symbol_vocabulary := symbol_vocabulary self;
               tag_vocabulary := Some v; dep_vocab := dep_vocab self;
               head_model := head_model self; dep_model := dep_model self |}).

Definition set_dep_vocab (v : DepVocabulary) : M unit :=
  λ self,
    (Ok (), {| embedder := embedder self; use_tags := use_tags self;
               use_char_model := use_char_model self;
               max_word_length := max_word_length self;
               symbol_vocabulary := symbol_vocabulary self;
               tag_vocabulary := tag_vocabulary self; dep_vocab := Some v;
               head_model := head_model self; dep_model := dep_model self |}).

Definition set_head_model (v : HeadModel) : M unit :=
  λ self,
    (Ok (), {| embedder := embedder self; use_tags := use_tags self;
               use_char_model := use_char_model self;
               max_word_length := max_word_length self;
               symbol_vocabulary := symbol_vocabulary self;
               tag_vocabulary := tag_vocabulary self; dep_vocab := dep_vocab self;
               head_model := Some v; dep_model := dep_model self |}).

Definition set_dep_model (v : DepModel) : M unit :=
  λ self,
    (Ok (), {| embedder := embedder self; use_tags := use_tags self;
               use_char_model := use_char_model self;
               max_word_length := max_word_length self;
               symbol_vocabulary := symbol_vocabulary self;
               tag_vocabulary := tag_vocabulary self; dep_vocab := dep_vocab self;
               head_model := head_model self; dep_model := Some v |}).

#[local] Instance M_mbind : MBind M := λ A B k m, mbind_M m k.

Fixpoint mapM {A B} (f : A → M B) (l : list A) : M (list B) :=
  match l with
  | [] => ret []
  | x :: rest => y ← f x; ys ← mapM f rest; ret (y :: ys)
  end.

(** Modelled from the spec: [pad_data] of [syntax.common], which is not
    among the sources.  Section 4.1: sentences are wrapped with explicit
    begin and end boundary markers.  What it does to heads and labels is
    left to [pad_heads] and [pad_deps]. *)
Definition pad_data (sents : list (list Word)) : list (list Word) :=
  map (λ sent, BEGIN_word :: sent ++ [END_word]) sents.

(** [word[-n:]]. *)
Definition last_n {A} (n : nat) (word : list A) : list A :=
  if n =? 0 then word else drop (length word - n) word.

(** One turn of the loop of [_recode]: the row of a word. *)
Definition recode_word (word : list Symbol) : M (list Z) :=
  n ← read max_word_length;
  let word := last_n n word in
  if negb (length word <=? n) then raise IndexError
  else
    vocabulary ← attr symbol_vocabulary;
    ret (BEGIN :: map (toidx vocabulary) word ++ END :: replicate (n - length word) PAD).

(** [_recode(sent)] for a sentence of processed words; a processed word is
    a sequence of symbols, not a [str], so [from_word] is [False], and
    [sent[0]] needs a first word. *)
Definition _recode (sent : list (list Symbol)) : M (list (list Z)) :=
  match sent with
  | [] => raise IndexError
  | _ => mapM recode_word sent
  end.

Definition _transform_data (sents : list (list Word)) (to_train : bool)
  : M (list (list (list Z))) :=
  let sents := map (map process_word) sents in
  _ ← (if to_train then set_symbol_vocabulary (symbol_vocabulary_train sents) else ret ());
  mapM _recode sents.

Definition _transform_tags (sents : list (list string)) (to_train : bool)
  : M (list (list TagVector)) :=
  let sents := map (λ sent, "BEGIN"%string :: sent ++ ["END"%string]) sents in
  _ ← (if to_train then set_tag_vocabulary (tag_vocabulary_train sents) else ret ());
  mapM (mapM (λ x, vocabulary ← attr tag_vocabulary; ret (to_vector vocabulary x))) sents.

(** The attributes read while a network is built. *)
Definition build_head_network : M unit :=
  e ← read embedder;
  _ ← (match e with
       | Some _ => ret ()
       | None => _ ← attr symbol_vocabulary; ret ()
       end);
  tags ← read use_tags;
  if tags : bool then _ ← attr tag_vocabulary; ret () else ret ().

Definition build_dep_network : M unit :=
  _ ← build_head_network;
  _ ← attr dep_vocab;
  ret ().

Definition train_head_model (sents : sent_data) (heads : list (list Z))
    (tags : option (list (list TagVector))) (dev : option dev_data) : M unit :=
  _ ← build_head_network;
  self ← get_self;
  set_head_model (fit_head_model self sents heads tags dev).

Definition train_dep_model (sents : sent_data) (heads : list (list Z))
    (deps : list (list string)) (tags : option (list (list TagVector)))
    (dev : option dev_data) : M unit :=
  _ ← build_dep_network;
  self ← get_self;
  set_dep_model (fit_dep_model self sents heads deps tags dev).

(** The three [if] of [train] that prepare its data. *)
Definition train_sent_data (sents : list (list Word)) : M sent_data :=
  chars ← read use_char_model;
  if chars : bool then codes ← _transform_data sents true; ret (Codes codes)
  else ret (Sentences sents).

Definition train_tag_data (tags : option (list (list string)))
  : M (option (list (list TagVector))) :=
  match tags with
  | Some tags => vectors ← _transform_tags tags true; ret (Some vectors)
  | None => ret None
  end.

Definition train_dev_data
    (dev : option (list (list Word) * list (list Z) * list (list string)))
    (dev_tags : option (list (list string))) : M (option dev_data) :=
  match dev with
  | Some (dev_sents, dev_heads, dev_deps) =>
      let dev_sents := pad_data dev_sents in
      let dev_heads := pad_heads dev_heads in
      let dev_deps := pad_deps dev_deps in
      chars ← read use_char_model;
      dev_sent_data ← (if chars : bool
                       then codes ← _transform_data dev_sents false; ret (Codes codes)
                       else ret (Sentences dev_sents));
      with_tags ← read use_tags;
      dev_tag_data ← (if with_tags : bool
                      then match dev_tags with
                           | Some dev_tags =>
                               vectors ← _transform_tags dev_tags false;
                               ret (Some vectors)
                           | None => raise TypeError
                           end
                      else ret None);
      ret (Some (dev_sent_data, dev_heads, dev_deps, dev_tag_data))
  | None => ret None
  end.

(** [train]; the development sentences come with their heads and labels,
    [dev_tags] apart. *)
Definition train (sents : list (list Word)) (heads : list (list Z))
    (deps : list (list string))
    (dev : option (list (list Word) * list (list Z) * list (list string)))
    (tags dev_tags : option (list (list string))) : M unit :=
  let sents := pad_data sents in
  let heads := pad_heads heads in
  let deps := pad_deps deps in
  sent_data ← train_sent_data sents;
  tag_data ← train_tag_data tags;
  dev ← train_dev_data dev dev_tags;
  _ ← set_dep_vocab (dep_vocabulary_train deps);
  _ ← train_head_model sent_data heads tag_data dev;
  train_dep_model sent_data heads deps tag_data dev.

(** [seq[i]] for [i >= 0]. *)
Definition item {A} (l : list A) (i : nat) : res A :=
  match l !! i with
  | Some a => Ok a
  | None => Raise IndexError
  end.

(** [for i, index in enumerate(indexes)] of [predict_heads].  [probs] is
    as long as [data], so [probs[index]] is in range once [data[index]]
    is. *)
Fixpoint head_indexes_loop (data : list (list Word)) (batch_probs : list (list (list Q)))
    (i : nat) (indexes : list nat) (probs : list (option (list (list Q))))
  : res (list (option (list (list Q)))) :=
  match indexes with
  | [] => Ok probs
  | index :: rest =>
      sent ← item data index;
      batch_probs_i ← item batch_probs i;
      curr_probs ← sentence_probs (length sent) batch_probs_i;
      head_indexes_loop data batch_probs (S i) rest (<[index := Some curr_probs]> probs)
  end.

Fixpoint head_batches_loop (data : list (list Word)) (batches : list (Batch * list nat))
    (probs : list (option (list (list Q)))) : M (list (option (list (list Q)))) :=
  match batches with
  | [] => ret probs
  | (batch, indexes) :: rest =>
      model ← attr head_model;
      probs ← lift (head_indexes_loop data (head_model_predict model batch) 0 indexes probs);
      head_batches_loop data rest probs
  end.

Definition predict_heads (data : list (list Word))
  : M (list (option (list (list Q))) * list (list nat)) :=
  e ← read embedder;
  probs ← head_batches_loop data (head_batches e data) (replicate (length data) None);
  chl_pred_heads ← lift (decode_all probs);
  ret (probs, chl_pred_heads).

(** [np.argmax(batch_probs, axis=-1)]: refused when the last axis is empty. *)
Definition batch_argmax (batch_probs : list (list (list Q))) : res (list (list nat)) :=
  if forallb (forallb (λ row, negb (length row =? 0))) batch_probs
  then Ok (map (map argmax_row) batch_probs)
  else Raise ValueError.

(** [[self.dep_vocab.symbols_[elem] for elem in curr_labels]]. *)
Definition label_names (curr_labels : list nat) : M (list string) :=
  mapM (λ elem, vocabulary ← attr dep_vocab; lift (item (symbols_ vocabulary) elem))
       curr_labels.

Fixpoint dep_indexes_loop (data : list (list Word)) (batch_labels : list (list nat))
    (i : nat) (indexes : list nat) (answer : list (option (list string)))
  : M (list (option (list string))) :=
  match indexes with
  | [] => ret answer
  | index :: rest =>
      sent ← lift (item data index);
      labels ← lift (item batch_labels i);
      names ← label_names (slice_1 (Z.of_nat (length sent) - 1) labels);
      dep_indexes_loop data batch_labels (S i) rest (<[index := Some names]> answer)
  end.

Fixpoint dep_batches_loop (data : list (list Word)) (batches : list (Batch * list nat))
    (answer : list (option (list string))) : M (list (option (list string))) :=
  match batches with
  | [] => ret answer
  | (batch, indexes) :: rest =>
      model ← attr dep_model;
      batch_labels ← lift (batch_argmax (dep_model_predict model batch));
      answer ← dep_indexes_loop data batch_labels 0 indexes answer;
      dep_batches_loop data rest answer
  end.

Definition predict_deps (data : list (list Word)) (heads : list (list nat))
  : M (list (option (list string))) :=
  let '(dep_indexes, head_indexes) := make_indexes_for_syntax heads in
  e ← read embedder;
  dep_batches_loop data (dep_batches e data dep_indexes head_indexes)
                   (replicate (length data) None).

Definition predict (data : list (list Word))
  : M (list (list nat) * list (option (list string))) :=
  let data := pad_data data in
  '(head_probs, chl_pred_heads) ← predict_heads data;
  deps ← predict_deps data chl_pred_heads;
  ret (chl_pred_heads, deps).

(** *** What [predict] needs of the generators and the networks

    Checks on the batches of a run, in the order of the loops: every index
    names a sentence, with at least one word besides the two markers; the
    network's answer has an entry for every index of the batch, with a row
    and a column for every position up to the end marker; the label
    distributions are over labels of the vocabulary; every sentence occurs
    in some batch. *)

Definition fits (L : nat) (batch_probs_i : list (list Q)) : bool :=
  (3 <=? L) && (L - 1 <=? length batch_probs_i) &&
  forallb (λ row, L - 1 <=? length row) batch_probs_i.

Fixpoint head_indexes_ok (data : list (list Word)) (batch_probs : list (list (list Q)))
    (i : nat) (indexes : list nat) : bool :=
  match indexes with
  | [] => true
  | index :: rest =>
      match data !! index, batch_probs !! i with
      | Some sent, Some batch_probs_i => fits (length sent) batch_probs_i
      | _, _ => false
      end && head_indexes_ok data batch_probs (S i) rest
  end.

Definition head_batches_ok (model : HeadModel) (data : list (list Word))
    (batches : list (Batch * list nat)) : bool :=
  forallb (λ b, head_indexes_ok data (head_model_predict model b.1) 0 b.2) batches.

Fixpoint dep_indexes_ok (data : list (list Word)) (batch_probs : list (list (list Q)))
    (i : nat) (indexes : list nat) : bool :=
  match indexes with
  | [] => true
  | index :: rest =>
      match data !! index, batch_probs !! i with
      | Some sent, Some batch_probs_i =>
          (2 <=? length sent) && (length sent - 1 <=? length batch_probs_i)
      | _, _ => false
      end && dep_indexes_ok data batch_probs (S i) rest
  end.

Definition dep_batches_ok (model : DepModel) (vocabulary : DepVocabulary)
    (data : list (list Word)) (batches : list (Batch * list nat)) : bool :=
  forallb (λ b,
             forallb (forallb (λ row, (0 <? length row) &&
                                      (length row <=? length (symbols_ vocabulary))))
                     (dep_model_predict model b.1) &&
             dep_indexes_ok data (dep_model_predict model b.1) 0 b.2) batches.

Definition covered (n : nat) (batches : list (Batch * list nat)) : bool :=
  forallb (λ k, existsb (λ b, bool_decide (k ∈ b.2)) batches) (seq 0 n).

(** *** Properties of methods and of the loops' lists *)

(** A method that assigns no attribute. *)
Definition frame {A} (m : M A) : Prop := ∀ self, (m self).2 = self.

(** A property of the attributes that a method cannot break. *)
Definition stable {A} (P : parser → Prop) (m : M A) : Prop :=
  ∀ self, P self → P (m self).2.

(** The vocabularies that [train] builds from its training data. *)
Definition trained_symbols (sents : list (list Word)) : SymbolVocabulary :=
  symbol_vocabulary_train (map (map process_word) (pad_data sents)).

Definition trained_tags (tags : list (list string)) : TagVocabulary :=
  tag_vocabulary_train (map (λ sent, "BEGIN"%string :: sent ++ ["END"%string]) tags).

Definition trained_labels (deps : list (list string)) : DepVocabulary :=
  dep_vocabulary_train (pad_deps deps).

(** Each vocabulary of [self] is the one [self0] had or the one trained on
    the training data. *)
Definition from_training (self0 : parser) (sents : list (list Word))
    (deps : list (list string)) (tags : option (list (list string))) (self : parser)
  : Prop :=
  (symbol_vocabulary self = symbol_vocabulary self0 ∨
   symbol_vocabulary self = Some (trained_symbols sents)) ∧
  (tag_vocabulary self = tag_vocabulary self0 ∨
   ∃ t, tags = Some t ∧ tag_vocabulary self = Some (trained_tags t)) ∧
  (dep_vocab self = dep_vocab self0 ∨ dep_vocab self = Some (trained_labels deps)).

(** An n x n array. *)
Definition square (n : nat) (a : list (list Q)) : Prop :=
  length a = n ∧ Forall (λ row, length row = n) a.

(** What the loops of [predict_heads] keep true of [probs]: an entry that
    was assigned is a matrix the decoder accepts, with a row for the root
    and for every word of its sentence. *)
Definition probs_inv (data : list (list Word)) (probs : list (option (list (list Q))))
  : Prop :=
  length probs = length data ∧
  ∀ k m, probs !! k = Some (Some m) →
         ∃ sent, data !! k = Some sent ∧ valid_shape m = true ∧
                 length m = length sent - 1.

Definition filled {A} (l : list (option A)) (k : nat) : Prop :=
  ∃ a, l !! k = Some (Some a).

(** The labels of a batch entry against the distributions they come from. *)
Definition labels_of (n_labels : nat) (batch_probs_i : list (list Q)) (labels : list nat)
  : Prop :=
  length labels = length batch_probs_i ∧ Forall (λ l, l < n_labels) labels.

(** What the loops of [predict_deps] keep true of [answer]: an entry that
    was assigned names one label for every word of its sentence. *)
Definition answer_inv (data : list (list Word)) (answer : list (option (list string)))
  : Prop :=
  length answer = length data ∧
  ∀ k names, answer !! k = Some (Some names) →
             ∃ sent, data !! k = Some sent ∧ length names = length sent - 2.

End parser.

(** *** A small instance to run the methods on

    One batch holds all sentences; both networks answer with uniform
    distributions over the positions of the longest sentence, and over two
    labels. *)

Definition longest {A} (batch : list (list A)) : nat :=
  fold_right Nat.max 0 (map length batch).

Definition uniform (n : nat) : list (list Q) :=
  replicate n (replicate n (1 # Pos.of_nat n)%Q).

#[local] Instance toy : Externals := {|
  Word := string;
  Symbol := ascii;
  Embedder := unit;
  SymbolVocabulary := unit;
  TagVocabulary := unit;
  DepVocabulary := list string;
  TagVector := nat;
  HeadModel := unit;
  DepModel := unit;
  Batch := list (list string);
  Indexes := unit;
  BEGIN_word := "<s>"%string;
  END_word := "</s>"%string;
  BEGIN := 1%Z;
  END := 2%Z;
  PAD := 0%Z;
  pad_heads := map (λ sent, 0%Z :: sent ++ [0%Z]);
  pad_deps := map (λ sent, "BEGIN"%string :: sent ++ ["END"%string]);
  process_word := list_ascii_of_string;
  symbol_vocabulary_train := λ _, ();
  tag_vocabulary_train := λ _, ();
  dep_vocabulary_train := λ _, ["root"; "dep"]%string;
  toidx := λ _ c, Z.of_nat (nat_of_ascii c);
  to_vector := λ _ tag, String.length tag;
  symbols_ := λ v, v;
  head_batches := λ _ data, [(data, seq 0 (length data))];
  dep_batches := λ _ data _ _, [(data, seq 0 (length data))];
  make_indexes_for_syntax := λ _, ((), ());
  head_model_predict := λ _ batch, map (λ _, uniform (longest batch)) batch;
  dep_model_predict :=
    λ _ batch, map (λ _, replicate (longest batch) [3 # 4; 1 # 4]%Q) batch
|}.

Definition toy_fit_head : @parser toy → @sent_data toy → list (list Z) →
    option (list (list nat)) → option (@dev_data toy) → unit := λ _ _ _ _ _, ().

Definition toy_fit_dep : @parser toy → @sent_data toy → list (list Z) →
    list (list string) → option (list (list nat)) → option (@dev_data toy) → unit :=
  λ _ _ _ _ _ _, ().

(** A parser as [__init__] leaves it, and one with its models and label
    vocabulary in place. *)
Definition toy_new : @parser toy := {|
  embedder := Some (); use_tags := false; use_char_model := true;
  max_word_length := 30;
  symbol_vocabulary := None; tag_vocabulary := None; dep_vocab := None;
  head_model := None; dep_model := None
|}.

Definition toy_trained : @parser toy := {|
  embedder := Some (); use_tags := false; use_char_model := true;
  max_word_length := 30;
  symbol_vocabulary := Some (); tag_vocabulary := None;
  dep_vocab := Some ["root"; "dep"]%string;
  head_model := Some (); dep_model := Some ()
|}.

End Parser.

(** ** read_tags.py: the tag format and [read_tags_input] *)

Module TagFormat.
Import ReadTags.

Local Open Scope string_scope.

(** [c in s] for a one-character [c]. *)
Fixpoint occurs (c : ascii) (s : string) : bool :=
  match s with
  | EmptyString => false
  | String c' r => Ascii.eqb c' c || occurs c r
  end.

(** [sep.join(pieces)]. *)
Fixpoint join (sep : ascii) (pieces : list string) : string :=
  match pieces with
  | [] => EmptyString
  | [x] => x
  | x :: rest => x +:+ String sep (join sep rest)
  end.

(** The text [key=value] of one feature, and the text
    [pos,key=value|key=value|...] of a tag with its features. *)
Definition feature_text (kv : string * string) : string := kv.1 +:+ "=" +:+ kv.2.

Definition format_tag (pos : string) (fields : list (string * string)) : string :=
  pos +:+ "," +:+ join "|" (map feature_text fields).

(** What [descr_to_feats] can read back: no [=] or [|] in a key, no [,] or
    [|] in a value. *)
Definition plain_field (kv : string * string) : Prop :=
  occurs "=" kv.1 = false ∧ occurs "|" kv.1 = false ∧
  occurs "," kv.2 = false ∧ occurs "|" kv.2 = false.

End TagFormat.

Module ReadTagsInput.

Section read_tags_input.
(** [str.strip], a built-in. *)
Variable strip : string → string.

(** The loop over the lines of the file, with [answer] and [curr_sent] as
    its state. *)
Fixpoint lines_loop (lines : list string) (answer : list (list (list string)))
    (curr_sent : list string) : list (list (list string)) * list string :=
  match lines with
  | [] => (answer, curr_sent)
  | line :: rest =>
      let line := strip line in
      if String.eqb line EmptyString then
        lines_loop rest
                   (if 0 <? length curr_sent then answer ++ [[curr_sent]] else answer) []
      else lines_loop rest answer (curr_sent ++ [line])
  end.

(** [read_tags_input] on the lines of the opened file. *)
Definition read_tags_input (lines : list string) : list (list (list string)) :=
  let '(answer, curr_sent) := lines_loop lines [] [] in
  if 0 <? length curr_sent then answer ++ [[curr_sent]] else answer.

End read_tags_input.

(** An element of the answer: a list holding one sentence, which has at
    least one line and no empty line. *)
Definition wrapped_sentence (elem : list (list string)) : Prop :=
  ∃ sent, elem = [sent] ∧ sent ≠ [] ∧ Forall (λ line, line ≠ EmptyString) sent.

End ReadTagsInput.

(** ** [evaluate_heads]: what its counters count *)

Module EvaluateCounts.
Import Evaluate.

(** The gold sentence as the loop body compares it. *)
Definition gold_sent (corr_sent pred_sent : list Z) : list Z :=
  if length corr_sent =? length pred_sent + 2 then strip corr_sent else corr_sent.

(** The number of positions at which two sentences have the same head. *)
Definition matches (corr_sent pred_sent : list Z) : nat :=
  length (filter (λ xy, xy.1 = xy.2) (zip corr_sent pred_sent)).

Definition correct_words (pairs : list (list Z * list Z)) : nat :=
  list_sum (map (λ cp, matches (gold_sent cp.1 cp.2) cp.2) pairs).

Definition words (pairs : list (list Z * list Z)) : nat :=
  list_sum (map (λ cp, length cp.2) pairs).

Definition exact_sentences (pairs : list (list Z * list Z)) : nat :=
  length (filter (λ cp, gold_sent cp.1 cp.2 = cp.2) pairs).

#[global] Instance aligned_dec c p : Decision (aligned c p).
Proof. unfold aligned. apply _. Defined.

End EvaluateCounts.

(** ** The rows of [_recode] *)

Module ParserCodes.
Import Parser.

Section codes.
Context `{Externals}.

(** The row that the loop of [_recode] writes for a word: [BEGIN], the
    codes of its last [n] symbols, [END], and [PAD] up to [n + 2] entries. *)
Definition coded_word (vocabulary : SymbolVocabulary) (n : nat) (word : list Symbol)
  : list Z :=
  BEGIN :: map (toidx vocabulary) (last_n n word) ++
  END :: replicate (n - length (last_n n word)) PAD.

(** A row of [n + 2] entries that holds a word: [BEGIN] first, the codes of
    the last [k] symbols of the word, [END], then [PAD] only, where [k] is
    the length of the word or [n] if that is less. *)
Definition holds_word (vocabulary : SymbolVocabulary) (n : nat) (word : list Symbol)
    (row : list Z) : Prop :=
  let k := length word `min` n in
  length row = n + 2 ∧ row !! 0 = Some BEGIN ∧
  take k (drop 1 row) = map (toidx vocabulary) (drop (length word - k) word) ∧
  row !! (k + 1) = Some END ∧
  ∀ j, k + 1 < j < n + 2 → row !! j = Some PAD.

(** [self] with its symbol vocabulary, or its tag vocabulary, replaced. *)
Definition with_symbol_vocabulary (v : SymbolVocabulary) (self : parser) : parser :=
  (set_symbol_vocabulary v self).2.

Definition with_tag_vocabulary (v : TagVocabulary) (self : parser) : parser :=
  (set_tag_vocabulary v self).2.

(** The arguments of [__init__] that the methods read. *)
Definition same_settings (self0 self : parser) : Prop :=
  embedder self = embedder self0 ∧ use_tags self = use_tags self0 ∧
  use_char_model self = use_char_model self0 ∧
  max_word_length self = max_word_length self0.

(** [self] is [self0] with, at most, vocabularies replaced: the settings
    and the two models are those of [self0], the tag vocabulary too when no
    [tags] are given, and the symbol vocabulary too when [self0] has no
    character model. *)
Definition no_model_yet (self0 : parser) (tags : option (list (list string)))
    (self : parser) : Prop :=
  same_settings self0 self ∧
  head_model self = head_model self0 ∧ dep_model self = dep_model self0 ∧
  (tags = None → tag_vocabulary self = tag_vocabulary self0) ∧
  (use_char_model self0 = false → symbol_vocabulary self = symbol_vocabulary self0).

(** A method that raises from every state with [Q], and keeps [Q]. *)
Definition fails {A} (Q : parser → Prop) (m : M A) : Prop :=
  ∀ self, Q self → (∃ e, (m self).1 = Raise e) ∧ Q (m self).2.

End codes.

(** A parser that uses tags, as [__init__] leaves it. *)
Definition toy_tagging : @parser toy :=
  @Build_parser toy (Some ()) true false 30 None None None None None.

End ParserCodes.

(** ** [PositionEmbedding] *)

Module PositionEmbedding.

(** [kb.cumsum(x, axis=-1)] on a row. *)
Fixpoint cumsum_from (acc : Z) (row : list Z) : list Z :=
  match row with
  | [] => []
  | x :: rest => (acc + x)%Z :: cumsum_from (acc + x)%Z rest
  end.

Definition cumsum (row : list Z) : list Z := cumsum_from 0 row.

(** [kb.ones_like(x, dtype="int32")] on a row. *)
Definition ones_like {A} (row : list A) : list Z := map (λ _, 1%Z) row.

Section layer.
Context {V : Type}.

(** The layer: [max_length], and the kernel that [build] adds, a list of
    rows. *)
Variables (max_length : nat) (kernel : list V).

(** [kb.gather(self.kernel, positions)] at one position; [None] stands for
    a position for which the kernel has no row. *)
Definition gather (position : Z) : option V :=
  if (position <? 0)%Z then None else kernel !! Z.to_nat position.

(** [call(inputs)].  [inputs] is the array of two axes that the [while]
    loop leaves: the loop takes entry 0 along every further axis, and what
    follows reads nothing of [inputs] but its shape. *)
Definition call {A} (inputs : list (list A)) : list (list (option V)) :=
  map (λ row,
         let positions := map (λ p, (p - 1)%Z) (cumsum (ones_like row)) in
         let positions := map (λ p, Z.max p (Z.of_nat max_length)) positions in
         map gather positions) inputs.

End layer.

End PositionEmbedding.

(** * Part II: theorems *)

Lemma bind_Ok {A B} (m : res A) (k : A → res B) b :
  m ≫= k = Ok b ↔ ∃ a, m = Ok a ∧ k a = Ok b.
Proof.
  destruct m as [a|e]; simpl; split.
  - eauto.
  - by intros (a' & [= <-] & ?).
  - discriminate.
  - by intros (a' & [=] & ?).
Qed.

Module ReadTagsFacts.
Import ReadTags.
Local Open Scope string_scope.

Lemma split_once_pos_part s :
  pos_part s = match split_once "," s with Some (a, _) => a | None => s end.
Proof.
  induction s as [|c r IH]; simpl; [done|].
  destruct (Ascii.eqb c ",") eqn:E; [done|].
  rewrite IH. by destruct (split_once "," r) as [[a b]|].
Qed.

Lemma descr_to_feats_pos t p fields :
  descr_to_feats t = Ok (p, fields) → p = pos_part t.
Proof.
  unfold descr_to_feats. rewrite split_once_pos_part.
  destruct (split_once "," t) as [[a b]|]; [|congruence].
  intros (f & _ & [= <- _])%bind_Ok. done.
Qed.

Lemma descr_to_feats_dict_Ok t p d :
  descr_to_feats_dict t = Ok (p, d) →
  p = pos_part t ∧ ∃ fields, descr_to_feats t = Ok (p, fields) ∧ d = dict fields.
Proof.
  unfold descr_to_feats_dict.
  intros ([p' f] & Hf & [= <- <-])%bind_Ok.
  split; [by eapply descr_to_feats_pos | eauto].
Qed.

Lemma alias_Ptan : alias "Ptan" = "Plur".
Proof. reflexivity. Qed.

Lemma alias_Brev : alias "Brev" = "Short".
Proof. reflexivity. Qed.

Lemma alias_other v : v ≠ "Ptan" → v ≠ "Brev" → alias v = v.
Proof.
  intros H1 H2. unfold alias.
  apply String.eqb_neq in H1. rewrite H1.
  apply String.eqb_neq in H2. by rewrite H2.
Qed.

(** The loop returns [True] exactly when no item makes it return early. *)
Lemma items_loop_true items (d2 : gmap string string) :
  items_loop items d2 = true ↔
  ∀ k v, (k, v) ∈ items → k ≠ "Abbr" → d2 !! k = Some (alias v).
Proof.
  induction items as [|[key value] rest IH]; simpl.
  - split; [|done]. intros _ k v Hin. by apply elem_of_nil in Hin.
  - destruct (String.eqb key "Abbr") eqn:Ek.
    + apply String.eqb_eq in Ek. rewrite IH. split.
      * intros H k v [[= -> ->]|Hin]%elem_of_cons Hk; [done | by apply H].
      * intros H k v Hin. apply H. by right.
    + apply String.eqb_neq in Ek. case_bool_decide as Hd.
      * split; [done|]. intros H. exfalso. apply Hd, H; [by left | done].
      * rewrite IH. split.
        -- intros H k v [[= -> ->]|Hin]%elem_of_cons Hk; [done | by apply H].
        -- intros H k v Hin. apply H. by right.
Qed.

Lemma is_subsumed_parsed t1 t2 p1 d1 p2 d2 :
  descr_to_feats_dict t1 = Ok (p1, d1) →
  descr_to_feats_dict t2 = Ok (p2, d2) →
  is_subsumed t1 t2 =
    Ok (if negb (String.eqb p1 p2) then false else items_loop (map_to_list d1) d2).
Proof.
  intros H1 H2. unfold is_subsumed. rewrite H1. simpl. rewrite H2. simpl.
  by destruct (negb (p1 =? p2)).
Qed.

(** What [is_subsumed] decides, in terms of the two feature dictionaries.
    [is_subsumed(first_tag, second_tag)] returns [True] if and only if
    both tags are accepted by [descr_to_feats], their POS parts (the text
    before the first comma, or the whole string) are equal, and every item
    [key: value] of the first tag's feature dictionary whose key is not
    ["Abbr"] is found in the second tag's dictionary under [key] with the
    value [alias value], where [alias] reads ["Ptan"] as ["Plur"] and
    ["Brev"] as ["Short"] and leaves every other value alone.  It raises
    exactly when [descr_to_feats] raises on one of the tags. *)
Theorem is_subsumed_iff (first_tag second_tag : string) :
  (is_subsumed first_tag second_tag = Ok true ↔
     ∃ first_descr second_descr : gmap string string,
       descr_to_feats_dict first_tag = Ok (pos_part first_tag, first_descr) ∧
       descr_to_feats_dict second_tag = Ok (pos_part second_tag, second_descr) ∧
       pos_part first_tag = pos_part second_tag ∧
       ∀ key value, first_descr !! key = Some value → key ≠ "Abbr" →
                    second_descr !! key = Some (alias value)) ∧
  (raises (is_subsumed first_tag second_tag) ↔
     raises (descr_to_feats_dict first_tag) ∨ raises (descr_to_feats_dict second_tag)) ∧
  alias "Ptan" = "Plur" ∧ alias "Brev" = "Short" ∧
  (∀ value, value ≠ "Ptan" → value ≠ "Brev" → alias value = value).
Proof.
  split; [|split; [|auto using alias_Ptan, alias_Brev, alias_other]].
  - destruct (descr_to_feats_dict first_tag) as [[p1 d1]|e1] eqn:H1.
    2:{ split.
        - unfold is_subsumed. rewrite H1. discriminate.
        - intros (? & ? & [=] & _). }
    destruct (descr_to_feats_dict second_tag) as [[p2 d2]|e2] eqn:H2.
    2:{ split.
        - unfold is_subsumed. rewrite H1. simpl. rewrite H2. discriminate.
        - intros (? & ? & _ & [=] & _). }
    rewrite (is_subsumed_parsed _ _ _ _ _ _ H1 H2).
    destruct (descr_to_feats_dict_Ok _ _ _ H1) as [-> _].
    destruct (descr_to_feats_dict_Ok _ _ _ H2) as [-> _].
    destruct (String.eqb (pos_part first_tag) (pos_part second_tag)) eqn:Ep; simpl.
    + apply String.eqb_eq in Ep. split.
      * intros [= Hl]. exists d1, d2. repeat split; [done|].
        intros k v Hk. rewrite items_loop_true in Hl.
        apply Hl. by apply elem_of_map_to_list.
      * intros (d1' & d2' & [= <-] & [= <-] & _ & H). f_equal.
        apply items_loop_true. intros k v Hin. apply H.
        by apply elem_of_map_to_list.
    + apply String.eqb_neq in Ep. split; [discriminate|].
      by intros (? & ? & _ & _ & ? & _).
  - unfold raises, is_subsumed. split.
    + intros [e He].
      destruct (descr_to_feats_dict first_tag) as [[p1 d1]|e1]; [|eauto].
      destruct (descr_to_feats_dict second_tag) as [[p2 d2]|e2]; [|eauto].
      simpl in He. by destruct (negb (p1 =? p2)).
    + intros [[e He]|[e He]].
      * rewrite He. eauto.
      * rewrite He. destruct (descr_to_feats_dict first_tag) as [[p1 d1]|e1]; simpl; eauto.
Qed.

(** C9. [is_subsumed] is not reflexive: [is_subsumed(t, t)] is [False] for
    ["NOUN,Number=Ptan"], and for every tag whose feature dictionary holds,
    under a key other than ["Abbr"], the value ["Ptan"] or ["Brev"]: the
    value is rewritten on the side of the first argument only. *)
Theorem is_subsumed_not_reflexive :
  is_subsumed "NOUN,Number=Ptan" "NOUN,Number=Ptan" = Ok false ∧
  ∀ (t pos : string) (descr : gmap string string) (key value : string),
    descr_to_feats_dict t = Ok (pos, descr) →
    descr !! key = Some value → key ≠ "Abbr" →
    value = "Ptan" ∨ value = "Brev" →
    is_subsumed t t = Ok false.
Proof.
  split; [by vm_compute|].
  intros t p d k v Ht Hk Hab Hv.
  rewrite (is_subsumed_parsed _ _ _ _ _ _ Ht Ht).
  rewrite String.eqb_refl. simpl. f_equal.
  apply not_true_is_false. rewrite items_loop_true. intros H.
  specialize (H k v). rewrite elem_of_map_to_list in H.
  specialize (H Hk Hab). rewrite Hk in H.
  destruct Hv as [-> | ->]; vm_compute in H; discriminate.
Qed.

Lemma is_subsumed_not_reflexive_witness :
  is_subsumed "ADJ,Degree=Pos|Variant=Brev" "ADJ,Degree=Pos|Variant=Brev" = Ok false.
Proof.
  apply (proj2 is_subsumed_not_reflexive "ADJ,Degree=Pos|Variant=Brev" "ADJ"
           (dict [("Degree", "Pos"); ("Variant", "Brev")]) "Variant" "Brev").
  - vm_compute. reflexivity.
  - vm_compute. reflexivity.
  - discriminate.
  - right. reflexivity.
Defined.

(** What [dict] keeps of a feature with several values is the last one, so
    only that one takes part in the comparison. *)
Example is_subsumed_last_value :
  is_subsumed "NOUN,Case=Nom,Acc" "NOUN,Case=Acc" = Ok true ∧
  is_subsumed "NOUN,Case=Nom" "NOUN,Case=Nom,Acc" = Ok false.
Proof. by vm_compute. Qed.

(** C8, on the code as it is.  [descr_to_feats] lists one pair for every
    value of a feature, but [is_subsumed] compares the dictionaries made of
    these pairs, and a dictionary keeps the last value of a key only.  So
    [is_subsumed] returns [True] for ["NOUN,Case=Nom,Acc"] against
    ["NOUN,Case=Acc"], although the pair [Case=Nom] of the first tag is not
    among the pairs of the second; and it returns [False] for
    ["NOUN,Case=Nom"] against ["NOUN,Case=Nom,Acc"], although the only pair
    of the first tag is among the pairs of the second. *)
Theorem is_subsumed_misses_values :
  (feature_pairs "NOUN,Case=Nom,Acc" = [("Case", "Nom"); ("Case", "Acc")] ∧
   feature_pairs "NOUN,Case=Acc" = [("Case", "Acc")] ∧
   is_subsumed "NOUN,Case=Nom,Acc" "NOUN,Case=Acc" = Ok true ∧
   ¬ claimed_subsumed "NOUN,Case=Nom,Acc" "NOUN,Case=Acc") ∧
  (feature_pairs "NOUN,Case=Nom" = [("Case", "Nom")] ∧
   feature_pairs "NOUN,Case=Nom,Acc" = [("Case", "Nom"); ("Case", "Acc")] ∧
   is_subsumed "NOUN,Case=Nom" "NOUN,Case=Nom,Acc" = Ok false ∧
   claimed_subsumed "NOUN,Case=Nom" "NOUN,Case=Nom,Acc").
Proof.
  split; (split; [reflexivity|]; split; [reflexivity|]; split; [by vm_compute|]).
  - intros [_ Hall]. specialize (Hall "Case" "Nom").
    change (feature_pairs "NOUN,Case=Nom,Acc")
      with [("Case", "Nom"); ("Case", "Acc")] in Hall.
    change (feature_pairs "NOUN,Case=Acc") with [("Case", "Acc")] in Hall.
    assert (Hin : ("Case", alias "Nom") ∈ [("Case", "Acc")]).
    { apply Hall; [apply elem_of_cons; by left | discriminate]. }
    apply list_elem_of_singleton in Hin. vm_compute in Hin. discriminate.
  - split; [reflexivity|]. intros key value Hin _.
    change (feature_pairs "NOUN,Case=Nom") with [("Case", "Nom")] in Hin.
    change (feature_pairs "NOUN,Case=Nom,Acc")
      with [("Case", "Nom"); ("Case", "Acc")].
    apply list_elem_of_singleton in Hin. injection Hin as -> ->.
    apply elem_of_cons. by left.
Qed.

(** A feature without ["="] makes [descr_to_feats] raise. *)
Example is_subsumed_raises :
  is_subsumed "NOUN," "NOUN" = Raise ValueError ∧
  is_subsumed "NOUN" "VERB,_" = Raise ValueError.
Proof. by vm_compute. Qed.

End ReadTagsFacts.

Module EvaluateFacts.
Import Evaluate EvaluateCounts.

Lemma strip_length {A} (l : list A) : length (strip l) = length l - 2.
Proof.
  unfold strip. destruct l as [|x l]; [done|]. cbn [tl length].
  replace (S (length l) - 2) with (length l - 1) by lia.
  induction l as [|y [|z l] IH]; [done..|].
  change (S (length (removelast (z :: l))) = S (S (length l)) - 1).
  rewrite IH. simpl. lia.
Qed.

Lemma strip_spec {A} (l : list A) :
  2 ≤ length l → ∃ x y, l = x :: strip l ++ [y].
Proof.
  destruct l as [|x l]; simpl; [lia|]. intros Hl.
  destruct (exists_last (l:=l)) as (l' & y & ->).
  { intros ->. simpl in Hl. lia. }
  exists x, y. unfold strip. simpl. by rewrite removelast_last.
Qed.

(** One turn of the loop on a gold sentence two longer than the predicted
    one is the turn on the stripped sentence. *)
Lemma sentences_loop_strip c p rest corr total corr_sents :
  length c = length p + 2 →
  sentences_loop ((c, p) :: rest) corr total corr_sents =
  sentences_loop ((strip c, p) :: rest) corr total corr_sents.
Proof.
  intros Hl. cbn [sentences_loop].
  pose proof (strip_length c) as Hs.
  replace (length c =? length p + 2) with true by (symmetry; apply Nat.eqb_eq; lia).
  replace (length (strip c) =? length p + 2) with false
    by (symmetry; apply Nat.eqb_neq; lia).
  done.
Qed.

Lemma sentences_loop_app l1 l2 corr total corr_sents :
  sentences_loop (l1 ++ l2) corr total corr_sents =
  sentences_loop l1 corr total corr_sents ≫=
    (λ '(corr', total', corr_sents'), sentences_loop l2 corr' total' corr_sents').
Proof.
  revert corr total corr_sents.
  induction l1 as [|[c p] l1 IH]; intros corr total corr_sents; [done|].
  rewrite <- app_comm_cons. cbn [sentences_loop].
  set (c' := if length c =? length p + 2 then strip c else c).
  destruct (negb (length c' =? length p)); [done|].
  destruct (compare_loop (zip c' p) corr false) as [corr1 hn]. apply IH.
Qed.

Lemma sentences_loop_bad pairs corr total corr_sents c p :
  (c, p) ∈ pairs → ¬ aligned c p →
  sentences_loop pairs corr total corr_sents = Raise ValueError.
Proof.
  revert corr total corr_sents.
  induction pairs as [|[c0 p0] rest IH]; intros corr total corr_sents Hin Hbad.
  - by apply elem_of_nil in Hin.
  - cbn [sentences_loop].
    set (c' := if length c0 =? length p0 + 2 then strip c0 else c0).
    destruct (length c' =? length p0) eqn:Elen; [|done]. simpl.
    destruct (compare_loop (zip c' p0) corr false) as [corr1 hn].
    apply elem_of_cons in Hin as [[= -> ->]|Hin]; [|by apply IH].
    exfalso. apply Hbad. unfold aligned. subst c'. apply Nat.eqb_eq in Elen.
    destruct (length c0 =? length p0 + 2) eqn:E2.
    + apply Nat.eqb_eq in E2. by right.
    + by left.
Qed.

Lemma sentences_loop_total pairs corr total corr_sents corr' total' corr_sents' :
  sentences_loop pairs corr total corr_sents = Ok (corr', total', corr_sents') →
  total' = total + list_sum (map (λ cp, length cp.2) pairs) ∧
  Forall (λ cp, aligned cp.1 cp.2) pairs.
Proof.
  revert corr total corr_sents.
  induction pairs as [|[c0 p0] rest IH]; intros corr total corr_sents.
  - simpl. intros [= <- <- <-]. split; [lia | constructor].
  - cbn [sentences_loop].
    set (c' := if length c0 =? length p0 + 2 then strip c0 else c0).
    destruct (length c' =? length p0) eqn:Elen; [|done]. simpl.
    destruct (compare_loop (zip c' p0) corr false) as [corr1 hn].
    intros H. apply IH in H as [-> Hall]. apply Nat.eqb_eq in Elen. split; [lia|].
    constructor; [|done]. unfold aligned. simpl. subst c'.
    destruct (length c0 =? length p0 + 2) eqn:E2.
    + apply Nat.eqb_eq in E2. by right.
    + by left.
Qed.

Lemma evaluate_heads_Ok corr_heads pred_heads r :
  evaluate_heads corr_heads pred_heads = Ok r →
  ∃ corr total corr_sents,
    sentences_loop (zip corr_heads pred_heads) 0 0 0 = Ok (corr, total, corr_sents) ∧
    total ≠ 0 ∧ length corr_heads ≠ 0 ∧
    r = (corr, total, Z.of_nat corr # Pos.of_nat total, corr_sents, length corr_heads,
         Z.of_nat corr_sents # Pos.of_nat (length corr_heads)).
Proof.
  unfold evaluate_heads.
  intros ([[corr total] corr_sents] & Hl & H)%bind_Ok.
  apply bind_Ok in H as (acc & Hacc & H).
  apply bind_Ok in H as (sacc & Hsacc & [= <-]).
  unfold true_div in *.
  destruct (total =? 0) eqn:Et; [done|]. destruct (length corr_heads =? 0) eqn:En; [done|].
  apply Nat.eqb_neq in Et, En. injection Hacc as <-. injection Hsacc as <-.
  by exists corr, total, corr_sents.
Qed.

(** The loop state after a non-empty run: some sentence pair was scored. *)
Lemma sentences_loop_nonempty pairs corr' total' corr_sents' :
  sentences_loop pairs 0 0 0 = Ok (corr', total', corr_sents') →
  total' ≠ 0 → pairs ≠ [].
Proof. intros H Ht ->. simpl in H. injection H as <- <- <-. done. Qed.

Lemma compare_loop_count pairs corr has_nonequal :
  compare_loop pairs corr has_nonequal =
  (corr + length (filter (λ xy, xy.1 = xy.2) pairs),
   has_nonequal ||
   negb (bool_decide (length (filter (λ xy : Z * Z, xy.1 = xy.2) pairs) = length pairs))).
Proof.
  revert corr has_nonequal. induction pairs as [|[x y] rest IH]; intros corr hn.
  - cbn. by rewrite Nat.add_0_r, orb_false_r.
  - cbn [compare_loop]. rewrite IH.
    pose proof (length_filter (λ xy : Z * Z, xy.1 = xy.2) rest) as Hle.
    destruct (Z.eqb_spec x y) as [->|Hne].
    + rewrite filter_cons_True by done. simpl. f_equal; [lia|].
      rewrite orb_false_r. f_equal. f_equal. apply bool_decide_ext. lia.
    + rewrite filter_cons_False by done. simpl. f_equal; [lia|].
      rewrite orb_true_r. simpl. rewrite bool_decide_eq_false_2 by lia.
      by rewrite orb_true_r.
Qed.

Lemma matches_le c p : matches c p ≤ length p.
Proof.
  unfold matches. etrans; [apply length_filter|]. rewrite length_zip_with. lia.
Qed.

Lemma matches_all c p :
  length c = length p → (matches c p = length (zip c p) ↔ c = p).
Proof.
  unfold matches. revert p. induction c as [|x c IH]; intros [|y p] Hlen; try done.
  simpl in Hlen. injection Hlen as Hlen. simpl.
  pose proof (length_filter (λ xy : Z * Z, xy.1 = xy.2) (zip c p)) as Hle.
  destruct (decide (x = y)) as [->|Hne].
  - rewrite filter_cons_True by done. simpl. split.
    + intros [= Hm]. f_equal. by apply IH.
    + intros [= ->]. f_equal. by apply IH.
  - rewrite filter_cons_False by done. split; [lia | by intros [= ? _]].
Qed.

Lemma gold_sent_length c p : aligned c p → length (gold_sent c p) = length p.
Proof.
  unfold gold_sent. destruct (Nat.eqb_spec (length c) (length p + 2)) as [E|E].
  - intros _. rewrite strip_length. lia.
  - by intros [?|?].
Qed.

Lemma gold_sent_aligned c p : length (gold_sent c p) = length p → aligned c p.
Proof.
  unfold gold_sent, aligned. destruct (Nat.eqb_spec (length c) (length p + 2)); auto.
Qed.

(** The loop over the sentences in closed form. *)
Lemma sentences_loop_counts pairs corr total corr_sents :
  sentences_loop pairs corr total corr_sents =
  if decide (Forall (λ cp, aligned cp.1 cp.2) pairs)
  then Ok (corr + correct_words pairs, total + words pairs,
           corr_sents + exact_sentences pairs)
  else Raise ValueError.
Proof.
  revert corr total corr_sents.
  induction pairs as [|[c p] rest IH]; intros corr total corr_sents.
  - rewrite decide_True by constructor. unfold correct_words, words, exact_sentences.
    simpl. by rewrite !Nat.add_0_r.
  - cbn [sentences_loop]. fold (gold_sent c p).
    destruct (Nat.eqb_spec (length (gold_sent c p)) (length p)) as [Hlen|Hlen]; simpl.
    + rewrite compare_loop_count. rewrite IH.
      fold (matches (gold_sent c p) p).
      destruct (decide (Forall (λ cp, aligned cp.1 cp.2) rest)) as [Hall|Hall].
      * rewrite decide_True by (constructor; [by apply gold_sent_aligned | done]).
        unfold correct_words, words, exact_sentences. cbn [map list_sum fst snd].
        f_equal. f_equal; [f_equal; simpl; lia|].
        assert (Hz : length (zip (gold_sent c p) p) = length p)
          by (rewrite length_zip_with; lia).
        destruct (decide (gold_sent c p = p)) as [Heq|Hneq].
        -- rewrite filter_cons_True by done. simpl.
           rewrite bool_decide_eq_true_2 by (by apply matches_all). simpl. lia.
        -- rewrite filter_cons_False by done.
           rewrite bool_decide_eq_false_2 by (by rewrite matches_all). simpl. lia.
      * rewrite decide_False; [done|]. by intros [_ ?]%Forall_cons.
    + rewrite decide_False; [done|]. intros [Ha _]%Forall_cons.
      by apply Hlen, gold_sent_length.
Qed.

Lemma Qmake_of_nat a b : b ≠ 0 → (Z.of_nat a # Pos.of_nat b == 1)%Q ↔ a = b.
Proof.
  intros Hb. unfold Qeq. cbn [Qnum Qden]. rewrite Z.mul_1_r, Z.mul_1_l.
  rewrite <- (positive_nat_Z (Pos.of_nat b)), Nat2Pos.id by done. lia.
Qed.

Lemma Qmake_of_nat_bounds a b :
  b ≠ 0 → a ≤ b → (0 <= Z.of_nat a # Pos.of_nat b)%Q ∧ (Z.of_nat a # Pos.of_nat b <= 1)%Q.
Proof.
  intros Hb Hab. unfold Qle. cbn [Qnum Qden]. rewrite !Z.mul_1_r, Z.mul_1_l.
  rewrite <- (positive_nat_Z (Pos.of_nat b)), Nat2Pos.id by done. lia.
Qed.

(** [evaluate_heads] in closed form. *)
Lemma evaluate_heads_counts corr_heads pred_heads :
  evaluate_heads corr_heads pred_heads =
  let pairs := zip corr_heads pred_heads in
  if decide (Forall (λ cp, aligned cp.1 cp.2) pairs) then
    if words pairs =? 0 then Raise ZeroDivisionError
    else Ok (correct_words pairs, words pairs,
             (Z.of_nat (correct_words pairs) # Pos.of_nat (words pairs))%Q,
             exact_sentences pairs, length corr_heads,
             (Z.of_nat (exact_sentences pairs) # Pos.of_nat (length corr_heads))%Q)
  else Raise ValueError.
Proof.
  unfold evaluate_heads. rewrite sentences_loop_counts. simpl.
  destruct (decide (Forall (λ cp, aligned cp.1 cp.2) (zip corr_heads pred_heads)));
    [|done].
  cbn [mbind res_bind bind]. unfold true_div.
  destruct (Nat.eqb_spec (words (zip corr_heads pred_heads)) 0) as [E|E]; [done|].
  cbn [mbind res_bind bind].
  destruct (Nat.eqb_spec (length corr_heads) 0) as [E0|E0]; [|done].
  exfalso. apply E. destruct corr_heads; [done | discriminate].
Qed.

(** C3. In [evaluate_heads], a gold sentence exactly two longer than the
    predicted one aligned with it is compared without its first and last
    element, and nothing else is removed; if some aligned pair differs in
    length by anything other than 0 or +2 the call raises [ValueError];
    when the call returns, every aligned pair had a length difference of 0
    or +2 and [total] is the number of predicted heads in the aligned
    sentences, so no sentence was cut short; a gold sentence of the
    predicted length is compared as it is; and when every aligned pair has
    a length difference of 0 or +2 the call is accepted: it raises no
    [ValueError], and with at least one predicted word it returns the
    counts of the comparison of every predicted sentence with its gold
    sentence, stripped when it is two longer. *)
Theorem evaluate_heads_length_policy :
  (∀ pre_c pre_p c p post_c post_p,
     length pre_c = length pre_p → length c = length p + 2 →
     (∃ x y, c = x :: strip c ++ [y]) ∧ length (strip c) = length p ∧
     gold_sent c p = strip c ∧
     evaluate_heads (pre_c ++ c :: post_c) (pre_p ++ p :: post_p) =
     evaluate_heads (pre_c ++ strip c :: post_c) (pre_p ++ p :: post_p)) ∧
  (∀ corr_heads pred_heads i c p,
     corr_heads !! i = Some c → pred_heads !! i = Some p →
     length c ≠ length p → length c ≠ length p + 2 →
     evaluate_heads corr_heads pred_heads = Raise ValueError) ∧
  (∀ corr_heads pred_heads corr total acc corr_sents n sent_acc,
     evaluate_heads corr_heads pred_heads = Ok (corr, total, acc, corr_sents, n, sent_acc) →
     (∀ i c p, corr_heads !! i = Some c → pred_heads !! i = Some p → aligned c p) ∧
     total = list_sum (map length (take (length corr_heads) pred_heads))) ∧
  (∀ c p : list Z, length c = length p → gold_sent c p = c) ∧
  (∀ corr_heads pred_heads,
     (∀ i c p, corr_heads !! i = Some c → pred_heads !! i = Some p →
               length c = length p ∨ length c = length p + 2) →
     let pairs := zip corr_heads pred_heads in
     evaluate_heads corr_heads pred_heads =
       if words pairs =? 0 then Raise ZeroDivisionError
       else Ok (correct_words pairs, words pairs,
                (Z.of_nat (correct_words pairs) # Pos.of_nat (words pairs))%Q,
                exact_sentences pairs, length corr_heads,
                (Z.of_nat (exact_sentences pairs) # Pos.of_nat (length corr_heads))%Q)).
Proof.
  split; [|split; [|split; [|split]]].
  - intros pre_c pre_p c p post_c post_p Hpre Hl. split; [|split; [|split]].
    + apply strip_spec. lia.
    + rewrite strip_length. lia.
    + unfold gold_sent. by rewrite (proj2 (Nat.eqb_eq _ _) Hl).
    + unfold evaluate_heads.
      rewrite !(zip_with_app pair pre_c _ pre_p) by done.
      rewrite !length_app. simpl.
      rewrite !sentences_loop_app.
      destruct (sentences_loop (zip pre_c pre_p) 0 0 0) as [[[c1 t1] s1]|e]; [|done].
      cbn [mbind res_bind bind].
      by rewrite (sentences_loop_strip c p _ _ _ _ Hl).
  - intros corr_heads pred_heads i c p Hc Hp H0 H2.
    unfold evaluate_heads.
    rewrite (sentences_loop_bad _ 0 0 0 c p); [done| |].
    + apply list_elem_of_lookup. exists i.
      rewrite lookup_zip_with, Hc. simpl. by rewrite Hp.
    + unfold aligned. lia.
  - intros corr_heads pred_heads corr total acc corr_sents n sent_acc H.
    apply evaluate_heads_Ok in H as (corr' & total' & cs' & Hl & _ & _ & [= -> -> _ -> _ _]).
    apply sentences_loop_total in Hl as [-> Hall]. split.
    + intros i c p Hc Hp. rewrite Forall_forall in Hall.
      apply (Hall (c, p)). apply list_elem_of_lookup. exists i.
      rewrite lookup_zip_with, Hc. simpl. by rewrite Hp.
    + simpl. f_equal. clear. revert pred_heads.
      induction corr_heads as [|c cs IH]; intros [|p ps]; simpl; try done.
      by rewrite IH.
  - intros c p Hl. unfold gold_sent.
    by rewrite (proj2 (Nat.eqb_neq (length c) (length p + 2))) by lia.
  - intros corr_heads pred_heads Hall pairs. subst pairs.
    rewrite evaluate_heads_counts. cbv zeta.
    rewrite decide_True; [done|].
    apply Forall_lookup. intros i [c p] Hi.
    apply lookup_zip_with_Some in Hi as (c' & p' & [= <- <-] & Hc & Hp).
    by apply (Hall i).
Qed.

Lemma evaluate_heads_length_policy_witness :
  evaluate_heads [[9; 1; 2; 3; 9]; [4; 5]]%Z [[1; 2; 0]; [4; 5]]%Z =
  evaluate_heads [[1; 2; 3]; [4; 5]]%Z [[1; 2; 0]; [4; 5]]%Z ∧
  evaluate_heads [[1; 2]; [1; 2; 3]]%Z [[1; 2]; [1; 2]]%Z = Raise ValueError ∧
  evaluate_heads [[9; 1; 2; 3; 9]; [4; 5]]%Z [[1; 2; 0]; [4; 5]]%Z =
  Ok (4, 5, (4 # 5)%Q, 1, 2, (1 # 2)%Q).
Proof.
  split; [|split].
  - apply (proj1 evaluate_heads_length_policy [] [] [9; 1; 2; 3; 9]%Z [1; 2; 0]%Z
             [[4; 5]%Z] [[4; 5]%Z]); reflexivity.
  - apply (proj1 (proj2 evaluate_heads_length_policy)
             [[1; 2]; [1; 2; 3]]%Z [[1; 2]; [1; 2]]%Z 1 [1; 2; 3]%Z [1; 2]%Z);
      [reflexivity | reflexivity | simpl; lia | simpl; lia].
  - apply (proj2 (proj2 (proj2 (proj2 evaluate_heads_length_policy)))
             [[9; 1; 2; 3; 9]; [4; 5]]%Z [[1; 2; 0]; [4; 5]]%Z).
    intros [|[|i]] c p; simpl; intros [= <-] [= <-]; simpl; lia.
Defined.

(** C4. On identical single sentences [evaluate_heads] gives word accuracy
    1 and exact-match accuracy 1; with the last of three heads wrong it
    gives word accuracy 2/3 and exact-match accuracy 0. *)
Theorem evaluate_heads_examples :
  (∃ acc sent_acc,
     evaluate_heads [[1; 2; 3]]%Z [[1; 2; 3]]%Z = Ok (3, 3, acc, 1, 1, sent_acc) ∧
     (acc == 1)%Q ∧ (sent_acc == 1)%Q) ∧
  (∃ acc sent_acc,
     evaluate_heads [[1; 2; 3]]%Z [[1; 2; 0]]%Z = Ok (2, 3, acc, 0, 1, sent_acc) ∧
     (acc == 2 # 3)%Q ∧ (sent_acc == 0)%Q).
Proof.
  split.
  - exists (3 # 3)%Q, (1 # 1)%Q. by vm_compute.
  - exists (2 # 3)%Q, (0 # 1)%Q. by vm_compute.
Qed.

(** C10. When one list has sentences the other has not, [evaluate_heads]
    scores the aligned sentences and ignores the rest: it raises only what it
    raises on the aligned sentences alone, and otherwise returns their
    counts, with the exact-match accuracy divided by the number of all gold
    sentences. *)
Theorem evaluate_heads_count_mismatch (corr_heads pred_heads extra : list (list Z)) :
  length corr_heads = length pred_heads →
  (∀ e, evaluate_heads corr_heads pred_heads = Raise e →
        evaluate_heads (corr_heads ++ extra) pred_heads = Raise e ∧
        evaluate_heads corr_heads (pred_heads ++ extra) = Raise e) ∧
  (∀ corr total acc corr_sents n sent_acc,
     evaluate_heads corr_heads pred_heads = Ok (corr, total, acc, corr_sents, n, sent_acc) →
     evaluate_heads corr_heads (pred_heads ++ extra) =
       Ok (corr, total, acc, corr_sents, n, sent_acc) ∧
     evaluate_heads (corr_heads ++ extra) pred_heads =
       Ok (corr, total, acc, corr_sents, length corr_heads + length extra,
           Z.of_nat corr_sents # Pos.of_nat (length corr_heads + length extra))).
Proof.
  intros Hlen.
  assert (Hz1 : zip (corr_heads ++ extra) pred_heads = zip corr_heads pred_heads).
  { rewrite <- (app_nil_r pred_heads) at 1. rewrite zip_with_app by done.
    rewrite zip_with_nil_r. apply app_nil_r. }
  assert (Hz2 : zip corr_heads (pred_heads ++ extra) = zip corr_heads pred_heads).
  { rewrite <- (app_nil_r corr_heads) at 1. rewrite zip_with_app by done.
    simpl. apply app_nil_r. }
  split.
  - intros e He. unfold evaluate_heads in *. rewrite Hz1, Hz2. split; [|done].
    destruct (sentences_loop (zip corr_heads pred_heads) 0 0 0)
      as [[[corr total] cs]|e'] eqn:Hl; [|done].
    cbn [mbind res_bind bind] in *. unfold true_div in *.
    destruct (total =? 0) eqn:Et; [done|]. exfalso.
    apply Nat.eqb_neq in Et.
    pose proof (sentences_loop_nonempty _ _ _ _ Hl Et) as Hne.
    destruct corr_heads as [|c cs']; [done|]. done.
  - intros corr total acc corr_sents n sent_acc H.
    split.
    + unfold evaluate_heads in *. by rewrite Hz2.
    + apply evaluate_heads_Ok in H as (corr' & total' & cs' & Hl & Ht & Hn & [= -> -> -> -> -> ->]).
      unfold evaluate_heads. rewrite Hz1, Hl. cbn [mbind res_bind bind].
      unfold true_div. rewrite length_app.
      apply Nat.eqb_neq in Ht. rewrite Ht.
      replace (length corr_heads + length extra =? 0) with false; [done|].
      symmetry. apply Nat.eqb_neq. lia.
Qed.

Lemma evaluate_heads_count_mismatch_witness :
  evaluate_heads ([[1; 2; 3]]%Z ++ [[7; 7]; [8]]%Z) [[1; 2; 3]]%Z =
    Ok (3, 3, (3 # 3)%Q, 1, 1 + 2, (1 # 3)%Q).
Proof.
  apply (proj2 (evaluate_heads_count_mismatch [[1; 2; 3]]%Z [[1; 2; 3]]%Z [[7; 7]; [8]]%Z
                  eq_refl) 3 3 (3 # 3)%Q 1 1 (1 # 1)%Q).
  reflexivity.
Defined.

End EvaluateFacts.

Module DecoderFacts.
Import Decoder.

Section decoder_facts.
Context {W : Type} `{Weight W}.

(** *** Candidate heads *)

Lemma argmax_in (f : nat → W) best xs : argmax f best xs ∈ best :: xs.
Proof.
  revert best. induction xs as [|x xs IH]; intros best; simpl.
  - by left.
  - specialize (IH (if gtb (f x) (f best) then x else best)).
    apply elem_of_cons in IH as [IH|IH]; [|by do 2 right].
    rewrite IH. destruct (gtb (f x) (f best)); [right|]; by left.
Qed.

Lemma greedy_candidate (sc : nat → nat → W) nodes :
  0 ∉ nodes → candidate nodes (greedy sc nodes).
Proof.
  intros H0 v Hv. unfold greedy.
  pose proof (argmax_in (sc v) 0 (filter (λ h, h ≠ v) nodes)) as Hin.
  apply elem_of_cons in Hin as [-> | [Hne Hin]%list_elem_of_filter].
  - split; [by left|]. intros <-. done.
  - split; [by right | done].
Qed.

(** *** Walks along the candidate heads *)

Lemma upto_prefix v path :
  v ∈ path → ∃ rest, path = upto v path ++ rest ∧ last (upto v path) = Some v.
Proof.
  induction path as [|x path IH]; intros Hin; [by apply elem_of_nil in Hin|].
  simpl. destruct (decide (x = v)) as [->|Hne].
  - by exists path.
  - apply elem_of_cons in Hin as [->|Hin]; [done|].
    destruct (IH Hin) as (rest & Hp & Hl). exists rest. split.
    + simpl. by rewrite <- Hp.
    + rewrite last_cons, Hl. done.
Qed.

Lemma upto_rchain p path v0 v :
  rchain p path v0 → v ∈ path → rchain p (upto v path) v0.
Proof.
  revert v0. induction path as [|x path IH]; intros v0 Hc Hin; [done|].
  destruct Hc as [Hx Hc]. simpl. destruct (decide (x = v)) as [->|Hne].
  - done.
  - apply elem_of_cons in Hin as [->|Hin]; [done|]. split; [done|]. by apply IH.
Qed.

Lemma rchain_reach p path v0 u :
  rchain p path v0 → u ∈ path → ∃ k, Nat.iter k p u = v0.
Proof.
  revert v0. induction path as [|x path IH]; intros v0 Hc Hin;
    [by apply elem_of_nil in Hin|].
  destruct Hc as [Hx Hc]. apply elem_of_cons in Hin as [->|Hin].
  - by exists 1.
  - destruct (IH _ Hc Hin) as [k Hk]. exists (S k). simpl. by rewrite Hk.
Qed.

Lemma rchain_from_last p path v0 l u :
  rchain p path v0 → last path = Some l → u ∈ path → ∃ k, Nat.iter k p l = u.
Proof.
  revert v0. induction path as [|x path IH]; intros v0 Hc Hl Hin; [done|].
  destruct Hc as [Hx Hc]. destruct path as [|y path].
  - injection Hl as <-. apply list_elem_of_singleton in Hin as ->. by exists 0.
  - rewrite last_cons_cons in Hl. apply elem_of_cons in Hin as [->|Hin].
    + apply (rchain_reach p (y :: path) x l Hc). by apply last_Some_elem_of.
    + by apply (IH x).
Qed.

Lemma rchain_closed p path v0 u :
  rchain p path v0 → u ∈ path → p u = v0 ∨ p u ∈ path.
Proof.
  revert v0. induction path as [|x path IH]; intros v0 Hc Hin;
    [by apply elem_of_nil in Hin|].
  destruct Hc as [Hx Hc]. apply elem_of_cons in Hin as [->|Hin].
  - by left.
  - right. destruct (IH _ Hc Hin) as [->|Hp]; [by left | by right].
Qed.

Lemma upto_is_cycle p nodes path v :
  (∀ x, x ∈ path → x ∈ nodes) → NoDup path → rchain p path v → v ∈ path →
  is_cycle p nodes (upto v path).
Proof.
  intros Hsub Hnd Hc Hin.
  destruct (upto_prefix v path Hin) as (rest & Hp & Hl).
  pose proof (upto_rchain p path v v Hc Hin) as Hc'.
  assert (Hv : v ∈ upto v path) by by apply last_Some_elem_of.
  assert (Hsub' : ∀ x, x ∈ upto v path → x ∈ path).
  { intros x Hx. rewrite Hp. apply elem_of_app. by left. }
  split.
  - intros E. rewrite E in Hv. by apply elem_of_nil in Hv.
  - auto.
  - rewrite Hp in Hnd. by apply NoDup_app in Hnd as [? _].
  - intros u Hu. by destruct (rchain_closed p _ v u Hc' Hu) as [->|?].
  - intros u u' Hu Hu'.
    destruct (rchain_reach p _ v u Hc' Hu) as [k1 Hk1].
    destruct (rchain_from_last p _ v v u' Hc' Hl Hu') as [k2 Hk2].
    exists (k2 + k1). by rewrite Nat.iter_add, Hk1.
Qed.

Section walk.
Variables (p : nat → nat) (nodes : list nat).
Hypothesis Hcand : candidate nodes p.

Lemma walk_Some fuel path v cycle :
  (∀ x, x ∈ path → x ∈ nodes) → v = 0 ∨ v ∈ nodes → NoDup path → rchain p path v →
  walk p fuel path v = Some cycle → is_cycle p nodes cycle.
Proof.
  revert path v. induction fuel as [|fuel IH]; intros path v Hsub Hv Hnd Hc; simpl;
    (destruct (decide (v = 0)) as [->|Hv0]; [done|]);
    (destruct (decide (v ∈ path)) as [Hin|Hnin];
      [intros [= <-]; by apply upto_is_cycle|]); [done|].
  destruct Hv as [?|Hv]; [done|].
  apply IH.
  - intros x [->|Hx]%elem_of_cons; auto.
  - apply (Hcand v Hv).
  - by apply NoDup_cons.
  - done.
Qed.

Lemma path_length path v :
  (∀ x, x ∈ path → x ∈ nodes) → v ∈ nodes → NoDup path → v ∉ path →
  S (length path) ≤ length nodes.
Proof.
  intros Hsub Hv Hnd Hnin.
  apply (NoDup_incl_length (l:=v :: path)).
  - apply NoDup_ListNoDup, NoDup_cons. done.
  - intros x Hx. apply list_elem_of_In. apply list_elem_of_In in Hx.
    apply elem_of_cons in Hx as [->|Hx]; auto.
Qed.

(** With fuel for every node not yet on the path, a walk that finds no
    cycle has arrived at the root. *)
Lemma walk_None fuel path v :
  (∀ x, x ∈ path → x ∈ nodes) → v = 0 ∨ v ∈ nodes → NoDup path →
  length nodes ≤ fuel + length path →
  walk p fuel path v = None → ∃ k, Nat.iter k p v = 0.
Proof.
  revert path v. induction fuel as [|fuel IH]; intros path v Hsub Hv Hnd Hlen; simpl;
    (destruct (decide (v = 0)) as [->|Hv0]; [by exists 0|]);
    (destruct (decide (v ∈ path)) as [Hin|Hnin]; [done|]);
    (destruct Hv as [?|Hv]; [done|]);
    pose proof (path_length path v Hsub Hv Hnd Hnin) as Hl.
  - simpl in Hlen. lia.
  - intros Hw. apply IH in Hw as [k Hk].
    + exists (S k). by rewrite Nat.iter_succ_r.
    + intros x [->|Hx]%elem_of_cons; auto.
    + apply (Hcand v Hv).
    + by apply NoDup_cons.
    + simpl. lia.
Qed.

Lemma find_cycle_Some starts cycle fuel :
  (∀ s, s ∈ starts → s ∈ nodes) →
  find_cycle p fuel starts = Some cycle → is_cycle p nodes cycle.
Proof.
  induction starts as [|s starts IH]; intros Hsub; simpl; [done|].
  destruct (walk p fuel [] s) as [c|] eqn:Hw.
  - intros [= <-]. apply (walk_Some fuel [] s); try done.
    + intros x Hx. by apply elem_of_nil in Hx.
    + right. apply Hsub. by left.
    + constructor.
  - apply IH. intros x Hx. apply Hsub. by right.
Qed.

Lemma find_cycle_None starts s :
  (∀ s, s ∈ starts → s ∈ nodes) →
  find_cycle p (length nodes) starts = None → s ∈ starts → ∃ k, Nat.iter k p s = 0.
Proof.
  induction starts as [|s0 starts IH]; intros Hsub; simpl;
    [intros _ Hin; by apply elem_of_nil in Hin|].
  destruct (walk p (length nodes) [] s0) as [c|] eqn:Hw; [done|].
  intros Hf [->|Hin]%elem_of_cons.
  - apply (walk_None (length nodes) [] s0); try done.
    + intros x Hx. by apply elem_of_nil in Hx.
    + right. apply Hsub. by left.
    + constructor.
    + simpl. lia.
  - apply IH; [|done..]. intros x Hx. apply Hsub. by right.
Qed.

End walk.

(** *** Trees *)

Lemma hd_tl_eq (l : list nat) : l ≠ [] → l = hd 0 l :: tl l.
Proof. by destruct l. Qed.

Section expand.
Variables (sc : nat → nat → W) (p : nat → nat) (nodes cycle : list nat) (h' : nat → nat).
Hypothesis Hcand : candidate nodes p.
Hypothesis H0 : 0 ∉ nodes.
Hypothesis Hcyc : is_cycle p nodes cycle.
Hypothesis Htree : tree (filter (λ v, v ∉ tl cycle) nodes) h'.

Let c := hd 0 cycle.
Let w := h' c.
Let e := enter sc p cycle w.
Let h := expand sc p cycle h'.

Lemma cycle_hd_tl : cycle = c :: tl cycle.
Proof using Hcyc. apply hd_tl_eq, (cycle_nonempty _ _ _ Hcyc). Qed.

Lemma hd_in_cycle : c ∈ cycle.
Proof using Hcyc. rewrite cycle_hd_tl. by left. Qed.

Lemma hd_not_in_tl : c ∉ tl cycle.
Proof.
  pose proof (cycle_NoDup _ _ _ Hcyc) as Hnd. rewrite cycle_hd_tl in Hnd.
  by apply NoDup_cons in Hnd as [? _].
Qed.

Lemma hd_kept : c ∈ filter (λ v, v ∉ tl cycle) nodes.
Proof.
  apply list_elem_of_filter. split; [apply hd_not_in_tl|].
  apply (cycle_nodes _ _ _ Hcyc), hd_in_cycle.
Qed.

Lemma kept_outside v :
  v ∈ filter (λ v, v ∉ tl cycle) nodes → v ≠ c → v ∉ cycle.
Proof.
  intros [Hv _]%list_elem_of_filter Hne. rewrite cycle_hd_tl.
  by intros [?|?]%elem_of_cons.
Qed.

Lemma outside_kept v :
  v ∈ nodes → v ∉ cycle → v ∈ filter (λ v, v ∉ tl cycle) nodes ∧ v ≠ c.
Proof.
  intros Hv Hnc. split.
  - apply list_elem_of_filter. split; [|done]. intros Ht. apply Hnc.
    rewrite cycle_hd_tl. by right.
  - intros ->. apply Hnc, hd_in_cycle.
Qed.

Lemma enter_in_cycle x : enter sc p cycle x ∈ cycle.
Proof. unfold enter. rewrite cycle_hd_tl at 3. apply argmax_in. Qed.

Lemma leave_in_cycle x : leave sc cycle x ∈ cycle.
Proof. unfold leave. rewrite cycle_hd_tl at 3. apply argmax_in. Qed.

(** The head of the contracted node lies outside the cycle. *)
Lemma entering_head : (w = 0 ∨ w ∈ filter (λ v, v ∉ tl cycle) nodes) ∧ w ∉ cycle.
Proof.
  destruct (Htree c hd_kept) as (Hw & Hne & _). fold w in Hw, Hne.
  split; [done|]. destruct Hw as [Hw|Hw].
  - rewrite Hw. intros Hin. by apply H0, (cycle_nodes _ _ _ Hcyc).
  - by apply kept_outside.
Qed.

Lemma expand_in_cycle v :
  v ∈ cycle → h v = if decide (v = e) then w else p v.
Proof. intros Hv. subst h. unfold expand. by rewrite decide_True. Qed.

Lemma expand_outside v :
  v ∉ cycle → h v = if decide (h' v = c) then leave sc cycle v else h' v.
Proof. intros Hv. subst h. unfold expand. by rewrite decide_False. Qed.

(** Inside the cycle the kept cycle edges lead to the node where the
    outside edge enters. *)
Lemma cycle_to_entry k u :
  u ∈ cycle → Nat.iter k p u = e → ∃ k', Nat.iter k' h u = e.
Proof.
  revert u. induction k as [|k IH]; intros u Hu Hk.
  - by exists 0.
  - destruct (decide (u = e)) as [->|Hne]; [by exists 0|].
    rewrite Nat.iter_succ_r in Hk.
    destruct (IH (p u) (cycle_closed _ _ _ Hcyc u Hu) Hk) as [k' Hk'].
    exists (S k'). rewrite Nat.iter_succ_r, expand_in_cycle by done.
    by rewrite decide_False.
Qed.

Lemma cycle_to_root u k :
  u ∈ cycle → Nat.iter k h w = 0 → ∃ k', Nat.iter k' h u = 0.
Proof.
  intros Hu Hk.
  destruct (cycle_connected _ _ _ Hcyc u e Hu (enter_in_cycle w)) as [k1 Hk1].
  destruct (cycle_to_entry k1 u Hu Hk1) as [k2 Hk2].
  exists (k + (1 + k2)). rewrite !Nat.iter_add, Hk2. simpl.
  rewrite (expand_in_cycle e (enter_in_cycle w)). by rewrite decide_True.
Qed.

(** A path to the root in the contracted graph gives one in the expanded
    graph, for the node itself or, at the contracted node, for every node of
    the cycle. *)
Lemma expand_reach k v :
  v = 0 ∨ v ∈ filter (λ v, v ∉ tl cycle) nodes →
  Nat.iter k h' v = 0 →
  (v ≠ c → ∃ k', Nat.iter k' h v = 0) ∧
  (v = c → ∀ u, u ∈ cycle → ∃ k', Nat.iter k' h u = 0).
Proof.
  revert v. induction k as [|k IH]; intros v Hv Hk.
  - simpl in Hk. subst v. split; [by exists 0|].
    intros Hc. exfalso. apply H0, (cycle_nodes _ _ _ Hcyc). rewrite Hc.
    apply hd_in_cycle.
  - destruct Hv as [->|Hv].
    { split; [by exists 0|]. intros Hc. exfalso.
      apply H0, (cycle_nodes _ _ _ Hcyc). rewrite Hc. apply hd_in_cycle. }
    rewrite Nat.iter_succ_r in Hk.
    destruct (Htree v Hv) as (Hhv & _ & _).
    destruct (IH (h' v) Hhv Hk) as [IH1 IH2].
    split.
    + intros Hne. pose proof (kept_outside v Hv Hne) as Hout.
      destruct (decide (h' v = c)) as [Hc|Hnc].
      * destruct (IH2 Hc (leave sc cycle v) (leave_in_cycle v)) as [k' Hk'].
        exists (S k'). rewrite Nat.iter_succ_r, expand_outside by done.
        by rewrite decide_True.
      * destruct (IH1 Hnc) as [k' Hk']. exists (S k').
        rewrite Nat.iter_succ_r, expand_outside by done.
        by rewrite decide_False.
    + intros -> u Hu. fold w in IH1.
      destruct entering_head as [_ Hw].
      destruct IH1 as [k' Hk'].
      { intros Hwc. apply Hw. rewrite Hwc. apply hd_in_cycle. }
      by apply (cycle_to_root u k').
Qed.

Lemma expand_tree : tree nodes h.
Proof.
  intros v Hv. destruct entering_head as [Hw Hwc].
  destruct (decide (v ∈ cycle)) as [Hin|Hout].
  - rewrite expand_in_cycle by done. split; [|split].
    + destruct (decide (v = e)).
      * destruct Hw as [?|[_ ?]%list_elem_of_filter]; [by left | by right].
      * right. by apply (cycle_nodes _ _ _ Hcyc), (cycle_closed _ _ _ Hcyc).
    + destruct (decide (v = e)) as [->|_]; [|apply (Hcand v Hv)].
      intros Hwe. apply Hwc. rewrite Hwe. apply enter_in_cycle.
    + destruct (Htree c hd_kept) as (_ & _ & k & Hk).
      by apply (proj2 (expand_reach k c (or_intror hd_kept) Hk)).
  - destruct (outside_kept v Hv Hout) as [Hkept Hne].
    destruct (Htree v Hkept) as (Hh & Hself & k & Hk).
    rewrite expand_outside by done. split; [|split].
    + destruct (decide (h' v = c)).
      * right. apply (cycle_nodes _ _ _ Hcyc), leave_in_cycle.
      * destruct Hh as [?|[_ ?]%list_elem_of_filter]; [by left | by right].
    + destruct (decide (h' v = c)); [|done].
      intros Hl. apply Hout. rewrite <- Hl. apply leave_in_cycle.
    + by apply (proj1 (expand_reach k v (or_intror Hkept) Hk)).
Qed.

(** The contraction removes at least one node. *)
Lemma contract_shorter :
  length (filter (λ v, v ∉ tl cycle) nodes) < length nodes.
Proof using Hcand Hcyc.
  pose proof (cycle_closed _ _ _ Hcyc c hd_in_cycle) as Hpc.
  pose proof (cycle_nodes _ _ _ Hcyc c hd_in_cycle) as Hc.
  destruct (Hcand c Hc) as [_ Hne].
  apply (length_filter_lt _ _ (p c)).
  - by apply (cycle_nodes _ _ _ Hcyc).
  - intros Hn. apply Hn. rewrite cycle_hd_tl in Hpc.
    by apply elem_of_cons in Hpc as [?|?].
Qed.

End expand.

(** Steps 1 to 3 return a tree over the nodes they are given. *)
Lemma cle_tree fuel (sc : nat → nat → W) nodes h :
  0 ∉ nodes → NoDup nodes → cle fuel sc nodes = Some h → tree nodes h.
Proof.
  revert sc nodes h. induction fuel as [|fuel IH]; intros sc nodes h H0 Hnd; [done|].
  simpl. pose proof (greedy_candidate sc nodes H0) as Hcand.
  destruct (find_cycle (greedy sc nodes) (length nodes) nodes) as [cycle|] eqn:Hf.
  - apply find_cycle_Some with (nodes := nodes) in Hf; [|done..].
    destruct (cle fuel _ _) as [h'|] eqn:Hrec; [|done].
    intros [= <-]. apply expand_tree; try done.
    apply IH in Hrec; [done| |by apply NoDup_filter].
    by intros [_ ?]%list_elem_of_filter.
  - intros [= <-] v Hv. destruct (Hcand v Hv) as [Hc Hne]. split; [done|]. split; [done|].
    by apply (find_cycle_None _ nodes Hcand nodes v).
Qed.

(** One unit of fuel per node, and one more, is enough. *)
Lemma cle_total fuel (sc : nat → nat → W) nodes :
  0 ∉ nodes → NoDup nodes → length nodes < fuel → is_Some (cle fuel sc nodes).
Proof.
  revert sc nodes. induction fuel as [|fuel IH]; intros sc nodes H0 Hnd Hlen; [lia|].
  simpl. pose proof (greedy_candidate sc nodes H0) as Hcand.
  destruct (find_cycle (greedy sc nodes) (length nodes) nodes) as [cycle|] eqn:Hf; [|done].
  apply find_cycle_Some with (nodes := nodes) in Hf; [|done..].
  pose proof (contract_shorter (greedy sc nodes) nodes cycle Hcand Hf) as Hlt.
  destruct (IH (contract sc (greedy sc nodes) cycle) (filter (λ v, v ∉ tl cycle) nodes))
    as [h' Hh'].
  - by intros [_ ?]%list_elem_of_filter.
  - by apply NoDup_filter.
  - lia.
  - rewrite Hh'. done.
Qed.

Lemma valid_shape_length (m : list (list W)) : valid_shape m = true → 2 ≤ length m.
Proof. unfold valid_shape. intros [Hl _]%andb_prop. by apply Nat.leb_le. Qed.

(** On the words [1 .. n] the positions of the decoded sequence and the
    head function agree. *)
Lemma head_of_map (h : nat → nat) n i :
  1 ≤ i ≤ n → head_of (map h (seq 1 n)) i = h i.
Proof.
  intros Hi. destruct i as [|j]; [lia|]. simpl.
  rewrite (nth_indep _ 0 (h 0)) by (rewrite length_map, length_seq; lia).
  rewrite map_nth, seq_nth by lia. done.
Qed.

Lemma tree_dependency_tree (h : nat → nat) n :
  tree (seq 1 n) h → dependency_tree (map h (seq 1 n)).
Proof.
  intros Ht i Hi. rewrite length_map, length_seq in *.
  assert (Hin : ∀ v, v ∈ seq 1 n ↔ 1 ≤ v ≤ n).
  { intros v. rewrite elem_of_seq. lia. }
  rewrite head_of_map by done.
  destruct (Ht i (proj2 (Hin i) Hi)) as (Hh & Hne & k & Hk).
  split; [|split; [done|]].
  - destruct Hh as [->|Hh%Hin]; lia.
  - clear Hh Hne. revert i Hi Hk. induction k as [|k IH]; intros i Hi Hk.
    + by exists 0.
    + rewrite Nat.iter_succ_r in Hk.
      destruct (Ht i (proj2 (Hin i) Hi)) as ([Hh|Hh%Hin] & _ & _).
      * exists 1. simpl. by rewrite head_of_map.
      * destruct (IH (h i) Hh Hk) as [k' Hk']. exists (S k').
        by rewrite Nat.iter_succ_r, head_of_map.
Qed.

Lemma chu_liu_edmonds_Ok (m : list (list W)) :
  valid_shape m = true →
  ∃ h score,
    chu_liu_edmonds m = Ok (0 :: map h (seq 1 (length m - 1)), score) ∧
    tree (seq 1 (length m - 1)) h.
Proof.
  intros Hv. pose proof (valid_shape_length m Hv) as Hl.
  unfold chu_liu_edmonds. rewrite Hv. simpl.
  assert (H0 : 0 ∉ seq 1 (length m - 1)) by (rewrite elem_of_seq; lia).
  destruct (cle_total (length m) (entry m) (seq 1 (length m - 1)) H0) as [h Hh].
  - apply NoDup_seq.
  - rewrite length_seq. lia.
  - rewrite Hh. eexists _, _. split; [done|].
    apply (cle_tree _ _ _ _ H0 (NoDup_seq _ _) Hh).
Qed.

(** The decoding step on an accepted matrix: it returns, and what it
    returns is a tree over the words. *)
Lemma decode_elem_tree (m : list (list W)) :
  valid_shape m = true →
  ∃ heads,
    decode_elem (Some m) = Ok heads ∧
    length heads = length m - 1 ∧
    dependency_tree heads.
Proof.
  intros Hv. destruct (chu_liu_edmonds_Ok m Hv) as (h & score & Hc & Ht).
  exists (map h (seq 1 (length m - 1))). split; [|split].
  - unfold decode_elem. rewrite Hc. done.
  - by rewrite length_map, length_seq.
  - by apply tree_dependency_tree.
Qed.

(** C1. For a square score matrix of size at least 2x2, the decoding step
    of [predict_heads] returns a sequence with one head for each non-root
    word (the entry at position [i - 1] is the head of word [i]); each head
    is the root or a word of the sentence, no word is its own head, and
    following the heads from any word reaches the root, position 0, after
    finitely many steps. *)
Theorem decode_is_tree (m : list (list W)) :
  valid_shape m = true →
  ∃ heads,
    decode_elem (Some m) = Ok heads ∧
    length heads = length m - 1 ∧
    (∀ i, 1 ≤ i ≤ length heads →
          head_of heads i ≤ length heads ∧
          head_of heads i ≠ i ∧
          ∃ k, Nat.iter k (head_of heads) i = 0).
Proof. exact (decode_elem_tree m). Qed.

End decoder_facts.

Lemma decode_is_tree_witness :
  ∃ heads,
    decode_elem (Some cyclic_scores) = Ok heads ∧
    length heads = length cyclic_scores - 1 ∧
    dependency_tree heads.
Proof. apply (decode_is_tree cyclic_scores). reflexivity. Defined.

(** The end-to-end scenario of the specification, and a greedy choice with
    a cycle. *)
Example decode_scenarios :
  decode_elem (Some chain_scores) = Ok [0; 1; 2] ∧
  decode_elem (Some cyclic_scores) = Ok [0; 1; 2].
Proof. by vm_compute. Qed.

End DecoderFacts.

Module ParserFacts.
Import Decoder Parser.

Section parser_facts.
Context `{Externals}.
Context (fit_head_model :
           parser → sent_data → list (list Z) → option (list (list TagVector)) →
           option dev_data → HeadModel).
Context (fit_dep_model :
           parser → sent_data → list (list Z) → list (list string) →
           option (list (list TagVector)) → option dev_data → DepModel).

Local Existing Instance M_mbind.

(** *** Methods that assign no attribute *)

Lemma bind_run {A B} (m : M A) (k : A → M B) self :
  (m ≫= k) self =
  match m self with
  | (Ok a, self') => k a self'
  | (Raise e, self') => (Raise e, self')
  end.
Proof. reflexivity. Qed.

Lemma bind_Ok_M {A B} (m : M A) (k : A → M B) self b self2 :
  (m ≫= k) self = (Ok b, self2) ↔
  ∃ a self1, m self = (Ok a, self1) ∧ k a self1 = (Ok b, self2).
Proof.
  rewrite bind_run. destruct (m self) as [[a|e] self1]; split.
  - eauto.
  - by intros (a' & s' & [= <- <-] & ?).
  - discriminate.
  - by intros (a' & s' & [=] & ?).
Qed.

Lemma frame_bind {A B} (m : M A) (k : A → M B) :
  frame m → (∀ a, frame (k a)) → frame (m ≫= k).
Proof.
  intros Hm Hk self. rewrite bind_run. specialize (Hm self).
  destruct (m self) as [[a|e] self']; simpl in *; subst self'; [apply Hk | done].
Qed.

Lemma frame_ret {A} (a : A) : frame (ret a).
Proof. done. Qed.

Lemma frame_raise {A} e : frame (raise (A:=A) e).
Proof. done. Qed.

Lemma frame_lift {A} (r : res A) : frame (lift r).
Proof. done. Qed.

Lemma frame_read {A} (field : parser → A) : frame (read field).
Proof. done. Qed.

Lemma frame_attr {A} (field : parser → option A) : frame (attr field).
Proof. intros self. unfold attr. by destruct (field self). Qed.

Lemma frame_get_self : frame get_self.
Proof. done. Qed.

Lemma frame_mapM {A B} (f : A → M B) l : (∀ a, frame (f a)) → frame (mapM f l).
Proof.
  intros Hf. induction l as [|x l IH]; simpl; [done|].
  apply frame_bind; [done|]. intros y. apply frame_bind; [done|]. intros ys. done.
Qed.

Create HintDb frames.
#[local] Hint Resolve frame_ret frame_raise frame_lift frame_read frame_attr
  frame_get_self : frames.

Ltac frames :=
  repeat first
    [ progress auto with frames
    | apply frame_bind; [|intros ?]
    | apply frame_mapM; intros ?
    | match goal with
      | |- frame (if ?b then _ else _) => destruct b
      | |- frame (match ?x with _ => _ end) => destruct x
      end ].

Lemma frame_recode_word word : frame (recode_word word).
Proof. unfold recode_word. frames. Qed.
#[local] Hint Resolve frame_recode_word : frames.

Lemma frame_recode sent : frame (_recode sent).
Proof. unfold _recode. destruct sent; frames. Qed.
#[local] Hint Resolve frame_recode : frames.

Lemma frame_transform_data sents : frame (_transform_data sents false).
Proof. unfold _transform_data. frames. Qed.

Lemma frame_transform_tags sents : frame (_transform_tags sents false).
Proof. unfold _transform_tags. frames. Qed.
#[local] Hint Resolve frame_transform_data frame_transform_tags : frames.

Lemma frame_build_head_network : frame build_head_network.
Proof. unfold build_head_network. frames. Qed.
#[local] Hint Resolve frame_build_head_network : frames.

Lemma frame_build_dep_network : frame build_dep_network.
Proof. unfold build_dep_network. frames. Qed.
#[local] Hint Resolve frame_build_dep_network : frames.

Lemma frame_train_dev_data dev dev_tags : frame (train_dev_data dev dev_tags).
Proof. unfold train_dev_data. destruct dev as [[[ds dh] dd]|]; frames. Qed.

Lemma frame_head_batches_loop data batches probs :
  frame (head_batches_loop data batches probs).
Proof.
  revert probs. induction batches as [|[batch indexes] rest IH]; intros probs; simpl;
    frames.
Qed.
#[local] Hint Resolve frame_head_batches_loop : frames.

Lemma frame_predict_heads data : frame (predict_heads data).
Proof. unfold predict_heads. frames. Qed.

Lemma frame_label_names labels : frame (label_names labels).
Proof. unfold label_names. frames. Qed.
#[local] Hint Resolve frame_predict_heads frame_label_names : frames.

Lemma frame_dep_indexes_loop data batch_labels i indexes answer :
  frame (dep_indexes_loop data batch_labels i indexes answer).
Proof.
  revert i answer. induction indexes as [|index rest IH]; intros i answer; simpl;
    frames.
Qed.
#[local] Hint Resolve frame_dep_indexes_loop : frames.

Lemma frame_dep_batches_loop data batches answer :
  frame (dep_batches_loop data batches answer).
Proof.
  revert answer. induction batches as [|[batch indexes] rest IH]; intros answer; simpl;
    frames.
Qed.
#[local] Hint Resolve frame_dep_batches_loop : frames.

Lemma frame_predict_deps data heads : frame (predict_deps data heads).
Proof. unfold predict_deps. destruct (make_indexes_for_syntax heads). frames. Qed.
#[local] Hint Resolve frame_predict_deps : frames.

Lemma frame_predict data : frame (predict data).
Proof.
  unfold predict. apply frame_bind; [frames|].
  intros [head_probs chl]. frames.
Qed.

(** *** The vocabularies through [train] *)

Lemma bind_frame_state {A B} (m : M A) (k : A → M B) self :
  (∀ a, frame (k a)) → ((m ≫= k) self).2 = (m self).2.
Proof.
  intros Hk. rewrite bind_run. destruct (m self) as [[a|e] self']; [apply Hk | done].
Qed.

Lemma stable_bind {A B} P (m : M A) (k : A → M B) :
  stable P m → (∀ a, stable P (k a)) → stable P (m ≫= k).
Proof.
  intros Hm Hk self HP. rewrite bind_run. specialize (Hm self HP).
  destruct (m self) as [[a|e] self']; [by apply Hk | done].
Qed.

Lemma frame_stable {A} P (m : M A) : frame m → stable P m.
Proof. intros Hm self HP. by rewrite Hm. Qed.

Section train.
Variables (self0 : parser) (sents : list (list Word)) (heads : list (list Z))
  (deps : list (list string))
  (dev : option (list (list Word) * list (list Z) * list (list string)))
  (tags dev_tags : option (list (list string))).

Local Abbreviation symbols := (trained_symbols sents).
Local Abbreviation tag_features := trained_tags.
Local Abbreviation labels := (trained_labels deps).
Local Abbreviation from_training := (Parser.from_training self0 sents deps tags).

Lemma train_sent_data_state self :
  (train_sent_data (pad_data sents) self).2 =
  if use_char_model self then (set_symbol_vocabulary symbols self).2 else self.
Proof.
  unfold train_sent_data. rewrite bind_run. unfold read. cbv beta iota.
  destruct (use_char_model self); [|done].
  rewrite bind_frame_state by (intros; frames).
  unfold _transform_data. rewrite bind_frame_state by (intros; frames). done.
Qed.

Lemma train_tag_data_state self :
  (train_tag_data tags self).2 =
  match tags with
  | Some t => (set_tag_vocabulary (tag_features t) self).2
  | None => self
  end.
Proof.
  unfold train_tag_data. destruct tags as [t|]; [|done].
  rewrite bind_frame_state by (intros; frames).
  unfold _transform_tags. rewrite bind_frame_state by (intros; frames). done.
Qed.

Lemma train_head_model_state sd hs td dv self :
  (train_head_model fit_head_model sd hs td dv self).2 = self ∨
  ∃ model, (train_head_model fit_head_model sd hs td dv self).2 =
           (set_head_model model self).2.
Proof.
  unfold train_head_model. rewrite bind_run.
  pose proof (frame_build_head_network self) as Hf.
  destruct (build_head_network self) as [[[]|e] self']; simpl in Hf; subst self'.
  - right. eexists. reflexivity.
  - by left.
Qed.

Lemma train_dep_model_state sd hs ds td dv self :
  (train_dep_model fit_dep_model sd hs ds td dv self).2 = self ∨
  ∃ model, (train_dep_model fit_dep_model sd hs ds td dv self).2 =
           (set_dep_model model self).2.
Proof.
  unfold train_dep_model. rewrite bind_run.
  pose proof (frame_build_dep_network self) as Hf.
  destruct (build_dep_network self) as [[[]|e] self']; simpl in Hf; subst self'.
  - right. eexists. reflexivity.
  - by left.
Qed.

Lemma stable_train_sent_data : stable from_training (train_sent_data (pad_data sents)).
Proof.
  intros self HP. rewrite train_sent_data_state.
  destruct (use_char_model self); [|done].
  destruct HP as (Hs & Ht & Hd). split; [by right | done].
Qed.

Lemma stable_train_tag_data : stable from_training (train_tag_data tags).
Proof.
  intros self HP. rewrite train_tag_data_state. unfold from_training in *.
  destruct tags as [t|]; [|done].
  destruct HP as (Hs & Ht & Hd). split; [done|]. split; [|done].
  right. by exists t.
Qed.

Lemma stable_train_head_model sd hs td dv :
  stable from_training (train_head_model fit_head_model sd hs td dv).
Proof.
  intros self HP. by destruct (train_head_model_state sd hs td dv self) as [->|[m ->]].
Qed.

Lemma stable_train_dep_model sd hs ds td dv :
  stable from_training (train_dep_model fit_dep_model sd hs ds td dv).
Proof.
  intros self HP. by destruct (train_dep_model_state sd hs ds td dv self) as [->|[m ->]].
Qed.

Lemma stable_set_dep_vocab : stable from_training (set_dep_vocab labels).
Proof. intros self (Hs & Ht & Hd). split; [done|]. split; [done|]. by right. Qed.

Lemma stable_train :
  stable from_training (train fit_head_model fit_dep_model sents heads deps dev tags dev_tags).
Proof.
  unfold train.
  apply stable_bind; [apply stable_train_sent_data | intros sd].
  apply stable_bind; [apply stable_train_tag_data | intros td].
  apply stable_bind; [apply frame_stable, frame_train_dev_data | intros dv].
  apply stable_bind; [apply stable_set_dep_vocab | intros _].
  apply stable_bind; [apply stable_train_head_model | intros _].
  apply stable_train_dep_model.
Qed.

(** What a completed [train] leaves in the three attributes. *)
Lemma train_Ok after :
  train fit_head_model fit_dep_model sents heads deps dev tags dev_tags self0 = (Ok (), after) →
  symbol_vocabulary after =
    (if use_char_model self0 then Some symbols else symbol_vocabulary self0) ∧
  tag_vocabulary after =
    match tags with
    | Some t => Some (tag_features t)
    | None => tag_vocabulary self0
    end ∧
  dep_vocab after = Some labels.
Proof.
  unfold train.
  intros (sd & s1 & H1 & Hrest)%bind_Ok_M.
  apply bind_Ok_M in Hrest as (td & s2 & H2 & Hrest).
  apply bind_Ok_M in Hrest as (dv & s3 & H3 & Hrest).
  apply bind_Ok_M in Hrest as ([] & s4 & H4 & Hrest).
  apply bind_Ok_M in Hrest as ([] & s5 & H5 & H6).
  pose proof (train_sent_data_state self0) as E1. rewrite H1 in E1. simpl in E1.
  pose proof (train_tag_data_state s1) as E2. rewrite H2 in E2. simpl in E2.
  pose proof (frame_train_dev_data dev dev_tags s2) as E3. rewrite H3 in E3. simpl in E3.
  injection H4 as E4.
  pose proof (train_head_model_state sd (pad_heads heads) td dv s4) as E5.
  rewrite H5 in E5. simpl in E5.
  pose proof (train_dep_model_state sd (pad_heads heads) (pad_deps deps) td dv s5) as E6.
  rewrite H6 in E6. simpl in E6.
  assert (Hv : symbol_vocabulary after = symbol_vocabulary s4 ∧
               tag_vocabulary after = tag_vocabulary s4 ∧
               dep_vocab after = dep_vocab s4).
  { destruct E6 as [->|[m6 ->]]; destruct E5 as [->|[m5 ->]]; done. }
  destruct Hv as (-> & -> & ->). subst s4 s3. simpl.
  split; [|split; [|done]].
  - transitivity (symbol_vocabulary s1).
    + subst s2. by destruct tags.
    + subst s1. by destruct (use_char_model self0).
  - subst s2. destruct tags; [done|]. subst s1. by destruct (use_char_model self0).
Qed.

End train.

(** C6. After [train], whether it returned or raised, each of the three
    vocabularies is the one the parser had before or the one trained on
    the training sentences, tags or labels: the development data is encoded
    with [to_train] left [False] and reaches no vocabulary.  After a
    completed [train] the symbol vocabulary is the trained one when
    [use_char_model] is set, the tag vocabulary is the trained one when
    [tags] were given, and the label vocabulary is the trained one.
    [predict], [predict_heads] and [predict_deps] assign no attribute at
    all. *)
Theorem vocabularies_from_training
    (self : parser) (sents : list (list Word)) (heads : list (list Z))
    (deps : list (list string))
    (dev : option (list (list Word) * list (list Z) * list (list string)))
    (tags dev_tags : option (list (list string))) :
  let run := train fit_head_model fit_dep_model sents heads deps dev tags dev_tags self in
  ((symbol_vocabulary run.2 = symbol_vocabulary self ∨
    symbol_vocabulary run.2 = Some (trained_symbols sents)) ∧
   (tag_vocabulary run.2 = tag_vocabulary self ∨
    ∃ t, tags = Some t ∧ tag_vocabulary run.2 = Some (trained_tags t)) ∧
   (dep_vocab run.2 = dep_vocab self ∨
    dep_vocab run.2 = Some (trained_labels deps))) ∧
  (run.1 = Ok () →
   symbol_vocabulary run.2 =
     (if use_char_model self then Some (trained_symbols sents)
      else symbol_vocabulary self) ∧
   tag_vocabulary run.2 =
     match tags with
     | Some t => Some (trained_tags t)
     | None => tag_vocabulary self
     end ∧
   dep_vocab run.2 = Some (trained_labels deps)) ∧
  (∀ data decoded,
     (predict data self).2 = self ∧
     (predict_heads data self).2 = self ∧
     (predict_deps data decoded self).2 = self).
Proof.
  intros run. split; [|split].
  - apply (stable_train self). repeat split; by left.
  - intros Hrun. apply (train_Ok self sents heads deps dev tags dev_tags).
    destruct run as [r after] eqn:E. simpl in Hrun. by subst r.
  - intros data decoded. split; [|split].
    + apply frame_predict.
    + apply frame_predict_heads.
    + apply frame_predict_deps.
Qed.

(** *** Lengths through [predict] *)

Lemma head_indexes_loop_length data batch_probs i indexes probs probs' :
  head_indexes_loop data batch_probs i indexes probs = Ok probs' →
  length probs' = length probs.
Proof.
  revert i probs. induction indexes as [|index rest IH]; intros i probs; simpl.
  - by intros [= <-].
  - intros (sent & _ & Hrest)%bind_Ok.
    apply bind_Ok in Hrest as (bp & _ & Hrest).
    apply bind_Ok in Hrest as (curr & _ & Hrest).
    apply IH in Hrest. by rewrite length_insert in Hrest.
Qed.

Lemma head_batches_loop_length data batches probs self probs' self' :
  head_batches_loop data batches probs self = (Ok probs', self') →
  length probs' = length probs.
Proof.
  revert probs self. induction batches as [|[batch indexes] rest IH]; intros probs self;
    simpl.
  - by intros [= <- _].
  - intros (model & s1 & _ & Hrest)%bind_Ok_M.
    apply bind_Ok_M in Hrest as (probs1 & s2 & Hl & Hrest).
    unfold lift in Hl. injection Hl as Hl _.
    apply head_indexes_loop_length in Hl. apply IH in Hrest. congruence.
Qed.

Lemma decode_all_length (probs : list (option (list (list Q)))) heads :
  decode_all probs = Ok heads → length heads = length probs.
Proof.
  revert heads. induction probs as [|elem rest IH]; intros heads; simpl.
  - by intros [= <-].
  - intros (h & _ & Hrest)%bind_Ok.
    apply bind_Ok in Hrest as (others & Ho & [= <-]). simpl. by rewrite (IH others).
Qed.

Lemma dep_indexes_loop_length data batch_labels i indexes answer self answer' self' :
  dep_indexes_loop data batch_labels i indexes answer self = (Ok answer', self') →
  length answer' = length answer.
Proof.
  revert i answer self. induction indexes as [|index rest IH]; intros i answer self; simpl.
  - by intros [= <- _].
  - intros (sent & s1 & _ & Hrest)%bind_Ok_M.
    apply bind_Ok_M in Hrest as (labels & s2 & _ & Hrest).
    apply bind_Ok_M in Hrest as (names & s3 & _ & Hrest).
    apply IH in Hrest. by rewrite length_insert in Hrest.
Qed.

Lemma dep_batches_loop_length data batches answer self answer' self' :
  dep_batches_loop data batches answer self = (Ok answer', self') →
  length answer' = length answer.
Proof.
  revert answer self. induction batches as [|[batch indexes] rest IH];
    intros answer self; simpl.
  - by intros [= <- _].
  - intros (model & s1 & _ & Hrest)%bind_Ok_M.
    apply bind_Ok_M in Hrest as (batch_labels & s2 & _ & Hrest).
    apply bind_Ok_M in Hrest as (answer1 & s3 & Hl & Hrest).
    apply dep_indexes_loop_length in Hl. apply IH in Hrest. congruence.
Qed.

Lemma predict_heads_length data self probs heads self' :
  predict_heads data self = (Ok (probs, heads), self') →
  length probs = length data ∧ length heads = length data.
Proof.
  unfold predict_heads.
  intros (e & s1 & _ & Hrest)%bind_Ok_M.
  apply bind_Ok_M in Hrest as (probs1 & s2 & Hl & Hrest).
  apply bind_Ok_M in Hrest as (chl & s3 & Hd & [= <- <- _]).
  apply head_batches_loop_length in Hl. rewrite length_replicate in Hl.
  unfold lift in Hd. injection Hd as Hd _. apply decode_all_length in Hd.
  split; congruence.
Qed.

Lemma predict_deps_length data heads self answer self' :
  predict_deps data heads self = (Ok answer, self') → length answer = length data.
Proof.
  unfold predict_deps. destruct (make_indexes_for_syntax heads) as [di hi].
  intros (e & s1 & _ & Hl)%bind_Ok_M.
  apply dep_batches_loop_length in Hl. by rewrite length_replicate in Hl.
Qed.

(** *** [predict] returns when its collaborators keep the checks *)

Lemma forallb_Forall {A} (f : A → bool) l :
  forallb f l = true ↔ Forall (λ x, f x = true) l.
Proof. by rewrite List.forallb_forall, List.Forall_forall. Qed.

Lemma slice_to_pred {A} L (l : list A) :
  1 ≤ L → slice_to (Z.of_nat L - 1) l = take (L - 1) l.
Proof.
  intros HL. unfold slice_to. destruct (0 <=? Z.of_nat L - 1)%Z eqn:E.
  - f_equal. lia.
  - apply Z.leb_gt in E. lia.
Qed.

Lemma truncate_square L a :
  1 ≤ L → L - 1 ≤ length a → Forall (λ row, L - 1 ≤ length row) a →
  square (L - 1) (truncate (Z.of_nat L - 1) a).
Proof.
  intros HL Hrows Hcols. unfold truncate. rewrite slice_to_pred by done. split.
  - rewrite length_map. by apply length_take_le.
  - apply Forall_map. eapply Forall_impl; [by apply Forall_take|].
    intros row Hrow. simpl in Hrow. rewrite slice_to_pred by done.
    by apply length_take_le.
Qed.

Lemma renormalize_square n a :
  square n a → ∃ r, renormalize a = Ok r ∧ square n r.
Proof.
  intros [Hlen Hrows]. unfold renormalize.
  assert (Hc : forallb (λ row, length row =? length a) a = true).
  { apply forallb_Forall. eapply Forall_impl; [exact Hrows|].
    intros row Hrow. simpl in *. apply Nat.eqb_eq. congruence. }
  rewrite Hc. eexists. split; [done|]. split.
  - by rewrite length_map.
  - apply Forall_map. eapply Forall_impl; [exact Hrows|].
    intros row Hrow. simpl in *. rewrite length_zip_with, length_map. lia.
Qed.

(** On a square array the division takes, for the entry in row [d] and
    column [h], the sum of row [h]. *)
Lemma renormalize_entry n a r d h :
  square n a → renormalize a = Ok r → d < n → h < n →
  nth h (nth d r []) 0%Q = (nth h (nth d a []) 0 / Qsum (nth h a []))%Q.
Proof.
  intros [Hlen Hrows] Hr Hd Hh. unfold renormalize in Hr.
  replace (forallb (λ row, length row =? length a) a) with true in Hr.
  2:{ symmetry. apply forallb_Forall. eapply Forall_impl; [exact Hrows|].
      intros row Hrow. simpl in *. apply Nat.eqb_eq. congruence. }
  injection Hr as <-.
  change [] with ((λ row, zip_with Qdiv row (map Qsum a)) []) at 1.
  rewrite map_nth.
  assert (Hrow : length (nth d a []) = n).
  { rewrite Forall_lookup in Hrows.
    destruct (lookup_lt_is_Some_2 a d ltac:(lia)) as [row Hrow].
    rewrite (nth_lookup_Some _ _ _ _ Hrow). by apply (Hrows d). }
  destruct (lookup_lt_is_Some_2 (nth d a []) h ltac:(lia)) as [x Hx].
  destruct (lookup_lt_is_Some_2 a h ltac:(lia)) as [row' Hrow'].
  rewrite (nth_lookup_Some _ _ _ _ Hx), (nth_lookup_Some _ _ _ _ Hrow').
  apply nth_lookup_Some. rewrite lookup_zip_with, Hx. simpl.
  change (map Qsum a) with (Qsum <$> a). by rewrite list_lookup_fmap, Hrow'.
Qed.

Lemma square_valid n (a : list (list Q)) :
  2 ≤ n → square n a → valid_shape a = true ∧ argmax_check a = Ok ().
Proof.
  intros Hn [Hlen Hrows]. split.
  - unfold valid_shape. apply andb_true_intro. split.
    + apply Nat.leb_le. lia.
    + apply forallb_Forall. eapply Forall_impl; [exact Hrows|].
      intros row Hrow. simpl in *. apply Nat.eqb_eq. congruence.
  - destruct a as [|row a]; [simpl in Hlen; lia|].
    apply Forall_cons in Hrows as [Hrow _]. simpl.
    replace (length row =? 0) with false; [done|]. symmetry. apply Nat.eqb_neq. lia.
Qed.

Lemma sentence_probs_fits L batch_probs_i :
  fits L batch_probs_i = true →
  ∃ m, sentence_probs L batch_probs_i = Ok m ∧ valid_shape m = true ∧ length m = L - 1.
Proof.
  unfold fits. intros [[H3 Hr]%andb_prop Hc]%andb_prop.
  apply Nat.leb_le in H3, Hr. apply forallb_Forall in Hc.
  assert (Hsq : square (L - 1) (truncate (Z.of_nat L - 1) batch_probs_i)).
  { apply truncate_square; [lia | done |].
    eapply Forall_impl; [exact Hc|]. intros row Hrow. simpl in Hrow.
    by apply Nat.leb_le. }
  destruct (renormalize_square _ _ Hsq) as (r & Hr' & Hsq').
  destruct (square_valid (L - 1) r) as [Hv Ha]; [lia | done |].
  exists r. unfold sentence_probs. rewrite Hr'. simpl. rewrite Ha. simpl.
  split; [done|]. split; [done|]. apply Hsq'.
Qed.

Section predict_heads.
Variable data : list (list Word).

Local Abbreviation probs_inv := (Parser.probs_inv data).

Lemma head_indexes_loop_ok batch_probs i indexes probs :
  head_indexes_ok data batch_probs i indexes = true → probs_inv probs →
  ∃ probs', head_indexes_loop data batch_probs i indexes probs = Ok probs' ∧
            probs_inv probs' ∧
            ∀ k, filled probs k ∨ k ∈ indexes → filled probs' k.
Proof.
  revert i probs. induction indexes as [|index rest IH]; intros i probs Hok Hinv.
  - exists probs. split; [done|]. split; [done|].
    intros k [?|Hk]; [done | by apply elem_of_nil in Hk].
  - simpl in Hok. apply andb_prop in Hok as [Hfit Hok].
    destruct (data !! index) as [sent|] eqn:Hsent; [|done].
    destruct (batch_probs !! i) as [bp|] eqn:Hbp; [|done].
    destruct (sentence_probs_fits _ _ Hfit) as (m & Hm & Hv & Hlen).
    assert (Hinv' : probs_inv (<[index := Some m]> probs)).
    { destruct Hinv as [Hl Hentries]. split; [by rewrite length_insert|].
      intros k m' Hk. destruct (decide (index = k)) as [->|Hne].
      - rewrite list_lookup_insert_eq in Hk.
        + injection Hk as <-. by exists sent.
        + rewrite Hl. by eapply lookup_lt_Some.
      - rewrite list_lookup_insert_ne in Hk by done. by apply Hentries. }
    destruct (IH (S i) _ Hok Hinv') as (probs' & Hloop & Hinv'' & Hfilled).
    exists probs'. split; [|split; [done|]].
    + simpl. unfold item. rewrite Hsent, Hbp. simpl. rewrite Hm. simpl. done.
    + intros k Hk. apply Hfilled.
      destruct (decide (index = k)) as [->|Hne].
      * left. exists m. apply list_lookup_insert_eq.
        destruct Hinv as [-> _]. by eapply lookup_lt_Some.
      * destruct Hk as [[a Ha]|Hk].
        -- left. exists a. by rewrite list_lookup_insert_ne.
        -- right. by apply elem_of_cons in Hk as [?|?].
Qed.

Lemma head_batches_loop_ok self model batches probs :
  head_model self = Some model →
  head_batches_ok model data batches = true → probs_inv probs →
  ∃ probs', head_batches_loop data batches probs self = (Ok probs', self) ∧
            probs_inv probs' ∧
            ∀ k, filled probs k ∨ (∃ b, b ∈ batches ∧ k ∈ b.2) → filled probs' k.
Proof.
  intros Hmodel. revert probs.
  induction batches as [|[batch indexes] rest IH]; intros probs Hok Hinv.
  - exists probs. split; [done|]. split; [done|].
    intros k [?|(b & Hb & _)]; [done | by apply elem_of_nil in Hb].
  - simpl in Hok. apply andb_prop in Hok as [Hb Hok].
    destruct (head_indexes_loop_ok _ 0 indexes probs Hb Hinv)
      as (probs1 & Hloop & Hinv1 & Hfilled1).
    destruct (IH probs1 Hok Hinv1) as (probs' & Hrest & Hinv' & Hfilled').
    exists probs'. split; [|split; [done|]].
    + simpl. rewrite bind_run. unfold attr. rewrite Hmodel.
      rewrite bind_run. unfold lift. rewrite Hloop. done.
    + intros k Hk. apply Hfilled'.
      destruct Hk as [Hk|(b & [->|Hin]%elem_of_cons & Hkb)].
      * left. apply Hfilled1. by left.
      * left. apply Hfilled1. by right.
      * right. by exists b.
Qed.

Lemma covered_spec batches k :
  covered (length data) batches = true → k < length data →
  ∃ b, b ∈ batches ∧ k ∈ b.2.
Proof.
  unfold covered. rewrite List.forallb_forall. intros Hc Hk.
  specialize (Hc k). rewrite List.in_seq in Hc.
  destruct (proj1 (List.existsb_exists _ _) (Hc ltac:(lia))) as (b & Hb & Hkb).
  exists b. split; [by apply list_elem_of_In|]. by apply bool_decide_eq_true in Hkb.
Qed.

End predict_heads.

Lemma decode_all_ok (probs : list (option (list (list Q)))) :
  Forall (λ elem, ∃ m, elem = Some m ∧ valid_shape m = true) probs →
  ∃ heads, decode_all probs = Ok heads ∧
           Forall2 (λ elem h, ∃ m, elem = Some m ∧ length h = length m - 1 ∧
                              dependency_tree h) probs heads.
Proof.
  induction 1 as [|elem probs (m & -> & Hv) _ (heads & Hd & Hall)].
  - exists []. split; [done | constructor].
  - destruct (DecoderFacts.decode_elem_tree m Hv) as (h & Hh & Hlen & Htree).
    exists (h :: heads). split.
    + cbn [decode_all]. rewrite Hh, Hd. done.
    + constructor; [by exists m | done].
Qed.

Lemma predict_heads_ok (data : list (list Word)) self model :
  head_model self = Some model →
  head_batches_ok model data (head_batches (embedder self) data) = true →
  covered (length data) (head_batches (embedder self) data) = true →
  ∃ probs heads,
    predict_heads data self = (Ok (probs, heads), self) ∧
    length heads = length data ∧
    ∀ k sent, data !! k = Some sent →
      ∃ h, heads !! k = Some h ∧ length h = length sent - 2 ∧ dependency_tree h.
Proof.
  intros Hmodel Hok Hcov.
  destruct (head_batches_loop_ok data self model _ (replicate (length data) None)
              Hmodel Hok) as (probs & Hloop & [Hlen Hentries] & Hfilled).
  { split; [by rewrite length_replicate|]. intros k m Hk.
    apply lookup_replicate in Hk as [[=] _]. }
  assert (Hall : Forall (λ elem, ∃ m, elem = Some m ∧ valid_shape m = true) probs).
  { apply Forall_lookup. intros k elem Hk.
    destruct (Hfilled k) as [m Hm].
    { right. apply (covered_spec data); [done|]. rewrite <- Hlen.
      by eapply lookup_lt_Some. }
    rewrite Hm in Hk. injection Hk as <-.
    destruct (Hentries k m Hm) as (sent & _ & Hv & _). by exists m. }
  destruct (decode_all_ok probs Hall) as (heads & Hd & Hheads).
  exists probs, heads. split; [|split].
  - unfold predict_heads. rewrite bind_run. unfold read. cbv beta iota.
    rewrite bind_run, Hloop. rewrite bind_run. unfold lift. rewrite Hd. done.
  - rewrite <- Hlen. symmetry. by eapply Forall2_length.
  - intros k sent Hsent.
    destruct (Hfilled k) as [m Hm].
    { right. apply (covered_spec data); [done|]. by eapply lookup_lt_Some. }
    destruct (Forall2_lookup_l _ _ _ _ _ Hheads Hm) as (h & Hh & m' & [= <-] & Hl & Ht).
    destruct (Hentries k m Hm) as (sent' & Hsent' & _ & Hlm).
    rewrite Hsent in Hsent'. injection Hsent' as <-.
    exists h. split; [done|]. split; [lia | done].
Qed.

Lemma argmax_row_lt row : 0 < length row → argmax_row row < length row.
Proof.
  intros Hlen. unfold argmax_row.
  pose proof (DecoderFacts.argmax_in (λ i, nth i row 0%Q) 0 (seq 1 (length row - 1)))
    as Hin.
  apply elem_of_cons in Hin as [->|Hin]; [done|]. apply elem_of_seq in Hin. lia.
Qed.

Lemma batch_argmax_ok n_labels batch_probs :
  forallb (forallb (λ row, (0 <? length row) && (length row <=? n_labels)))
          batch_probs = true →
  ∃ batch_labels, batch_argmax batch_probs = Ok batch_labels ∧
                  Forall2 (labels_of n_labels) batch_probs batch_labels.
Proof.
  intros Hrows. exists (map (map argmax_row) batch_probs). split.
  - unfold batch_argmax.
    replace (forallb (forallb (λ row, negb (length row =? 0))) batch_probs) with true;
      [done|].
    symmetry. apply forallb_Forall. apply forallb_Forall in Hrows.
    eapply Forall_impl; [exact Hrows|]. intros p Hp. simpl in *.
    apply forallb_Forall. apply forallb_Forall in Hp.
    eapply Forall_impl; [exact Hp|]. intros row [Hpos _]%andb_prop. simpl.
    apply Nat.ltb_lt in Hpos. apply negb_true_iff, Nat.eqb_neq. lia.
  - apply forallb_Forall in Hrows.
    induction Hrows as [|p rest Hp _ IH]; simpl; constructor; [|done].
    split; [by rewrite length_map|]. apply Forall_map.
    apply forallb_Forall in Hp. eapply Forall_impl; [exact Hp|].
    intros row [Hpos Hle]%andb_prop. simpl.
    apply Nat.ltb_lt in Hpos. apply Nat.leb_le in Hle.
    pose proof (argmax_row_lt row Hpos). lia.
Qed.

Lemma label_names_ok self vocabulary curr_labels :
  dep_vocab self = Some vocabulary →
  Forall (λ l, l < length (symbols_ vocabulary)) curr_labels →
  ∃ names, label_names curr_labels self = (Ok names, self) ∧
           length names = length curr_labels.
Proof.
  intros Hv. unfold label_names. induction 1 as [|l rest Hl _ (names & Hn & Hlen)].
  - by exists [].
  - destruct (lookup_lt_is_Some_2 (symbols_ vocabulary) l Hl) as [name Hname].
    exists (name :: names). split; [|simpl; by rewrite Hlen].
    cbn [mapM]. rewrite bind_run.
    replace ((attr dep_vocab ≫= λ vocabulary', lift (item (symbols_ vocabulary') l)) self)
      with (Ok name, self).
    + rewrite bind_run, Hn. done.
    + rewrite bind_run. unfold attr. rewrite Hv. unfold lift, item. by rewrite Hname.
Qed.

Section predict_deps.
Variables (data : list (list Word)) (self : parser) (vocabulary : DepVocabulary).
Hypothesis Hvocabulary : dep_vocab self = Some vocabulary.

Local Abbreviation answer_inv := (Parser.answer_inv data).

Lemma dep_indexes_loop_ok batch_probs batch_labels i indexes answer :
  dep_indexes_ok data batch_probs i indexes = true →
  Forall2 (labels_of (length (symbols_ vocabulary))) batch_probs batch_labels →
  answer_inv answer →
  ∃ answer', dep_indexes_loop data batch_labels i indexes answer self = (Ok answer', self) ∧
             answer_inv answer' ∧
             ∀ k, filled answer k ∨ k ∈ indexes → filled answer' k.
Proof.
  intros Hok Hlabels. revert i answer Hok.
  induction indexes as [|index rest IH]; intros i answer Hok Hinv.
  - exists answer. split; [done|]. split; [done|].
    intros k [?|Hk]; [done | by apply elem_of_nil in Hk].
  - cbn [dep_indexes_ok] in Hok. apply andb_prop in Hok as [Hfit Hok].
    destruct (data !! index) as [sent|] eqn:Hsent; [|done].
    destruct (batch_probs !! i) as [p|] eqn:Hp; [|done].
    apply andb_prop in Hfit as [H2 Hfit]. apply Nat.leb_le in H2, Hfit.
    destruct (Forall2_lookup_l _ _ _ _ _ Hlabels Hp) as (labels & Hl & Hlen & Hbound).
    destruct (label_names_ok self vocabulary
                (slice_1 (Z.of_nat (length sent) - 1) labels) Hvocabulary)
      as (names & Hnames & Hnlen).
    { unfold slice_1. rewrite slice_to_pred by lia. by apply Forall_drop, Forall_take. }
    assert (Hcount : length names = length sent - 2).
    { rewrite Hnlen. unfold slice_1. rewrite slice_to_pred by lia.
      rewrite length_drop, length_take_le by lia. lia. }
    assert (Hinv' : answer_inv (<[index := Some names]> answer)).
    { destruct Hinv as [Hal Hentries]. split; [by rewrite length_insert|].
      intros k names' Hk. destruct (decide (index = k)) as [->|Hne].
      - rewrite list_lookup_insert_eq in Hk.
        + injection Hk as <-. by exists sent.
        + rewrite Hal. by eapply lookup_lt_Some.
      - rewrite list_lookup_insert_ne in Hk by done. by apply Hentries. }
    destruct (IH (S i) _ Hok Hinv') as (answer' & Hloop & Hinv'' & Hfilled).
    exists answer'. split; [|split; [done|]].
    + cbn [dep_indexes_loop]. rewrite bind_run. unfold lift at 1, item at 1.
      rewrite Hsent. rewrite bind_run. unfold lift at 1, item at 1. rewrite Hl.
      rewrite bind_run, Hnames. done.
    + intros k Hk. apply Hfilled.
      destruct (decide (index = k)) as [->|Hne].
      * left. exists names. apply list_lookup_insert_eq.
        destruct Hinv as [-> _]. by eapply lookup_lt_Some.
      * destruct Hk as [[a Ha]|Hk].
        -- left. exists a. by rewrite list_lookup_insert_ne.
        -- right. by apply elem_of_cons in Hk as [?|?].
Qed.

Lemma dep_batches_loop_ok model batches answer :
  dep_model self = Some model →
  dep_batches_ok model vocabulary data batches = true → answer_inv answer →
  ∃ answer', dep_batches_loop data batches answer self = (Ok answer', self) ∧
             answer_inv answer' ∧
             ∀ k, filled answer k ∨ (∃ b, b ∈ batches ∧ k ∈ b.2) → filled answer' k.
Proof.
  intros Hmodel. revert answer.
  induction batches as [|[batch indexes] rest IH]; intros answer Hok Hinv.
  - exists answer. split; [done|]. split; [done|].
    intros k [?|(b & Hb & _)]; [done | by apply elem_of_nil in Hb].
  - simpl in Hok. apply andb_prop in Hok as [Hb Hok].
    apply andb_prop in Hb as [Hrows Hidx].
    destruct (batch_argmax_ok _ _ Hrows) as (batch_labels & Harg & Hlabels).
    destruct (dep_indexes_loop_ok _ batch_labels 0 indexes answer Hidx Hlabels Hinv)
      as (answer1 & Hloop & Hinv1 & Hfilled1).
    destruct (IH answer1 Hok Hinv1) as (answer' & Hrest & Hinv' & Hfilled').
    exists answer'. split; [|split; [done|]].
    + cbn [dep_batches_loop]. rewrite bind_run. unfold attr. rewrite Hmodel.
      rewrite bind_run. unfold lift. rewrite Harg. rewrite bind_run, Hloop. done.
    + intros k Hk. apply Hfilled'.
      destruct Hk as [Hk|(b & [->|Hin]%elem_of_cons & Hkb)].
      * left. apply Hfilled1. by left.
      * left. apply Hfilled1. by right.
      * right. by exists b.
Qed.

Lemma predict_deps_ok model heads :
  dep_model self = Some model →
  (∀ dep_indexes head_indexes,
     let batches := dep_batches (embedder self) data dep_indexes head_indexes in
     dep_batches_ok model vocabulary data batches = true ∧
     covered (length data) batches = true) →
  ∃ answer,
    predict_deps data heads self = (Ok answer, self) ∧
    ∀ k sent, data !! k = Some sent →
      ∃ names, answer !! k = Some (Some names) ∧ length names = length sent - 2.
Proof.
  intros Hmodel Hbatches. unfold predict_deps.
  destruct (make_indexes_for_syntax heads) as [di hi].
  destruct (Hbatches di hi) as [Hok Hcov].
  destruct (dep_batches_loop_ok model _ (replicate (length data) None) Hmodel Hok)
    as (answer & Hloop & [Hlen Hentries] & Hfilled).
  { split; [by rewrite length_replicate|]. intros k m Hk.
    apply lookup_replicate in Hk as [[=] _]. }
  exists answer. split.
  - rewrite bind_run. unfold read. cbv beta iota. done.
  - intros k sent Hsent.
    destruct (Hfilled k) as [names Hnames].
    { right. apply (covered_spec data); [done|]. by eapply lookup_lt_Some. }
    destruct (Hentries k names Hnames) as (sent' & Hsent' & Hcount).
    rewrite Hsent in Hsent'. injection Hsent' as <-. by exists names.
Qed.

End predict_deps.

(** C7. [predict(sentences)] returns a pair of two lists, the predicted
    heads and the predicted labels, each with exactly as many entries as
    there are input sentences.  It may raise instead; it does return when
    the models and the label vocabulary are set and the generators and
    networks keep the checks above, and then entry [k] of the heads is a
    tree with one head for every word of sentence [k], and entry [k] of the
    labels has one label for every word of sentence [k]. *)
Theorem predict_one_entry_per_sentence (self : parser) (sentences : list (list Word)) :
  (∀ predicted_heads predicted_labels,
     (predict sentences self).1 = Ok (predicted_heads, predicted_labels) →
     length predicted_heads = length sentences ∧
     length predicted_labels = length sentences) ∧
  (∀ head_net dep_net vocabulary,
     head_model self = Some head_net → dep_model self = Some dep_net →
     dep_vocab self = Some vocabulary →
     let data := pad_data sentences in
     head_batches_ok head_net data (head_batches (embedder self) data) = true →
     covered (length data) (head_batches (embedder self) data) = true →
     (∀ dep_indexes head_indexes,
        let batches := dep_batches (embedder self) data dep_indexes head_indexes in
        dep_batches_ok dep_net vocabulary data batches = true ∧
        covered (length data) batches = true) →
     ∃ predicted_heads predicted_labels,
       (predict sentences self).1 = Ok (predicted_heads, predicted_labels) ∧
       ∀ k sent, sentences !! k = Some sent →
         ∃ h names,
           predicted_heads !! k = Some h ∧
           predicted_labels !! k = Some (Some names) ∧
           length h = length sent ∧ length names = length sent ∧
           dependency_tree h).
Proof.
  split.
  - intros predicted_heads predicted_labels.
    destruct (predict sentences self) as [r self'] eqn:E. simpl. intros ->.
    unfold predict in E.
    apply bind_Ok_M in E as ([probs chl] & s1 & Hh & Hrest).
    apply bind_Ok_M in Hrest as (deps & s2 & Hd & [= <- <- _]).
    apply predict_heads_length in Hh as [_ Hh]. apply predict_deps_length in Hd.
    unfold pad_data in *. rewrite length_map in *. done.
  - intros head_net dep_net vocabulary Hhm Hdm Hdv data Hhok Hhcov Hdep.
    destruct (predict_heads_ok data self head_net Hhm Hhok Hhcov)
      as (probs & heads & Hheads & _ & Hh).
    destruct (predict_deps_ok data self vocabulary Hdv dep_net heads Hdm Hdep)
      as (answer & Hanswer & Ha).
    exists heads, answer. split.
    + unfold predict. fold data. rewrite bind_run, Hheads. rewrite bind_run, Hanswer.
      done.
    + intros k sent Hsent.
      assert (Hpadded : data !! k = Some (BEGIN_word :: sent ++ [END_word])).
      { subst data. unfold pad_data.
        change (map ?f ?l) with (f <$> l). by rewrite list_lookup_fmap, Hsent. }
      destruct (Hh k _ Hpadded) as (h & Hk & Hlen & Htree).
      destruct (Ha k _ Hpadded) as (names & Hn & Hnlen).
      exists h, names. simpl in Hlen, Hnlen. rewrite length_app in Hlen, Hnlen.
      simpl in Hlen, Hnlen.
      split; [done|]. split; [done|]. split; [lia|]. split; [lia | done].
Qed.

(** *** Failures of the decoding step *)

Lemma chu_liu_edmonds_shape (m : list (list Q)) :
  valid_shape m = false → chu_liu_edmonds m = Raise ShapeMismatch.
Proof. intros Hv. unfold chu_liu_edmonds. by rewrite Hv. Qed.

Lemma decode_all_first_failure (pre post : list (option (list (list Q)))) elem e :
  Forall (λ elem', ∃ m', elem' = Some m' ∧ valid_shape m' = true) pre →
  decode_elem elem = Raise e →
  decode_all (pre ++ elem :: post) = Raise e.
Proof.
  intros Hpre He. induction Hpre as [|elem' pre (m' & -> & Hv) _ IH].
  - cbn [app decode_all]. by rewrite He.
  - destruct (DecoderFacts.decode_elem_tree m' Hv) as (h & Hh & _).
    rewrite <- app_comm_cons. cbn [decode_all]. rewrite Hh, IH. done.
Qed.

(** C5. A matrix that is not square or is smaller than 2x2 is refused by
    the decoder with the shape-mismatch failure; when it is the first entry
    of [probs] that cannot be decoded, [predict_heads] and [predict] end with
    that same failure: nothing in them catches it or tries again. *)
Theorem shape_failure_surfaces
    (self self' : parser) (data : list (list Word))
    (probs pre post : list (option (list (list Q)))) (m : list (list Q)) :
  head_batches_loop data (head_batches (embedder self) data)
                    (replicate (length data) None) self = (Ok probs, self') →
  probs = pre ++ Some m :: post →
  Forall (λ elem, ∃ m', elem = Some m' ∧ valid_shape m' = true) pre →
  valid_shape m = false →
  chu_liu_edmonds m = Raise ShapeMismatch ∧
  (predict_heads data self).1 = Raise ShapeMismatch ∧
  (∀ sentences, data = pad_data sentences →
                (predict sentences self).1 = Raise ShapeMismatch).
Proof.
  intros Hloop -> Hpre Hv.
  pose proof (chu_liu_edmonds_shape m Hv) as Hc.
  assert (Hd : decode_all (pre ++ Some m :: post) = Raise ShapeMismatch).
  { apply decode_all_first_failure; [done|]. unfold decode_elem. by rewrite Hc. }
  assert (Hp : (predict_heads data self).1 = Raise ShapeMismatch).
  { unfold predict_heads. rewrite bind_run. unfold read. cbv beta iota.
    rewrite bind_run, Hloop. rewrite bind_run. unfold lift. by rewrite Hd. }
  split; [done|]. split; [done|].
  intros sentences ->. unfold predict. rewrite bind_run.
  destruct (predict_heads (pad_data sentences) self) as [[r|e] s1]; simpl in Hp; [done|].
  by injection Hp as ->.
Qed.

End parser_facts.

(** C2, on the code as it is.  For a one-word sentence (padded length 3)
    whose batch gave the head network's output [one_word_batch],
    [predict_heads] stores a matrix whose first row sums to 2 and whose
    second row sums to 1/2: the entry in column [h] was divided by the sum
    of row [h], not by the sum of its own row.  The positions of a word on
    itself, which the network left at 0, are still 0. *)
Theorem sentence_probs_rows_not_normalized :
  ∃ row0 row1,
    sentence_probs 3 one_word_batch = Ok [row0; row1] ∧
    row0 = [0; 4 # 2]%Q ∧ row1 = [2 # 4; 0]%Q ∧
    (Qsum row0 == 2)%Q ∧ (Qsum row1 == 1 # 2)%Q ∧
    ¬ (Qsum row0 == 1)%Q ∧ ¬ (Qsum row1 == 1)%Q.
Proof.
  exists [0; 4 # 2]%Q, [2 # 4; 0]%Q.
  split; [by vm_compute|]. repeat split; by vm_compute.
Qed.

(** The rows of that matrix before the division, and what dividing each
    row by its own sum would have given. *)
Example sentence_probs_intended :
  truncate 2 one_word_batch = [[0; 1 # 2]; [1 # 4; 0]]%Q ∧
  Forall (λ row, (Qsum (map (λ x, x / Qsum row) row) == 1)%Q)
         (truncate 2 one_word_batch).
Proof. split; [reflexivity|]. repeat constructor. Qed.

Lemma predict_one_entry_per_sentence_witness :
  (length [[0; 0]; [0]] = length [["a"; "b"]; ["c"]]%string ∧
   length [Some ["root"; "root"]; Some ["root"]]%string = length [["a"; "b"]; ["c"]]%string) ∧
  ∃ predicted_heads predicted_labels,
    (@predict toy [["a"; "b"]; ["c"]]%string toy_trained).1 =
      Ok (predicted_heads, predicted_labels) ∧
    ∀ k sent, [["a"; "b"]; ["c"]]%string !! k = Some sent →
      ∃ h names,
        predicted_heads !! k = Some h ∧
        predicted_labels !! k = Some (Some names) ∧
        length h = length sent ∧ length names = length sent ∧
        dependency_tree h.
Proof.
  split.
  - apply (proj1 (@predict_one_entry_per_sentence toy toy_trained
                    [["a"; "b"]; ["c"]]%string)).
    vm_compute. reflexivity.
  - apply (proj2 (@predict_one_entry_per_sentence toy toy_trained
                    [["a"; "b"]; ["c"]]%string) () () ["root"; "dep"]%string);
      try reflexivity.
    intros [] []. split; reflexivity.
Defined.

Lemma shape_failure_surfaces_witness :
  (@predict toy [[]] toy_trained).1 = Raise ShapeMismatch.
Proof.
  refine (proj2 (proj2 (@shape_failure_surfaces toy toy_trained toy_trained
            (@pad_data toy [[]]) [Some [[2 # 2]%Q]] [] [] [[2 # 2]%Q] _ _ _ _)) [[]] _).
  - vm_compute. reflexivity.
  - reflexivity.
  - constructor.
  - reflexivity.
  - reflexivity.
Defined.

Lemma vocabularies_from_training_witness :
  let run := @train toy toy_fit_head toy_fit_dep [["a"; "b"]]%string [[0; 1]%Z]
               [["root"; "dep"]]%string (Some ([["c"]]%string, [[0%Z]], [["root"]]%string))
               (Some [["N"; "V"]]%string) None toy_new in
  symbol_vocabulary run.2 = Some () ∧
  tag_vocabulary run.2 = Some () ∧
  dep_vocab run.2 = Some ["root"; "dep"]%string.
Proof.
  apply (proj1 (proj2 (@vocabularies_from_training toy toy_fit_head toy_fit_dep toy_new
           [["a"; "b"]]%string [[0; 1]%Z] [["root"; "dep"]]%string
           (Some ([["c"]]%string, [[0%Z]], [["root"]]%string))
           (Some [["N"; "V"]]%string) None))).
  vm_compute. reflexivity.
Defined.

End ParserFacts.

(** * Further properties of the code *)

Module ReadTagsMore.
Import ReadTags ReadTagsFacts TagFormat.
Local Open Scope string_scope.

Lemma alias_idempotent v : alias (alias v) = alias v.
Proof.
  unfold alias. destruct (String.eqb v "Ptan") eqn:E1; [reflexivity|].
  destruct (String.eqb v "Brev") eqn:E2; [reflexivity|]. by rewrite E1, E2.
Qed.

Lemma alias_fixed v : alias v = v ↔ v ≠ "Ptan" ∧ v ≠ "Brev".
Proof.
  split.
  - intros Ha. split; intros ->; discriminate.
  - intros [H1 H2]. by apply alias_other.
Qed.

(** When [is_subsumed] returns [True]: both tags were parsed, to the same
    POS, and the loop did not return early. *)
Lemma is_subsumed_true t1 t2 :
  is_subsumed t1 t2 = Ok true ↔
  ∃ pos (d1 d2 : gmap string string),
    descr_to_feats_dict t1 = Ok (pos, d1) ∧ descr_to_feats_dict t2 = Ok (pos, d2) ∧
    ∀ k v, d1 !! k = Some v → k ≠ "Abbr" → d2 !! k = Some (alias v).
Proof.
  split.
  - intros Hs.
    destruct (descr_to_feats_dict t1) as [[p1 d1]|e1] eqn:H1;
      [|unfold is_subsumed in Hs; rewrite H1 in Hs; discriminate].
    destruct (descr_to_feats_dict t2) as [[p2 d2]|e2] eqn:H2;
      [|unfold is_subsumed in Hs; rewrite H1 in Hs; simpl in Hs; rewrite H2 in Hs;
        discriminate].
    rewrite (is_subsumed_parsed _ _ _ _ _ _ H1 H2) in Hs.
    destruct (String.eqb p1 p2) eqn:Ep; simpl in Hs; [|discriminate].
    apply String.eqb_eq in Ep as ->. injection Hs as Hl.
    exists p2, d1, d2. repeat split. intros k v Hk.
    rewrite items_loop_true in Hl. apply Hl. by apply elem_of_map_to_list.
  - intros (pos & d1 & d2 & H1 & H2 & Hall).
    rewrite (is_subsumed_parsed _ _ _ _ _ _ H1 H2), String.eqb_refl. simpl. f_equal.
    apply items_loop_true. intros k v Hin. apply Hall. by apply elem_of_map_to_list.
Qed.

(** X1 — [is_subsumed] is transitive. *)
Theorem is_subsumed_transitive (a b c : string) :
  is_subsumed a b = Ok true → is_subsumed b c = Ok true → is_subsumed a c = Ok true.
Proof.
  intros (pos & da & db & Ha & Hb & Hab)%is_subsumed_true
         (pos' & db' & dc & Hb' & Hc & Hbc)%is_subsumed_true.
  rewrite Hb in Hb'. injection Hb' as <- <-.
  apply is_subsumed_true. exists pos, da, dc. repeat split; [done..|].
  intros k v Hk Hne. rewrite <- alias_idempotent. apply Hbc; [|done]. by apply Hab.
Qed.

Lemma is_subsumed_transitive_witness :
  is_subsumed "NOUN,Number=Ptan" "NOUN,Case=Nom|Number=Plur|Gender=Masc" = Ok true.
Proof.
  apply (is_subsumed_transitive _ "NOUN,Number=Plur|Case=Nom" _); by vm_compute.
Defined.

(** X2 — [is_subsumed(t, t)] is [True] exactly for the tags that
    [descr_to_feats] accepts and that have neither ["Ptan"] nor ["Brev"]
    as the value of a feature other than ["Abbr"]. *)
Theorem is_subsumed_reflexive_iff (t : string) :
  is_subsumed t t = Ok true ↔
  ∃ pos (descr : gmap string string),
    descr_to_feats_dict t = Ok (pos, descr) ∧
    ∀ key value, descr !! key = Some value → key ≠ "Abbr" →
                 value ≠ "Ptan" ∧ value ≠ "Brev".
Proof.
  rewrite is_subsumed_true. split.
  - intros (pos & d1 & d2 & H1 & H2 & Hall). rewrite H1 in H2. injection H2 as <-.
    exists pos, d1. split; [done|]. intros k v Hk Hne. apply alias_fixed.
    specialize (Hall k v Hk Hne). rewrite Hk in Hall. by injection Hall.
  - intros (pos & d & Hd & Hall). exists pos, d, d. repeat split; [done..|].
    intros k v Hk Hne. rewrite Hk. f_equal. symmetry. apply alias_fixed.
    by apply (Hall k).
Qed.

(** X3 — A tag without a comma, a bare POS, is subsumed by exactly the tags with
    that POS, whatever their features. *)
Theorem is_subsumed_bare_pos (first_tag second_tag pos : string)
    (descr : gmap string string) :
  occurs "," first_tag = false →
  descr_to_feats_dict second_tag = Ok (pos, descr) →
  is_subsumed first_tag second_tag = Ok (String.eqb first_tag pos).
Proof.
  intros Hc H2.
  assert (H1 : descr_to_feats_dict first_tag = Ok (first_tag, ∅)).
  { unfold descr_to_feats_dict, descr_to_feats.
    replace (split_once "," first_tag) with (@None (string * string)); [done|].
    symmetry. clear H2. induction first_tag as [|ch r IH]; [done|]. simpl in *.
    apply orb_false_iff in Hc as [-> Hr]. by rewrite IH. }
  rewrite (is_subsumed_parsed _ _ _ _ _ _ H1 H2).
  rewrite map_to_list_empty. by destruct (String.eqb first_tag pos).
Qed.

Lemma is_subsumed_bare_pos_witness :
  is_subsumed "VERB" "VERB,Mood=Ind|Tense=Past" = Ok true.
Proof.
  apply (is_subsumed_bare_pos "VERB" "VERB,Mood=Ind|Tense=Past" "VERB"
           (dict [("Mood", "Ind"); ("Tense", "Past")])); by vm_compute.
Defined.

(** *** Splitting *)

Lemma occurs_app c a b : occurs c (a +:+ b) = occurs c a || occurs c b.
Proof. induction a as [|ch a IH]; simpl; [done|]. by rewrite IH, orb_assoc. Qed.

Lemma split_once_None sep s : split_once sep s = None ↔ occurs sep s = false.
Proof.
  induction s as [|ch r IH]; simpl; [done|].
  destruct (Ascii.eqb ch sep); simpl; [done|].
  rewrite <- IH. by destruct (split_once sep r) as [[a b]|].
Qed.

Lemma split_once_app sep a b :
  occurs sep a = false → split_once sep (a +:+ String sep b) = Some (a, b).
Proof.
  induction a as [|ch a IH]; simpl.
  - by rewrite Ascii.eqb_refl.
  - intros [-> Ha]%orb_false_iff. by rewrite IH.
Qed.

Lemma split_all_whole sep s : occurs sep s = false → split_all sep s = [s].
Proof.
  induction s as [|ch r IH]; simpl; [done|].
  intros [-> Hr]%orb_false_iff. by rewrite IH.
Qed.

Lemma split_all_app sep a b :
  occurs sep a = false → split_all sep (a +:+ String sep b) = a :: split_all sep b.
Proof.
  induction a as [|ch a IH]; simpl.
  - by rewrite Ascii.eqb_refl.
  - intros [-> Ha]%orb_false_iff. by rewrite IH.
Qed.

Lemma split_all_join sep pieces :
  pieces ≠ [] → Forall (λ x, occurs sep x = false) pieces →
  split_all sep (join sep pieces) = pieces.
Proof.
  intros Hne Hall. induction Hall as [|x rest Hx Hrest IH]; [done|].
  destruct rest as [|y rest].
  - simpl. by apply split_all_whole.
  - change (join sep (x :: y :: rest)) with (x +:+ String sep (join sep (y :: rest))).
    rewrite split_all_app by done. by rewrite IH.
Qed.

Lemma elem_fields_feature kv :
  plain_field kv → elem_fields (feature_text kv) = Ok [kv].
Proof.
  destruct kv as [k v]. intros (Hk & _ & Hv & _). unfold elem_fields, feature_text.
  cbn [fst snd] in *. change ("=" +:+ v) with (String "=" v).
  rewrite split_once_app by done. by rewrite split_all_whole.
Qed.

Lemma fields_loop_features fields acc :
  Forall plain_field fields →
  fields_loop (map feature_text fields) acc = Ok (acc ++ fields)%list.
Proof.
  intros Hall. revert acc. induction Hall as [|kv rest Hkv _ IH]; intros acc; simpl.
  - by rewrite app_nil_r.
  - rewrite elem_fields_feature by done. simpl. rewrite IH.
    by rewrite <- app_assoc.
Qed.

(** X4 — [descr_to_feats] reads a tag written as [pos,key=value|...] back into
    its POS and its features, in their order. *)
Theorem descr_to_feats_format (pos : string) (fields : list (string * string)) :
  occurs "," pos = false → fields ≠ [] → Forall plain_field fields →
  descr_to_feats (format_tag pos fields) = Ok (pos, fields).
Proof.
  intros Hpos Hne Hall. unfold descr_to_feats, format_tag.
  change ("," +:+ ?x) with (String "," x).
  rewrite split_once_app by done.
  rewrite split_all_join.
  - by rewrite fields_loop_features.
  - by destruct fields.
  - apply Forall_map. eapply Forall_impl; [exact Hall|].
    intros [k v] (_ & Hk & _ & Hv). unfold feature_text. cbn [fst snd] in *.
    change ("=" +:+ v) with (String "=" v). rewrite occurs_app. cbn [occurs].
    rewrite Hk, Hv. reflexivity.
Qed.

Lemma descr_to_feats_format_witness :
  descr_to_feats "NOUN,Case=Nom|Number=Sing" =
    Ok ("NOUN", [("Case", "Nom"); ("Number", "Sing")]).
Proof.
  apply (descr_to_feats_format "NOUN" [("Case", "Nom"); ("Number", "Sing")]).
  - reflexivity.
  - discriminate.
  - repeat constructor.
Defined.

(** *** When [descr_to_feats] raises *)

Lemma fields_loop_raise elems acc e :
  fields_loop elems acc = Raise e ↔
  e = ValueError ∧ ∃ elem, elem ∈ elems ∧ occurs "=" elem = false.
Proof.
  revert acc. induction elems as [|elem rest IH]; intros acc; simpl.
  - split; [done|]. intros (_ & x & Hx & _). by apply elem_of_nil in Hx.
  - unfold elem_fields. destruct (split_once "=" elem) as [[k vs]|] eqn:Hs; simpl.
    + rewrite IH. split.
      * intros (-> & x & Hx & Hocc). split; [done|]. exists x. split; [by right | done].
      * intros (-> & x & [->|Hx]%elem_of_cons & Hocc).
        -- apply split_once_None in Hocc. congruence.
        -- split; [done|]. by exists x.
    + apply split_once_None in Hs. split.
      * intros [= <-]. split; [done|]. exists elem. split; [by left | done].
      * by intros (-> & _).
Qed.

(** X5 — [descr_to_feats] raises [ValueError], and nothing else, exactly when
    the tag has a comma and one of the pieces that ["|"] separates after
    the first comma has no ["="]; a tag ending in a comma is such a tag. *)
Theorem descr_to_feats_raises (symbol : string) (e : exn) :
  descr_to_feats symbol = Raise e ↔
  e = ValueError ∧
  ∃ pos feats elem,
    split_once "," symbol = Some (pos, feats) ∧
    elem ∈ split_all "|" feats ∧ occurs "=" elem = false.
Proof.
  unfold descr_to_feats. destruct (split_once "," symbol) as [[pos feats]|] eqn:Hs.
  - destruct (fields_loop (split_all "|" feats) []) as [fields|e'] eqn:Hf; simpl.
    + split; [done|]. intros (-> & pos' & feats' & elem & [= <- <-] & Hin & Hocc).
      assert (Hr : fields_loop (split_all "|" feats) [] = Raise ValueError)
        by (apply fields_loop_raise; eauto).
      congruence.
    + apply fields_loop_raise in Hf as (-> & elem & Hin & Hocc). split.
      * intros [= <-]. split; [done|]. by exists pos, feats, elem.
      * by intros (-> & _).
  - split; [done|]. by intros (_ & ? & ? & ? & [=] & _).
Qed.

(** *** [dict(fields)] *)

Lemma dict_snoc fields k v :
  dict (fields ++ [(k, v)])%list = <[k := v]> (dict fields).
Proof. unfold dict. by rewrite fold_left_app. Qed.

Lemma dict_lookup fields k v :
  dict fields !! k = Some v ↔
  ∃ before after, fields = (before ++ (k, v) :: after)%list ∧ ∀ v', (k, v') ∉ after.
Proof.
  induction fields as [|[k0 v0] fields IH] using rev_ind.
  - unfold dict. simpl. rewrite lookup_empty. split; [done|].
    intros (before & after & Hf & _). by destruct before.
  - rewrite dict_snoc. destruct (decide (k0 = k)) as [->|Hne].
    + rewrite lookup_insert_eq. split.
      * intros [= ->]. exists fields, []. split; [done|].
        intros v' Hin. by apply elem_of_nil in Hin.
      * intros (before & after & Hf & Hlast).
        destruct after as [|x after _] using rev_ind.
        -- apply app_inj_tail in Hf as [_ [= ->]]. done.
        -- rewrite app_comm_cons, app_assoc in Hf.
           apply app_inj_tail in Hf as [_ <-]. exfalso.
           apply (Hlast v0). apply elem_of_app. right. by left.
    + rewrite lookup_insert_ne by done. rewrite IH. split.
      * intros (before & after & -> & Hlast).
        exists before, (after ++ [(k0, v0)])%list. split; [by rewrite <- app_assoc|].
        intros v' [Hin|Hin%list_elem_of_singleton]%elem_of_app.
        -- by apply (Hlast v').
        -- by injection Hin as ->.
      * intros (before & after & Hf & Hlast).
        destruct after as [|x after _] using rev_ind.
        -- apply app_inj_tail in Hf as [_ [= -> _]]. done.
        -- rewrite app_comm_cons, app_assoc in Hf.
           apply app_inj_tail in Hf as [-> <-].
           exists before, after. split; [done|].
           intros v' Hin. apply (Hlast v'). apply elem_of_app. by left.
Qed.

(** X6 — With [return_dict=True] a key of the result holds the value of its
    last occurrence among the features of the tag: of the values of a
    feature written [key=v1,v2,...] only the last is kept. *)
Theorem descr_to_feats_dict_last (symbol pos : string) (fields : list (string * string)) :
  descr_to_feats symbol = Ok (pos, fields) →
  ∃ descr : gmap string string,
    descr_to_feats_dict symbol = Ok (pos, descr) ∧
    ∀ key value,
      descr !! key = Some value ↔
      ∃ before after, fields = (before ++ (key, value) :: after)%list ∧
                      ∀ value', (key, value') ∉ after.
Proof.
  intros Hf. exists (dict fields). split.
  - unfold descr_to_feats_dict. by rewrite Hf.
  - intros key value. apply dict_lookup.
Qed.

Lemma descr_to_feats_dict_last_witness :
  ∃ descr : gmap string string,
    descr_to_feats_dict "NOUN,Case=Nom,Acc|Number=Sing" = Ok ("NOUN", descr) ∧
    ∀ key value,
      descr !! key = Some value ↔
      ∃ before after,
        [("Case", "Nom"); ("Case", "Acc"); ("Number", "Sing")] =
          (before ++ (key, value) :: after)%list ∧
        ∀ value', (key, value') ∉ after.
Proof.
  apply (descr_to_feats_dict_last "NOUN,Case=Nom,Acc|Number=Sing" "NOUN"
           [("Case", "Nom"); ("Case", "Acc"); ("Number", "Sing")]).
  reflexivity.
Defined.

End ReadTagsMore.

Module ReadTagsInputFacts.
Import ReadTagsInput.

Section read_tags_input_facts.
Variable strip : string → string.

Lemma lines_loop_spec lines answer curr_sent answer' curr_sent' :
  lines_loop strip lines answer curr_sent = (answer', curr_sent') →
  Forall wrapped_sentence answer → Forall (λ line, line ≠ EmptyString) curr_sent →
  Forall wrapped_sentence answer' ∧ Forall (λ line, line ≠ EmptyString) curr_sent' ∧
  concat (concat answer') ++ curr_sent' =
   concat (concat answer) ++ curr_sent ++ filter (λ line, line ≠ EmptyString) (map strip lines).
Proof.
  revert answer curr_sent.
  induction lines as [|line rest IH]; intros answer curr_sent; simpl.
  - intros [= <- <-] Ha Hc. rewrite filter_nil, app_nil_r. done.
  - destruct (String.eqb (strip line) EmptyString) eqn:E.
    + apply String.eqb_eq in E. intros Hl Ha Hc.
      rewrite filter_cons_False by (by intros ?).
      apply IH in Hl as (Ha' & Hc' & Heq); [| |constructor].
      * split; [done|]. split; [done|]. rewrite Heq. simpl.
        destruct (0 <? length curr_sent) eqn:El; [|].
        -- rewrite !concat_app. simpl. by rewrite !app_nil_r, <- app_assoc.
        -- apply Nat.ltb_ge in El. destruct curr_sent; [done | simpl in El; lia].
      * destruct (0 <? length curr_sent) eqn:El; [|done].
        apply Nat.ltb_lt in El. apply Forall_app. split; [done|].
        constructor; [|constructor]. exists curr_sent. split; [done|]. split; [|done].
        intros ->. simpl in El. lia.
    + apply String.eqb_neq in E. intros Hl Ha Hc.
      rewrite filter_cons_True by done.
      apply IH in Hl as (Ha' & Hc' & Heq); [|done|].
      * split; [done|]. split; [done|]. rewrite Heq. by rewrite <- !app_assoc.
      * apply Forall_app. split; [done|]. by constructor.
Qed.

(** X7 — Every element of the answer of [read_tags_input] is a list holding
    exactly one sentence, a non-empty list of non-empty stripped lines; the
    sentences, one after the other, are the stripped lines of the file
    without the empty ones, in their order. *)
Theorem read_tags_input_sentences (lines : list string) :
  Forall wrapped_sentence (read_tags_input strip lines) ∧
  concat (concat (read_tags_input strip lines)) =
    filter (λ line, line ≠ EmptyString) (map strip lines).
Proof.
  unfold read_tags_input.
  destruct (lines_loop strip lines [] []) as [answer curr_sent] eqn:Hl.
  apply lines_loop_spec in Hl as (Ha & Hc & Heq); [|constructor..].
  simpl in Heq. destruct (0 <? length curr_sent) eqn:El.
  - apply Nat.ltb_lt in El. split.
    + apply Forall_app. split; [done|]. constructor; [|constructor].
      exists curr_sent. split; [done|]. split; [|done]. intros ->. simpl in El. lia.
    + rewrite !concat_app. simpl. by rewrite !app_nil_r.
  - apply Nat.ltb_ge in El. split; [done|].
    destruct curr_sent; [|simpl in El; lia]. by rewrite app_nil_r in Heq.
Qed.

Lemma lines_loop_no_blank lines answer curr_sent :
  Forall (λ line, strip line ≠ EmptyString) lines →
  lines_loop strip lines answer curr_sent = (answer, curr_sent ++ map strip lines).
Proof.
  intros Hall. revert curr_sent. induction Hall as [|line rest Hline _ IH];
    intros curr_sent; simpl.
  - by rewrite app_nil_r.
  - apply String.eqb_neq in Hline. rewrite Hline, IH. by rewrite <- app_assoc.
Qed.

(** X8 — A file with no line that is empty after [strip] is read as a single
    sentence, and a file without lines as no sentence at all. *)
Theorem read_tags_input_no_blank (lines : list string) :
  Forall (λ line, strip line ≠ EmptyString) lines →
  read_tags_input strip lines =
    match lines with
    | [] => []
    | _ => [[map strip lines]]
    end.
Proof.
  intros Hall. unfold read_tags_input. rewrite lines_loop_no_blank by done.
  simpl. by destruct lines.
Qed.

End read_tags_input_facts.

Lemma read_tags_input_no_blank_witness :
  read_tags_input (λ line, line) ["NOUN,Case=Nom"; "VERB"]%string =
    [[["NOUN,Case=Nom"; "VERB"]]]%string.
Proof.
  apply (read_tags_input_no_blank (λ line, line) ["NOUN,Case=Nom"; "VERB"]%string).
  repeat constructor; discriminate.
Defined.

End ReadTagsInputFacts.

Module EvaluateMore.
Import Evaluate EvaluateFacts EvaluateCounts.

Lemma words_app l1 l2 : words (l1 ++ l2) = words l1 + words l2.
Proof. unfold words. by rewrite map_app, list_sum_app. Qed.

Lemma correct_words_app l1 l2 :
  correct_words (l1 ++ l2) = correct_words l1 + correct_words l2.
Proof. unfold correct_words. by rewrite map_app, list_sum_app. Qed.

Lemma exact_sentences_app l1 l2 :
  exact_sentences (l1 ++ l2) = exact_sentences l1 + exact_sentences l2.
Proof. unfold exact_sentences. by rewrite filter_app, length_app. Qed.

Lemma correct_words_le pairs : correct_words pairs ≤ words pairs.
Proof.
  unfold correct_words, words. induction pairs as [|[c p] rest IH]; [done|].
  simpl. pose proof (matches_le (gold_sent c p) p). lia.
Qed.

Lemma exact_sentences_le pairs : exact_sentences pairs ≤ length pairs.
Proof. apply length_filter. Qed.

Lemma all_correct pairs :
  Forall (λ cp, aligned cp.1 cp.2) pairs →
  correct_words pairs = words pairs ↔ exact_sentences pairs = length pairs.
Proof.
  induction 1 as [|[c p] rest Ha Hall IH]; [done|]. simpl in Ha.
  pose proof (correct_words_le rest) as Hle.
  pose proof (exact_sentences_le rest) as Hle'.
  pose proof (matches_le (gold_sent c p) p) as Hm.
  pose proof (gold_sent_length c p Ha) as Hlen.
  pose proof (matches_all (gold_sent c p) p Hlen) as Hiff.
  rewrite length_zip_with, Hlen, Nat.min_id in Hiff.
  change (correct_words ((c, p) :: rest))
    with (matches (gold_sent c p) p + correct_words rest).
  change (words ((c, p) :: rest)) with (length p + words rest).
  unfold exact_sentences in *.
  destruct (decide (gold_sent c p = p)) as [Heq|Hneq].
  - rewrite filter_cons_True by done. simpl.
    apply Hiff in Heq. lia.
  - rewrite filter_cons_False by done. simpl.
    assert (matches (gold_sent c p) p ≠ length p) by (by rewrite Hiff). lia.
Qed.

Lemma words_nil pairs : words pairs = 0 ↔ Forall (λ cp, cp.2 = []) pairs.
Proof.
  unfold words. induction pairs as [|[c p] rest IH]; simpl.
  - split; [constructor | done].
  - rewrite Forall_cons. simpl. rewrite <- IH. destruct p; simpl; [tauto|].
    split; [lia | by intros [? _]].
Qed.

Lemma evaluate_heads_inv corr_heads pred_heads r :
  evaluate_heads corr_heads pred_heads = Ok r →
  let pairs := zip corr_heads pred_heads in
  Forall (λ cp, aligned cp.1 cp.2) pairs ∧ words pairs ≠ 0 ∧ corr_heads ≠ [] ∧
  r = (correct_words pairs, words pairs,
       (Z.of_nat (correct_words pairs) # Pos.of_nat (words pairs))%Q,
       exact_sentences pairs, length corr_heads,
       (Z.of_nat (exact_sentences pairs) # Pos.of_nat (length corr_heads))%Q).
Proof.
  rewrite evaluate_heads_counts. cbv zeta.
  destruct (decide _) as [Hall|]; [|done].
  destruct (Nat.eqb_spec (words (zip corr_heads pred_heads)) 0) as [|Hw]; [done|].
  intros [= <-]. repeat split; try done. by intros ->.
Qed.

(** X9 — what [evaluate_heads] returns.  When it returns, the six numbers
    are: the positions at which the gold head (the gold sentence without its
    two markers, when it has two elements more) equals the predicted one;
    the number of predicted words; their quotient; the number of sentences
    whose gold heads are exactly the predicted ones; [len(corr_heads)]; and
    the quotient of the last two.  Sentences are compared pairwise, up to
    the shorter of the two lists. *)
Theorem evaluate_heads_result corr_heads pred_heads corr total accuracy
    corr_sents n sent_accuracy :
  evaluate_heads corr_heads pred_heads =
    Ok (corr, total, accuracy, corr_sents, n, sent_accuracy) →
  let pairs := zip corr_heads pred_heads in
  corr = correct_words pairs ∧ total = words pairs ∧
  corr_sents = exact_sentences pairs ∧ n = length corr_heads ∧
  accuracy = (Z.of_nat corr # Pos.of_nat total)%Q ∧
  sent_accuracy = (Z.of_nat corr_sents # Pos.of_nat n)%Q.
Proof.
  intros H. apply evaluate_heads_inv in H as (_ & _ & _ & [= -> -> -> -> -> ->]).
  by cbv zeta.
Qed.

Lemma evaluate_heads_result_witness :
  let pairs := zip [[9; 2; 0; 9]; [0; 1]]%Z [[2; 1]; [0; 1]]%Z in
  3 = correct_words pairs ∧ 4 = words pairs ∧
  1 = exact_sentences pairs ∧ 2 = length [[9; 2; 0; 9]; [0; 1]]%Z ∧
  (3 # 4)%Q = (Z.of_nat 3 # Pos.of_nat 4)%Q ∧
  (1 # 2)%Q = (Z.of_nat 1 # Pos.of_nat 2)%Q.
Proof.
  apply (evaluate_heads_result [[9; 2; 0; 9]; [0; 1]]%Z [[2; 1]; [0; 1]]%Z
           3 4 (3 # 4)%Q 1 2 (1 # 2)%Q).
  reflexivity.
Defined.

(** X10 — the errors of [evaluate_heads].  It raises [ValueError] exactly
    when some compared pair of sentences fails the length test, and
    [ZeroDivisionError] exactly when every compared pair passes it and no
    predicted word was compared (in particular when either list is empty);
    it raises nothing else. *)
Theorem evaluate_heads_raises corr_heads pred_heads e :
  evaluate_heads corr_heads pred_heads = Raise e ↔
  let pairs := zip corr_heads pred_heads in
  (e = ValueError ∧ Exists (λ cp, ¬ aligned cp.1 cp.2) pairs) ∨
  (e = ZeroDivisionError ∧ Forall (λ cp, aligned cp.1 cp.2) pairs ∧
   Forall (λ cp, cp.2 = []) pairs).
Proof.
  rewrite evaluate_heads_counts. cbv zeta.
  destruct (decide _) as [Hall|Hex].
  - destruct (Nat.eqb_spec (words (zip corr_heads pred_heads)) 0) as [Hw|Hw].
    + split.
      * intros [= <-]. right. by rewrite <- words_nil.
      * intros [[_ Hex%Exists_not_Forall]|[-> _]]; done.
    + split; [done|]. intros [[_ Hex%Exists_not_Forall]|(_ & _ & H0%words_nil)]; done.
  - split.
    + intros [= <-]. left. split; [done|]. by apply not_Forall_Exists; [apply _|].
    + intros [[-> _]|(_ & ? & _)]; done.
Qed.

(** X11 — the accuracies are fractions between 0 and 1: the number of
    correct words is at most the number of words, and the number of exact
    sentences at most the number of gold sentences. *)
Theorem evaluate_heads_bounds corr_heads pred_heads corr total accuracy
    corr_sents n sent_accuracy :
  evaluate_heads corr_heads pred_heads =
    Ok (corr, total, accuracy, corr_sents, n, sent_accuracy) →
  corr ≤ total ∧ corr_sents ≤ n ∧
  (0 <= accuracy)%Q ∧ (accuracy <= 1)%Q ∧
  (0 <= sent_accuracy)%Q ∧ (sent_accuracy <= 1)%Q.
Proof.
  intros H. apply evaluate_heads_inv in H as (_ & Hw & Hn & [= -> -> -> -> -> ->]).
  pose proof (correct_words_le (zip corr_heads pred_heads)) as Hle.
  pose proof (exact_sentences_le (zip corr_heads pred_heads)) as Hle'.
  rewrite length_zip_with in Hle'.
  assert (length corr_heads ≠ 0) by (by destruct corr_heads).
  assert (exact_sentences (zip corr_heads pred_heads) ≤ length corr_heads) by lia.
  pose proof (Qmake_of_nat_bounds _ _ Hw Hle) as [? ?].
  pose proof (Qmake_of_nat_bounds (exact_sentences (zip corr_heads pred_heads))
                (length corr_heads)) as [? ?]; done.
Qed.

Lemma evaluate_heads_bounds_witness :
  3 ≤ 4 ∧ 1 ≤ 2 ∧ (0 <= 3 # 4)%Q ∧ (3 # 4 <= 1)%Q ∧ (0 <= 1 # 2)%Q ∧ (1 # 2 <= 1)%Q.
Proof.
  apply (evaluate_heads_bounds [[9; 2; 0; 9]; [0; 1]]%Z [[2; 1]; [0; 1]]%Z
           3 4 (3 # 4)%Q 1 2 (1 # 2)%Q).
  reflexivity.
Defined.

(** X12 — for as many gold as predicted sentences, the word accuracy is 1
    exactly when the sentence accuracy is 1. *)
Theorem evaluate_heads_all_correct corr_heads pred_heads corr total accuracy
    corr_sents n sent_accuracy :
  length corr_heads = length pred_heads →
  evaluate_heads corr_heads pred_heads =
    Ok (corr, total, accuracy, corr_sents, n, sent_accuracy) →
  (accuracy == 1)%Q ↔ (sent_accuracy == 1)%Q.
Proof.
  intros Hlen H.
  apply evaluate_heads_inv in H as (Hall & Hw & Hn & [= -> -> -> -> -> ->]).
  assert (length corr_heads ≠ 0) by (by destruct corr_heads).
  rewrite !Qmake_of_nat by done. rewrite (all_correct _ Hall).
  rewrite length_zip_with. by rewrite <- Hlen, Nat.min_id.
Qed.

Lemma evaluate_heads_all_correct_witness :
  ((2 # 2)%Q == 1)%Q ↔ ((1 # 1)%Q == 1)%Q.
Proof.
  apply (evaluate_heads_all_correct [[9; 2; 0; 9]]%Z [[2; 0]]%Z 2 2 (2 # 2)%Q 1 1 (1 # 1)%Q);
    reflexivity.
Defined.

(** X13 — a prediction compared with itself is fully correct, as soon as it
    has a word. *)
Theorem evaluate_heads_self heads :
  list_sum (map length heads) ≠ 0 →
  evaluate_heads heads heads =
    Ok (list_sum (map length heads), list_sum (map length heads),
        (Z.of_nat (list_sum (map length heads))
           # Pos.of_nat (list_sum (map length heads)))%Q,
        length heads, length heads,
        (Z.of_nat (length heads) # Pos.of_nat (length heads))%Q).
Proof.
  intros Hw. rewrite evaluate_heads_counts. cbv zeta.
  assert (Hall : Forall (λ cp : list Z * list Z, aligned cp.1 cp.2) (zip heads heads)).
  { clear. induction heads; constructor; [by left | done]. }
  assert (Hwords : words (zip heads heads) = list_sum (map length heads)).
  { clear. unfold words. induction heads; simpl; [done | by f_equal]. }
  assert (Hexact : exact_sentences (zip heads heads) = length heads).
  { clear. unfold exact_sentences. induction heads as [|c rest IH]; [done|].
    simpl. rewrite filter_cons_True; [simpl; by f_equal|].
    unfold gold_sent. simpl. by rewrite (proj2 (Nat.eqb_neq _ _)) by lia. }
  assert (Hcorr : correct_words (zip heads heads) = words (zip heads heads)).
  { apply all_correct; [done|]. by rewrite Hexact, length_zip_with, Nat.min_id. }
  rewrite decide_True by done. rewrite Hcorr, Hexact, Hwords.
  by rewrite (proj2 (Nat.eqb_neq _ _)) by done.
Qed.

Lemma evaluate_heads_self_witness :
  evaluate_heads [[2; 0]; [0]]%Z [[2; 0]; [0]]%Z =
  Ok (3, 3, (Z.of_nat 3 # Pos.of_nat 3)%Q, 2, 2, (Z.of_nat 2 # Pos.of_nat 2)%Q).
Proof. apply (evaluate_heads_self [[2; 0]; [0]]%Z). simpl. lia. Defined.

Lemma sentences_loop_padded padded corr_heads pred_heads corr total corr_sents :
  Forall2 (λ c' c : list Z, ∃ x y, c' = x :: c ++ [y]) padded corr_heads →
  Forall2 (λ c p : list Z, length c = length p) corr_heads pred_heads →
  sentences_loop (zip padded pred_heads) corr total corr_sents =
  sentences_loop (zip corr_heads pred_heads) corr total corr_sents.
Proof.
  intros Hpad. revert pred_heads corr total corr_sents.
  induction Hpad as [|c' c padded corr_heads (x & y & ->) _ IH];
    intros pred_heads corr total corr_sents Hlen; [done|].
  inversion Hlen as [|? p ? rest Hcp Hrest]; subst.
  cbn [zip zip_with sentences_loop].
  assert (Hl : length (x :: c ++ [y]) = length p + 2)
    by (simpl; rewrite length_app; simpl; lia).
  rewrite (proj2 (Nat.eqb_eq _ _) Hl).
  rewrite (proj2 (Nat.eqb_neq (length c) (length p + 2))) by lia.
  replace (strip (x :: c ++ [y])) with c
    by (unfold strip; simpl; by rewrite removelast_last).
  rewrite (proj2 (Nat.eqb_eq _ _) Hcp). cbn [negb].
  destruct (compare_loop (zip c p) corr false). by apply IH.
Qed.

(** X14 — the two sentence markers of the gold heads do not matter: gold
    sentences of the predicted lengths give the same result with and
    without an extra first and last element. *)
Theorem evaluate_heads_padded padded corr_heads pred_heads :
  Forall2 (λ c' c : list Z, ∃ x y, c' = x :: c ++ [y]) padded corr_heads →
  Forall2 (λ c p : list Z, length c = length p) corr_heads pred_heads →
  evaluate_heads padded pred_heads = evaluate_heads corr_heads pred_heads.
Proof.
  intros Hpad Hlen. unfold evaluate_heads.
  rewrite (sentences_loop_padded _ _ _ _ _ _ Hpad Hlen).
  by rewrite (Forall2_length _ _ _ Hpad).
Qed.

Lemma evaluate_heads_padded_witness :
  evaluate_heads [[9; 2; 0; 9]; [7; 0; 8]]%Z [[2; 1]; [0]]%Z =
  evaluate_heads [[2; 0]; [0]]%Z [[2; 1]; [0]]%Z.
Proof.
  apply evaluate_heads_padded.
  - repeat constructor; by eexists _, _.
  - by repeat constructor.
Defined.

(** X15 — evaluating two corpora in one call adds up their counts: the
    counts of the concatenation are the sums of the counts of the parts, and
    the accuracies the quotients of the sums. *)
Theorem evaluate_heads_app c1 p1 c2 p2 a1 t1 q1 s1 n1 r1 a2 t2 q2 s2 n2 r2 :
  length c1 = length p1 →
  evaluate_heads c1 p1 = Ok (a1, t1, q1, s1, n1, r1) →
  evaluate_heads c2 p2 = Ok (a2, t2, q2, s2, n2, r2) →
  evaluate_heads (c1 ++ c2) (p1 ++ p2) =
    Ok (a1 + a2, t1 + t2, (Z.of_nat (a1 + a2) # Pos.of_nat (t1 + t2))%Q,
        s1 + s2, n1 + n2, (Z.of_nat (s1 + s2) # Pos.of_nat (n1 + n2))%Q).
Proof.
  intros Hlen H1 H2.
  apply evaluate_heads_inv in H1 as (Hall1 & Hw1 & _ & [= -> -> -> -> -> ->]).
  apply evaluate_heads_inv in H2 as (Hall2 & Hw2 & _ & [= -> -> -> -> -> ->]).
  rewrite evaluate_heads_counts. cbv zeta.
  rewrite zip_with_app by done.
  rewrite decide_True by (by apply Forall_app).
  rewrite words_app, correct_words_app, exact_sentences_app, length_app.
  by rewrite (proj2 (Nat.eqb_neq _ _)) by lia.
Qed.

Lemma evaluate_heads_app_witness :
  evaluate_heads ([[9; 2; 0; 9]] ++ [[0; 1]])%Z ([[2; 1]] ++ [[0; 1]])%Z =
  Ok (1 + 2, 2 + 2, (Z.of_nat (1 + 2) # Pos.of_nat (2 + 2))%Q,
      0 + 1, 1 + 1, (Z.of_nat (0 + 1) # Pos.of_nat (1 + 1))%Q).
Proof.
  apply (evaluate_heads_app [[9; 2; 0; 9]]%Z [[2; 1]]%Z [[0; 1]]%Z [[0; 1]]%Z
           1 2 (1 # 2)%Q 0 1 (0 # 1)%Q 2 2 (2 # 2)%Q 1 1 (1 # 1)%Q);
    reflexivity.
Defined.

End EvaluateMore.

Module ParserMore.
Import Decoder Parser ParserFacts ParserCodes.

Section parser_more.
Context `{Externals}.
Context (fit_head_model :
           parser → sent_data → list (list Z) → option (list (list TagVector)) →
           option dev_data → HeadModel).
Context (fit_dep_model :
           parser → sent_data → list (list Z) → list (list string) →
           option (list (list TagVector)) → option dev_data → DepModel).

Local Existing Instance M_mbind.

(** *** Loops over a list whose body assigns no attribute *)

Lemma mapM_Ok_inv {A B} (f : A → M B) l self ys self' :
  (∀ a, frame (f a)) →
  mapM f l self = (Ok ys, self') →
  self' = self ∧ Forall2 (λ a y, f a self = (Ok y, self)) l ys.
Proof.
  intros Hf. revert ys. induction l as [|a rest IH]; intros ys.
  - cbn. intros [= <- <-]. by split.
  - cbn [mapM]. intros (y & s1 & Ha & Hrest)%bind_Ok_M.
    apply bind_Ok_M in Hrest as (ys' & s2 & Hrest & [= <- <-]).
    pose proof (Hf a self) as Hs. rewrite Ha in Hs. simpl in Hs. subst s1.
    apply IH in Hrest as [-> Hall]. split; [done|]. by constructor.
Qed.

Lemma mapM_pure {A B} (f : A → M B) (g : A → B) l self :
  (∀ a, a ∈ l → f a self = (Ok (g a), self)) →
  mapM f l self = (Ok (map g l), self).
Proof.
  induction l as [|a rest IH]; intros Hf; [done|].
  cbn [mapM]. rewrite bind_run, Hf by (apply elem_of_cons; by left).
  rewrite bind_run, IH; [done|]. intros a' Ha'. apply Hf. apply elem_of_cons. by right.
Qed.

Lemma mapM_raise_first {A B} (f : A → M B) a rest self e self' :
  f a self = (Raise e, self') → mapM f (a :: rest) self = (Raise e, self').
Proof. intros Ha. cbn [mapM]. by rewrite bind_run, Ha. Qed.

(** *** [_recode] *)

Lemma last_n_length {A} n (word : list A) :
  n ≠ 0 ∨ word = [] → length (last_n n word) = length word `min` n.
Proof.
  unfold last_n. destruct (Nat.eqb_spec n 0) as [->|Hn].
  - by intros [?| ->].
  - intros _. rewrite length_drop. lia.
Qed.

Lemma last_n_drop {A} n (word : list A) :
  n ≠ 0 ∨ word = [] → last_n n word = drop (length word - length word `min` n) word.
Proof.
  unfold last_n. destruct (Nat.eqb_spec n 0) as [->|Hn].
  - by intros [?| ->].
  - intros _. f_equal. lia.
Qed.

Lemma recode_word_run word self :
  recode_word word self =
  (if (max_word_length self =? 0) && negb (length word =? 0) then Raise IndexError
   else match symbol_vocabulary self with
        | Some v => Ok (coded_word v (max_word_length self) word)
        | None => Raise AttributeError
        end, self).
Proof.
  unfold recode_word. rewrite bind_run. unfold read. cbv beta iota.
  destruct (Nat.eqb_spec (max_word_length self) 0) as [E|E].
  - destruct word as [|c word].
    + simpl. rewrite ?E. simpl. unfold attr.
      rewrite bind_run. destruct (symbol_vocabulary self); [|done].
      unfold ret, coded_word. by rewrite ?E.
    + unfold last_n. rewrite E. done.
  - rewrite last_n_length by (by left).
    rewrite (proj2 (Nat.leb_le _ _)) by lia. simpl.
    rewrite bind_run. unfold attr. destruct (symbol_vocabulary self); [|done].
    unfold ret, coded_word. by rewrite last_n_length by (by left).
Qed.

Lemma coded_word_holds v n (word : list Symbol) :
  n ≠ 0 ∨ word = [] → holds_word v n word (coded_word v n word).
Proof.
  intros Hn. unfold holds_word, coded_word. cbv zeta.
  pose proof (last_n_length n word Hn) as Hlen.
  set (k := length word `min` n) in *.
  assert (Hcodes : length (map (toidx v) (last_n n word)) = k)
    by (by rewrite length_map).
  repeat split.
  - simpl. rewrite length_app, Hcodes. simpl. rewrite length_replicate. lia.
  - simpl. rewrite drop_0.
    rewrite take_app_length' by done. by rewrite last_n_drop.
  - simpl. rewrite Nat.add_1_r. simpl.
    rewrite lookup_app_r by lia. by rewrite Hcodes, Nat.sub_diag.
  - intros j Hj. destruct j as [|j]; [lia|]. simpl.
    rewrite lookup_app_r by lia. rewrite Hcodes.
    destruct (j - k) as [|i] eqn:Hi; [lia|]. simpl.
    apply lookup_replicate_2. lia.
Qed.

Lemma mapM_recode_word v sent self :
  symbol_vocabulary self = Some v →
  mapM recode_word sent self =
  (if (max_word_length self =? 0) && existsb (λ word, negb (length word =? 0)) sent
   then Raise IndexError
   else Ok (map (coded_word v (max_word_length self)) sent), self).
Proof.
  intros Hv. induction sent as [|word rest IH]; [by rewrite andb_false_r|].
  cbn [mapM existsb]. rewrite bind_run, recode_word_run, Hv.
  destruct (max_word_length self =? 0); simpl.
  - destruct (length word =? 0); simpl; [|done].
    rewrite bind_run, IH. simpl. by destruct (existsb _ rest).
  - rewrite bind_run, IH. done.
Qed.

Lemma existsb_nonempty {A} (l : list (list A)) :
  existsb (λ w, negb (length w =? 0)) l = true ↔ Exists (λ w, w ≠ []) l.
Proof.
  induction l as [|w rest IH]; simpl.
  - split; [done | by intros ?%Exists_nil].
  - rewrite Exists_cons, orb_true_iff, IH.
    destruct w; simpl; [split; intros [?|?]; by (try right) | split; intros _; by left].
Qed.

(** X16 — the array of [_recode].  For a sentence with at least one word, a
    positive [max_word_length] and a symbol vocabulary in place, [_recode]
    returns one row per word, every row of [max_word_length + 2] entries:
    [BEGIN], the codes of the last [max_word_length] symbols of the word (of
    all of them when there are fewer), [END], and [PAD] to the end.  It
    assigns no attribute. *)
Theorem recode_rows (v : SymbolVocabulary) (sent : list (list Symbol)) (self : parser) :
  sent ≠ [] → 0 < max_word_length self → symbol_vocabulary self = Some v →
  ∃ rows, _recode sent self = (Ok rows, self) ∧
          Forall2 (holds_word v (max_word_length self)) sent rows.
Proof.
  intros Hsent Hn Hv. exists (map (coded_word v (max_word_length self)) sent). split.
  - destruct sent as [|word rest]; [done|]. unfold _recode.
    rewrite (mapM_recode_word v) by done.
    by rewrite (proj2 (Nat.eqb_neq _ _)) by lia.
  - apply Forall2_fmap_r, Forall_Forall2_diag, Forall_forall.
    intros word _. apply coded_word_holds. left. lia.
Qed.

(** X17 — the errors of [_recode].  It raises [IndexError] for an empty
    sentence, and when [max_word_length] is 0 and a word has a symbol (the
    first word, or a later one once the vocabulary could be read).  It
    raises [AttributeError] when the symbol vocabulary was never assigned,
    unless the first word already gave [IndexError].  It raises nothing
    else, under no other condition, and leaves the attributes as they
    were. *)
Theorem recode_raises (sent : list (list Symbol)) (self : parser) (e : exn)
    (self' : parser) :
  _recode sent self = (Raise e, self') ↔
  self' = self ∧
  match sent with
  | [] => e = IndexError
  | word :: _ =>
      (e = IndexError ∧ max_word_length self = 0 ∧
       (word ≠ [] ∨ symbol_vocabulary self ≠ None ∧ Exists (λ w, w ≠ []) sent)) ∨
      (e = AttributeError ∧ symbol_vocabulary self = None ∧
       (0 < max_word_length self ∨ word = []))
  end.
Proof.
  destruct sent as [|word rest].
  - cbn. split; [by intros [= <- <-] | by intros [-> ->]].
  - unfold _recode. destruct (symbol_vocabulary self) as [v|] eqn:Hv.
    + rewrite (mapM_recode_word v) by done.
      destruct (Nat.eqb_spec (max_word_length self) 0) as [E|E]; cbn [andb].
      * destruct (existsb _ (word :: rest)) eqn:Hex.
        -- apply existsb_nonempty in Hex. split.
           ++ intros [= <- <-]. split; [done|]. left. repeat split; try done. by right.
           ++ by intros [-> [(-> & _)|(_ & [=] & _)]].
        -- split; [done|]. intros [-> [(_ & _ & Hw)|(_ & [=] & _)]].
           assert (existsb (λ w : list Symbol, negb (length w =? 0)) (word :: rest) = true)
             as Hex'.
           { apply existsb_nonempty. destruct Hw as [Hw|[_ Hw]]; [|done].
             by apply Exists_cons_hd. }
           by rewrite Hex' in Hex.
      * split; [done|]. intros [-> [(_ & ? & _)|(_ & [=] & _)]]. done.
    + destruct (recode_word word self) as [r s1] eqn:Hword.
      pose proof Hword as Hrun. rewrite recode_word_run, Hv in Hrun.
      destruct (Nat.eqb_spec (max_word_length self) 0) as [E|E]; simpl in Hrun.
      * destruct word as [|c word]; simpl in Hrun; injection Hrun as <- <-.
        -- rewrite (mapM_raise_first _ _ _ _ _ _ Hword). split.
           ++ intros [= <- <-]. split; [done|]. right. repeat split; try done. by right.
           ++ intros [-> [(_ & _ & [?|[? _]])|(-> & _)]]; done.
        -- rewrite (mapM_raise_first _ _ _ _ _ _ Hword). split.
           ++ intros [= <- <-]. split; [done|]. left. repeat split; try done. by left.
           ++ intros [-> [(-> & _)|(_ & _ & [?|?])]]; [done | lia | done].
      * injection Hrun as <- <-.
        rewrite (mapM_raise_first _ _ _ _ _ _ Hword). split.
        -- intros [= <- <-]. split; [done|]. right. repeat split; try done. left. lia.
        -- intros [-> [(_ & ? & _)|(-> & _)]]; done.
Qed.

(** *** [_transform_tags] and [_transform_data] *)

Lemma with_tag_vocabulary_attr v self x :
  (vocabulary ← attr tag_vocabulary; ret (to_vector vocabulary x))
    (with_tag_vocabulary v self) =
  (Ok (to_vector v x), with_tag_vocabulary v self).
Proof. done. Qed.

(** X18 — [_transform_tags] with [to_train=True] cannot fail, whatever the
    parser held before: it assigns the tag vocabulary trained on the
    sentences between ['BEGIN'] and ['END'], assigns nothing else, and
    returns for every sentence the vectors of ['BEGIN'], of its tags and of
    ['END'] in that vocabulary. *)
Theorem transform_tags_train (tags : list (list string)) (self : parser) :
  _transform_tags tags true self =
  (Ok (map (λ sent, map (to_vector (trained_tags tags))
                        ("BEGIN"%string :: sent ++ ["END"%string])) tags),
   with_tag_vocabulary (trained_tags tags) self).
Proof.
  unfold _transform_tags. rewrite bind_run.
  change (set_tag_vocabulary ?v self)
    with (Ok (), with_tag_vocabulary v self). cbv beta iota.
  fold (trained_tags tags).
  rewrite (mapM_pure _ (map (to_vector (trained_tags tags)))).
  - by rewrite map_map.
  - intros sent _. apply mapM_pure. intros x _. apply with_tag_vocabulary_attr.
Qed.

(** X19 — [_transform_tags] with [to_train] left [False] assigns nothing.
    With a tag vocabulary in place it returns the vectors in that
    vocabulary; without one it raises [AttributeError], unless there is no
    sentence at all. *)
Theorem transform_tags_untrained (tags : list (list string)) (self : parser) :
  _transform_tags tags false self =
  (match tag_vocabulary self with
   | Some v =>
       Ok (map (λ sent, map (to_vector v) ("BEGIN"%string :: sent ++ ["END"%string])) tags)
   | None =>
       match tags with
       | [] => Ok []
       | _ => Raise AttributeError
       end
   end, self).
Proof.
  unfold _transform_tags. rewrite bind_run. unfold ret at 1. cbv beta iota.
  destruct (tag_vocabulary self) as [v|] eqn:Hv.
  - rewrite (mapM_pure _ (map (to_vector v))).
    + by rewrite map_map.
    + intros sent _. apply mapM_pure. intros x _.
      rewrite bind_run. unfold attr. by rewrite Hv.
  - destruct tags as [|sent rest]; [done|].
    cbn [map]. apply mapM_raise_first. apply mapM_raise_first.
    rewrite bind_run. unfold attr. by rewrite Hv.
Qed.

Lemma mapM_recode v sents self :
  symbol_vocabulary self = Some v → 0 < max_word_length self →
  mapM _recode sents self =
  (if forallb (λ sent, negb (length sent =? 0)) sents
   then Ok (map (map (coded_word v (max_word_length self))) sents)
   else Raise IndexError, self).
Proof.
  intros Hv Hn. induction sents as [|sent rest IH]; [done|].
  cbn [mapM forallb]. rewrite bind_run. destruct sent as [|word sent].
  - done.
  - unfold _recode at 1. rewrite (mapM_recode_word v) by done.
    rewrite (proj2 (Nat.eqb_neq _ _)) by lia. simpl.
    rewrite bind_run, IH. by destruct (forallb _ rest).
Qed.

(** X20 — [_transform_data] with [to_train=True], for a positive
    [max_word_length].  It assigns the symbol vocabulary trained on the
    processed sentences and nothing else.  When every sentence has a word
    it returns one array per sentence, with a row of [max_word_length + 2]
    entries for every word; when some sentence has none it raises
    [IndexError]. *)
Theorem transform_data_train (sents : list (list Word)) (self : parser) :
  0 < max_word_length self →
  let v := symbol_vocabulary_train (map (map process_word) sents) in
  (Forall (λ sent, sent ≠ []) sents →
   ∃ codes,
     _transform_data sents true self = (Ok codes, with_symbol_vocabulary v self) ∧
     Forall2 (λ sent code,
                Forall2 (λ word row,
                           holds_word v (max_word_length self) (process_word word) row)
                        sent code) sents codes) ∧
  (Exists (λ sent, sent = []) sents →
   _transform_data sents true self = (Raise IndexError, with_symbol_vocabulary v self)).
Proof.
  intros Hn v.
  assert (Hrun : _transform_data sents true self =
                 (if forallb (λ sent, negb (length sent =? 0)) sents
                  then Ok (map (map (coded_word v (max_word_length self)))
                               (map (map process_word) sents))
                  else Raise IndexError, with_symbol_vocabulary v self)).
  { unfold _transform_data. rewrite bind_run.
    change (set_symbol_vocabulary ?v self)
      with (Ok (), with_symbol_vocabulary v self). cbv beta iota.
    rewrite (mapM_recode v) by done.
    change (max_word_length (with_symbol_vocabulary v self)) with (max_word_length self).
    replace (forallb (λ sent, negb (length sent =? 0)) (map (map process_word) sents))
      with (forallb (λ sent : list Word, negb (length sent =? 0)) sents); [done|].
    clear. induction sents as [|sent rest IH]; [done|].
    simpl. by rewrite length_map, IH. }
  split.
  - intros Hall. eexists. split.
    + rewrite Hrun. rewrite (proj2 (forallb_Forall _ _)); [done|].
      eapply Forall_impl; [exact Hall|]. intros sent Hs. by destruct sent.
    + apply Forall2_fmap_r, Forall2_fmap_r, Forall_Forall2_diag, Forall_forall.
      intros sent _. apply Forall2_fmap_r, Forall2_fmap_r, Forall_Forall2_diag, Forall_forall.
      intros word _. apply coded_word_holds. left. lia.
  - intros Hex. rewrite Hrun.
    destruct (forallb _ sents) eqn:Hall; [|done].
    apply Exists_exists in Hex as (sent & Hin & ->).
    apply forallb_Forall in Hall. rewrite Forall_forall in Hall.
    by specialize (Hall [] Hin).
Qed.

(** *** [train] *)

Lemma fails_bind_l {A B} Q (m : M A) (k : A → M B) : fails Q m → fails Q (m ≫= k).
Proof.
  intros Hm self HQ. destruct (Hm self HQ) as [[e He] HQ'].
  rewrite bind_run. destruct (m self) as [[a|e'] s1]; [done|]. split; [by exists e'|done].
Qed.

Lemma fails_bind_r {A B} Q (m : M A) (k : A → M B) :
  stable Q m → (∀ a, fails Q (k a)) → fails Q (m ≫= k).
Proof.
  intros Hm Hk self HQ. specialize (Hm self HQ).
  rewrite bind_run. destruct (m self) as [[a|e] s1]; [by apply Hk|].
  split; [by exists e | done].
Qed.

Section train_more.
Variables (self0 : parser) (sents : list (list Word)) (heads : list (list Z))
  (deps : list (list string))
  (dev : option (list (list Word) * list (list Z) * list (list string)))
  (tags dev_tags : option (list (list string))).

Local Abbreviation Q := (no_model_yet self0 tags).

Lemma stable_Q_sent_data : stable Q (train_sent_data (pad_data sents)).
Proof.
  intros self HQ. rewrite train_sent_data_state.
  pose proof HQ as ((He & Ht & Hc & Hm) & Hh & Hd & Htag & Hsym).
  destruct (use_char_model self) eqn:E; [|done].
  repeat split; simpl; try done; congruence.
Qed.

Lemma stable_Q_tag_data : stable Q (train_tag_data tags).
Proof.
  intros self HQ. rewrite train_tag_data_state.
  pose proof HQ as ((He & Ht & Hc & Hm) & Hh & Hd & Htag & Hsym).
  destruct tags; [|done]. repeat split; done.
Qed.

Lemma stable_Q_dev_data : stable Q (train_dev_data dev dev_tags).
Proof. apply frame_stable, frame_train_dev_data. Qed.

Lemma stable_Q_dep_vocab v : stable Q (set_dep_vocab v).
Proof. intros self HQ. exact HQ. Qed.

Lemma fails_head_model sd hs td dv :
  (use_tags self0 = true ∧ tags = None ∧ tag_vocabulary self0 = None) ∨
  (embedder self0 = None ∧ use_char_model self0 = false ∧
   symbol_vocabulary self0 = None) →
  fails Q (train_head_model fit_head_model sd hs td dv).
Proof.
  intros Hcase self HQ.
  pose proof HQ as ((He & Ht & Hc & Hm) & Hh & Hd & Htag & Hsym).
  assert (Hb : ∃ e, build_head_network self = (Raise e, self)).
  { unfold build_head_network. cbv [mbind M_mbind mbind_M read attr ret].
    destruct Hcase as [(Hu & Hn & Hv)|(Hu & Hn & Hv)].
    - destruct (embedder self).
      + rewrite Ht, Hu, (Htag Hn), Hv. by eexists.
      + destruct (symbol_vocabulary self); [|by eexists].
        rewrite Ht, Hu, (Htag Hn), Hv. by eexists.
    - rewrite He, Hu, (Hsym Hn), Hv. by eexists. }
  destruct Hb as [e Hb]. unfold train_head_model. rewrite bind_run, Hb.
  split; [by exists e | done].
Qed.

Lemma fails_dev_data d :
  use_tags self0 = true → fails Q (train_dev_data (Some d) None).
Proof.
  intros Hu self HQ.
  pose proof HQ as ((He & Ht & Hc & Hm) & Hh & Hd & Htag & Hsym).
  pose proof (frame_train_dev_data (Some d) None self) as Hf.
  split; [|by rewrite Hf].
  unfold train_dev_data. destruct d as [[ds dh] dd].
  rewrite bind_run. unfold read. cbv beta iota.
  rewrite bind_run.
  assert (Hchars : frame (if use_char_model self
                          then codes ← _transform_data (pad_data ds) false;
                               ret (Codes codes)
                          else ret (Sentences (pad_data ds)))).
  { destruct (use_char_model self); [|apply frame_ret].
    apply frame_bind; [apply frame_transform_data | intros; apply frame_ret]. }
  specialize (Hchars self).
  destruct ((if use_char_model self
             then codes ← _transform_data (pad_data ds) false; ret (Codes codes)
             else ret (Sentences (pad_data ds))) self) as [[x|e] s1]; [|by exists e].
  simpl in Hchars. subst s1.
  rewrite bind_run. cbv beta iota. rewrite Ht, Hu. rewrite bind_run.
  by exists TypeError.
Qed.

End train_more.

(** X21 — calls of [train] that cannot complete.  [train] raises, and
    leaves [head_model] and [dep_model] as they were, in each of these
    cases: the parser uses tags, no [tags] are given, and it has no tag
    vocabulary yet; the parser has neither an embedder nor a character
    model, and no symbol vocabulary yet; the parser uses tags and
    development data is given without [dev_tags]. *)
Theorem train_cannot_complete (self : parser) (sents : list (list Word))
    (heads : list (list Z)) (deps : list (list string))
    (dev : option (list (list Word) * list (list Z) * list (list string)))
    (tags dev_tags : option (list (list string))) :
  (use_tags self = true ∧ tags = None ∧ tag_vocabulary self = None) ∨
  (embedder self = None ∧ use_char_model self = false ∧
   symbol_vocabulary self = None) ∨
  (use_tags self = true ∧ dev ≠ None ∧ dev_tags = None) →
  let run := train fit_head_model fit_dep_model sents heads deps dev tags dev_tags self in
  (∃ e, run.1 = Raise e) ∧
  head_model run.2 = head_model self ∧ dep_model run.2 = dep_model self.
Proof.
  intros Hcase run.
  assert (HQ0 : no_model_yet self tags self) by (by repeat split).
  assert (Hfails : fails (no_model_yet self tags)
                     (train fit_head_model fit_dep_model sents heads deps dev
                        tags dev_tags)).
  { unfold train.
    apply fails_bind_r; [apply stable_Q_sent_data | intros sd].
    apply fails_bind_r; [apply stable_Q_tag_data | intros td].
    destruct Hcase as [Hc|[Hc|(Hu & Hdev & Hdt)]].
    - apply fails_bind_r; [apply stable_Q_dev_data | intros dv].
      apply fails_bind_r; [apply stable_Q_dep_vocab | intros _].
      apply fails_bind_l, fails_head_model. by left.
    - apply fails_bind_r; [apply stable_Q_dev_data | intros dv].
      apply fails_bind_r; [apply stable_Q_dep_vocab | intros _].
      apply fails_bind_l, fails_head_model. by right.
    - destruct dev as [d|]; [|done]. subst dev_tags.
      apply fails_bind_l. by apply fails_dev_data. }
  destruct (Hfails self HQ0) as [He (_ & Hh & Hd & _)]. by repeat split.
Qed.

Section train_settings.
Variables (self0 : parser) (sents : list (list Word)) (heads : list (list Z))
  (deps : list (list string))
  (dev : option (list (list Word) * list (list Z) * list (list string)))
  (tags dev_tags : option (list (list string))).

Lemma stable_settings_train :
  stable (same_settings self0)
         (train fit_head_model fit_dep_model sents heads deps dev tags dev_tags).
Proof.
  unfold train.
  apply stable_bind; [|intros sd].
  { intros self HP. rewrite train_sent_data_state. by destruct (use_char_model self). }
  apply stable_bind; [|intros td].
  { intros self HP. rewrite train_tag_data_state. by destruct tags. }
  apply stable_bind; [apply frame_stable, frame_train_dev_data | intros dv].
  apply stable_bind; [by intros self HP | intros _].
  apply stable_bind; [|intros _].
  - intros self HP.
    by destruct (train_head_model_state fit_head_model sd (pad_heads heads) td dv self)
      as [->|[m ->]].
  - intros self HP.
    by destruct (train_dep_model_state fit_dep_model sd (pad_heads heads) (pad_deps deps)
                   td dv self) as [->|[m ->]].
Qed.

(** X22 — what [train] does to the parser.  Whether it returns or raises,
    [embedder], [use_tags], [use_char_model] and [max_word_length] stay as
    they were; when it returns, both [head_model] and [dep_model] are
    assigned. *)
Theorem train_settings_and_models :
  let run := train fit_head_model fit_dep_model sents heads deps dev tags dev_tags self0 in
  same_settings self0 run.2 ∧
  (run.1 = Ok () → is_Some (head_model run.2) ∧ is_Some (dep_model run.2)).
Proof.
  intros run. split.
  - apply stable_settings_train. by repeat split.
  - subst run. intros Hrun.
    destruct (train _ _ _ _ _ _ _ _ self0) as [r after] eqn:E. simpl in Hrun. subst r.
    simpl. revert E. unfold train.
    intros (sd & s1 & H1 & Hrest)%bind_Ok_M.
    apply bind_Ok_M in Hrest as (td & s2 & H2 & Hrest).
    apply bind_Ok_M in Hrest as (dv & s3 & H3 & Hrest).
    apply bind_Ok_M in Hrest as ([] & s4 & H4 & Hrest).
    apply bind_Ok_M in Hrest as ([] & s5 & H5 & H6).
    unfold train_head_model in H5.
    apply bind_Ok_M in H5 as ([] & s41 & _ & H5).
    apply bind_Ok_M in H5 as (s42 & s43 & [= <- <-] & [= <-]).
    unfold train_dep_model in H6.
    apply bind_Ok_M in H6 as ([] & s51 & Hb & H6).
    apply bind_Ok_M in H6 as (s52 & s53 & [= <- <-] & [= <-]).
    match type of Hb with
    | build_dep_network ?s = _ => pose proof (frame_build_dep_network s) as Hf
    end.
    rewrite Hb in Hf. simpl in Hf. subst s51. simpl. by split.
Qed.

End train_settings.

(** *** [predict_deps] *)

Lemma label_names_elem self v labels names self' :
  dep_vocab self = Some v →
  label_names labels self = (Ok names, self') →
  Forall (λ name, name ∈ symbols_ v) names.
Proof.
  intros Hv Hrun. unfold label_names in Hrun.
  apply mapM_Ok_inv in Hrun as [-> Hall].
  - induction Hall as [|l name ls ns Hl _ IH]; constructor; [|done].
    rewrite bind_run in Hl. unfold attr in Hl. rewrite Hv in Hl.
    unfold lift, item in Hl.
    destruct (symbols_ v !! l) as [name'|] eqn:E; [|done].
    injection Hl as <-. by eapply list_elem_of_lookup_2.
  - intros a. apply frame_bind; [apply frame_attr | intros; apply frame_lift].
Qed.

Section predict_deps_more.
Variables (data : list (list Word)) (self : parser).

(** Every label of an entry that was assigned is a symbol of the label
    vocabulary, if the parser has one. *)
Local Abbreviation named answer :=
  (∀ v k (names : list string),
     dep_vocab self = Some v → answer !! k = Some (Some names) →
     Forall (λ name, name ∈ symbols_ v) names).

Lemma dep_indexes_loop_entries batch_labels i indexes answer answer' self' :
  dep_indexes_loop data batch_labels i indexes answer self = (Ok answer', self') →
  length answer = length data →
  length answer' = length data ∧
  (∀ k, answer' !! k = Some None ↔ answer !! k = Some None ∧ k ∉ indexes) ∧
  (named answer → named answer').
Proof.
  revert i answer. induction indexes as [|index rest IH]; intros i answer Hrun Hlen.
  - injection Hrun as <- <-. split; [done|]. split; [|done].
    intros k. split; [|by intros [? _]]. intros Hk. split; [done|].
    by intros ?%elem_of_nil.
  - cbn [dep_indexes_loop] in Hrun.
    apply bind_Ok_M in Hrun as (sent & s1 & Hsent & Hrun).
    apply bind_Ok_M in Hrun as (labels & s2 & Hlabels & Hrun).
    apply bind_Ok_M in Hrun as (names & s3 & Hnames & Hrun).
    unfold lift, item in Hsent, Hlabels.
    destruct (data !! index) as [sent'|] eqn:Hd; [|done].
    injection Hsent as -> <-.
    destruct (batch_labels !! i) as [labels'|] eqn:Hb; [|done].
    injection Hlabels as -> <-.
    pose proof (frame_label_names (slice_1 (Z.of_nat (length sent) - 1) labels) self) as Hf.
    rewrite Hnames in Hf. simpl in Hf. subst s3.
    assert (Hindex : index < length answer)
      by (rewrite Hlen; by eapply lookup_lt_Some).
    apply IH in Hrun as (Hlen' & Hnone & Hnamed); [|by rewrite length_insert].
    split; [done|]. split.
    + intros k. rewrite Hnone, elem_of_cons.
      destruct (decide (k = index)) as [->|Hne].
      * rewrite list_lookup_insert_eq by done. split; [by intros [[=] _]|].
        intros [_ Hk]. exfalso. apply Hk. by left.
      * rewrite list_lookup_insert_ne by done. split.
        -- intros [? ?]. split; [done|]. by intros [?|?].
        -- intros [? Hk]. split; [done|]. intros ?. apply Hk. by right.
    + intros Hanswer. apply Hnamed. intros v k names' Hv.
      destruct (decide (k = index)) as [->|Hne].
      * rewrite list_lookup_insert_eq by done. intros [= <-].
        by eapply label_names_elem.
      * rewrite list_lookup_insert_ne by done. by apply Hanswer.
Qed.

Lemma dep_batches_loop_entries batches answer answer' self' :
  dep_batches_loop data batches answer self = (Ok answer', self') →
  length answer = length data →
  length answer' = length data ∧
  (∀ k, answer' !! k = Some None ↔
        answer !! k = Some None ∧ ∀ b, b ∈ batches → k ∉ b.2) ∧
  (named answer → named answer').
Proof.
  revert answer. induction batches as [|[batch indexes] rest IH]; intros answer Hrun Hlen.
  - injection Hrun as <- <-. split; [done|]. split; [|done].
    intros k. split; [|by intros [? _]]. intros Hk. split; [done|].
    by intros b ?%elem_of_nil.
  - cbn [dep_batches_loop] in Hrun.
    apply bind_Ok_M in Hrun as (model & s1 & Hmodel & Hrun).
    apply bind_Ok_M in Hrun as (batch_labels & s2 & Hlabels & Hrun).
    apply bind_Ok_M in Hrun as (answer1 & s3 & Hloop & Hrun).
    pose proof (frame_attr dep_model self) as Hf1. rewrite Hmodel in Hf1.
    simpl in Hf1. subst s1.
    unfold lift in Hlabels. injection Hlabels as Hlabels <-.
    pose proof (frame_dep_indexes_loop data batch_labels 0 indexes answer self) as Hf3.
    rewrite Hloop in Hf3. simpl in Hf3. subst s3.
    apply dep_indexes_loop_entries in Hloop as (Hlen1 & Hnone1 & Hnamed1); [|done].
    apply IH in Hrun as (Hlen' & Hnone & Hnamed); [|done].
    split; [done|]. split.
    + intros k. rewrite Hnone, Hnone1. split.
      * intros [[? Hk] Hrest]. split; [done|].
        intros b [->|?]%elem_of_cons; [done | by apply Hrest].
      * intros [? Hall]. split; [split; [done|]|].
        -- apply (Hall (batch, indexes)). by left.
        -- intros b Hb. apply Hall. by right.
    + intros Hanswer. by apply Hnamed, Hnamed1.
Qed.

(** X23 — the labels of [predict_deps] come from the label vocabulary:
    when [predict_deps] returns, every label of every sentence it labelled
    is one of the [symbols_] of [dep_vocab]. *)
Theorem predict_deps_labels (heads : list (list nat)) (v : DepVocabulary)
    (answer : list (option (list string))) (self' : parser) :
  dep_vocab self = Some v →
  predict_deps data heads self = (Ok answer, self') →
  ∀ k names, answer !! k = Some (Some names) →
             Forall (λ name, name ∈ symbols_ v) names.
Proof.
  intros Hv Hrun k names Hk. unfold predict_deps in Hrun.
  destruct (make_indexes_for_syntax heads) as [di hi].
  apply bind_Ok_M in Hrun as (e & s1 & [= <- <-] & Hrun).
  apply dep_batches_loop_entries in Hrun as (_ & _ & Hnamed);
    [|by rewrite length_replicate].
  eapply Hnamed; [|done|done].
  intros v' k' names' _ [[=] _]%lookup_replicate.
Qed.

(** X24 — which entries [predict_deps] fills.  When it returns, the answer
    has one entry per sentence, and the entry of a sentence is [None]
    exactly when no batch of the generator lists the index of the
    sentence. *)
Theorem predict_deps_entries (heads : list (list nat))
    (answer : list (option (list string))) (self' : parser) :
  predict_deps data heads self = (Ok answer, self') →
  let batches := dep_batches (embedder self) data (make_indexes_for_syntax heads).1
                             (make_indexes_for_syntax heads).2 in
  length answer = length data ∧
  ∀ k, k < length data →
       (answer !! k = Some None ↔ ∀ b, b ∈ batches → k ∉ b.2).
Proof.
  intros Hrun. unfold predict_deps in Hrun.
  destruct (make_indexes_for_syntax heads) as [di hi]. cbn [fst snd].
  apply bind_Ok_M in Hrun as (e & s1 & [= <- <-] & Hrun).
  apply dep_batches_loop_entries in Hrun as (Hlen & Hnone & _);
    [|by rewrite length_replicate].
  split; [done|]. intros k Hk. rewrite Hnone. split; [by intros [_ ?]|].
  intros Hall. split; [|done]. by apply lookup_replicate.
Qed.

End predict_deps_more.

(** *** [predict_heads] *)

Lemma decode_all_Some (probs : list (option (list (list Q)))) heads :
  decode_all probs = Ok heads → Forall is_Some probs.
Proof.
  revert heads. induction probs as [|elem rest IH]; intros heads Hd; [constructor|].
  cbn [decode_all] in Hd. destruct elem as [m|]; [|done].
  destruct (decode_elem (Some m)) as [h|e]; [|done].
  cbn [mbind res_bind bind] in Hd.
  destruct (decode_all rest) as [others|e] eqn:Hrest; [|done].
  constructor; [done | by eapply IH].
Qed.

Lemma head_indexes_loop_entries (data : list (list Word)) batch_probs i indexes
    probs probs' :
  head_indexes_loop data batch_probs i indexes probs = Ok probs' →
  ∀ k, filled probs' k → filled probs k ∨ k ∈ indexes.
Proof.
  revert i probs. induction indexes as [|index rest IH]; intros i probs Hrun k Hk.
  - injection Hrun as <-. by left.
  - cbn [head_indexes_loop] in Hrun.
    destruct (item data index) as [sent|e]; [|done].
    cbn [mbind res_bind bind] in Hrun.
    destruct (item batch_probs i) as [batch_probs_i|e]; [|done].
    cbn [mbind res_bind bind] in Hrun.
    destruct (sentence_probs (length sent) batch_probs_i) as [curr_probs|e]; [|done].
    cbn [mbind res_bind bind] in Hrun.
    destruct (IH _ _ Hrun k Hk) as [[m Hm]|Hin].
    + destruct (decide (k = index)) as [->|Hne].
      * right. by left.
      * left. exists m. by rewrite list_lookup_insert_ne in Hm.
    + right. by right.
Qed.

Lemma head_batches_loop_entries (data : list (list Word)) batches probs self probs' self' :
  head_batches_loop data batches probs self = (Ok probs', self') →
  ∀ k, filled probs' k → filled probs k ∨ ∃ b, b ∈ batches ∧ k ∈ b.2.
Proof.
  revert probs self. induction batches as [|[batch indexes] rest IH];
    intros probs self Hrun k Hk.
  - injection Hrun as <- <-. by left.
  - cbn [head_batches_loop] in Hrun.
    apply bind_Ok_M in Hrun as (model & s1 & _ & Hrun).
    apply bind_Ok_M in Hrun as (probs1 & s2 & Hloop & Hrun).
    unfold lift in Hloop. injection Hloop as Hloop _.
    destruct (IH _ _ Hrun k Hk) as [Hk1|(b & Hb & Hkb)].
    + destruct (head_indexes_loop_entries _ _ _ _ _ _ Hloop k Hk1) as [?|Hin].
      * by left.
      * right. exists (batch, indexes). split; [by left | done].
    + right. exists b. split; [by right | done].
Qed.

(** X26 — [predict_heads] needs every sentence in a batch.  When it
    returns, [probs] has one entry per sentence, no entry is [None], and the
    index of every sentence is listed by some batch of the generator: for a
    sentence that the generator leaves out, [predict_heads] raises, where
    [predict_deps] returns [None]. *)
Theorem predict_heads_entries (data : list (list Word)) (self : parser)
    (probs : list (option (list (list Q)))) (heads : list (list nat)) (self' : parser) :
  predict_heads data self = (Ok (probs, heads), self') →
  length probs = length data ∧
  ∀ k, k < length data →
       (∃ m, probs !! k = Some (Some m)) ∧
       ∃ b, b ∈ head_batches (embedder self) data ∧ k ∈ b.2.
Proof.
  intros Hrun.
  pose proof (predict_heads_length _ _ _ _ _ Hrun) as Hlen.
  unfold predict_heads in Hrun.
  apply bind_Ok_M in Hrun as (e & s1 & [= <- <-] & Hrun).
  apply bind_Ok_M in Hrun as (probs1 & s2 & Hloop & Hrun).
  apply bind_Ok_M in Hrun as (heads1 & s3 & Hdec & [= <- <- <-]).
  unfold lift in Hdec. injection Hdec as Hdec _.
  apply decode_all_Some in Hdec. rewrite Forall_lookup in Hdec.
  assert (Hl : length probs1 = length data) by (destruct Hlen as [? _]; done).
  split; [done|]. intros k Hk.
  destruct (lookup_lt_is_Some_2 probs1 k) as [elem Helem]; [lia|].
  destruct (Hdec k elem Helem) as [m ->].
  split; [by exists m|].
  destruct (head_batches_loop_entries _ _ _ _ _ _ Hloop k) as [[m' Hm']|Hb].
  - by exists m.
  - by apply lookup_replicate in Hm' as [[=] _].
  - done.
Qed.

End parser_more.

Lemma recode_rows_witness :
  ∃ rows, @_recode toy [["a"; "b"]; ["c"]]%char toy_trained = (Ok rows, toy_trained) ∧
          Forall2 (@holds_word toy () 30) [["a"; "b"]; ["c"]]%char rows.
Proof. apply (@recode_rows toy); [done | simpl; lia | done]. Defined.

Lemma transform_data_train_witness :
  ∃ codes,
    @_transform_data toy [["ab"; "c"]]%string true toy_new =
      (Ok codes, @with_symbol_vocabulary toy () toy_new) ∧
    Forall2 (λ sent code,
               Forall2 (λ word row, @holds_word toy () 30 (@process_word toy word) row)
                       sent code) [["ab"; "c"]]%string codes.
Proof.
  refine (proj1 (@transform_data_train toy [["ab"; "c"]]%string toy_new _) _).
  - simpl. lia.
  - by repeat constructor.
Defined.

Lemma predict_deps_labels_witness :
  Forall (λ name, name ∈ @symbols_ toy ["root"; "dep"]%string) ["root"; "root"]%string.
Proof.
  apply (@predict_deps_labels toy
           [["<s>"; "a"; "</s>"]; ["<s>"; "b"; "c"; "</s>"]]%string toy_trained
           [[0]; [0; 1]] ["root"; "dep"]%string
           [Some ["root"]; Some ["root"; "root"]]%string toy_trained
           eq_refl eq_refl 1);
    reflexivity.
Defined.

Lemma predict_deps_entries_witness :
  let data := [["<s>"; "a"; "</s>"]; ["<s>"; "b"; "c"; "</s>"]]%string in
  let batches := @dep_batches toy (@embedder toy toy_trained) data
                   (@make_indexes_for_syntax toy [[0]; [0; 1]]).1
                   (@make_indexes_for_syntax toy [[0]; [0; 1]]).2 in
  length [Some ["root"]; Some ["root"; "root"]]%string = length data ∧
  ∀ k, k < length data →
       ([Some ["root"]; Some ["root"; "root"]]%string !! k = Some None ↔
        ∀ b, b ∈ batches → k ∉ b.2).
Proof.
  apply (@predict_deps_entries toy
           [["<s>"; "a"; "</s>"]; ["<s>"; "b"; "c"; "</s>"]]%string toy_trained
           [[0]; [0; 1]] [Some ["root"]; Some ["root"; "root"]]%string toy_trained).
  reflexivity.
Defined.

Lemma predict_heads_entries_witness :
  length [Some [[9 # 18; 9 # 18]; [9 # 18; 9 # 18]]%Q] =
    length [["<s>"; "a"; "</s>"]]%string ∧
  ∀ k, k < length [["<s>"; "a"; "</s>"]]%string →
       (∃ m, [Some [[9 # 18; 9 # 18]; [9 # 18; 9 # 18]]%Q] !! k = Some (Some m)) ∧
       ∃ b, b ∈ @head_batches toy (@embedder toy toy_trained)
                  [["<s>"; "a"; "</s>"]]%string ∧ k ∈ b.2.
Proof.
  apply (@predict_heads_entries toy [["<s>"; "a"; "</s>"]]%string toy_trained
           [Some [[9 # 18; 9 # 18]; [9 # 18; 9 # 18]]%Q] [[0]] toy_trained).
  reflexivity.
Defined.

Lemma train_cannot_complete_witness :
  let run := @train toy toy_fit_head toy_fit_dep [["a"]]%string [[0]]%Z [["root"]]%string
                    None None None toy_tagging in
  (∃ e, run.1 = Raise e) ∧
  head_model run.2 = head_model toy_tagging ∧ dep_model run.2 = dep_model toy_tagging.
Proof.
  apply (@train_cannot_complete toy toy_fit_head toy_fit_dep toy_tagging).
  left. repeat split; reflexivity.
Defined.

End ParserMore.

Module PositionEmbeddingFacts.
Import PositionEmbedding.

Lemma cumsum_from_ones {A} (row : list A) acc i :
  i < length row →
  cumsum_from acc (ones_like row) !! i = Some (acc + Z.of_nat i + 1)%Z.
Proof.
  revert acc i. induction row as [|x rest IH]; intros acc i Hi; [simpl in Hi; lia|].
  destruct i as [|i]; simpl.
  - f_equal. lia.
  - rewrite IH by (simpl in Hi; lia). f_equal. lia.
Qed.

Lemma cumsum_from_length acc row : length (cumsum_from acc row) = length row.
Proof. revert acc. induction row as [|x rest IH]; intros acc; simpl; by rewrite ?IH. Qed.

(** X25 — the positions of [PositionEmbedding.call].  With the kernel of
    [max_length + 1] rows that [build] adds, the output has the shape of
    the input, and position [i] of every row holds kernel row [max_length]
    when [i <= max_length], whatever [i] is; for a later position the layer
    asks for kernel row [i], which the kernel does not have.  No position
    ever reads a kernel row before row [max_length]. *)
Theorem call_positions {V A} (max_length : nat) (kernel : list V)
    (inputs : list (list A)) :
  length kernel = max_length + 1 →
  length (call max_length kernel inputs) = length inputs ∧
  ∀ r row, inputs !! r = Some row →
    ∃ out, call max_length kernel inputs !! r = Some out ∧
           length out = length row ∧
           ∀ i, i < length row →
                out !! i = Some (if i <=? max_length then kernel !! max_length else None).
Proof.
  intros Hkernel. unfold call. split; [by rewrite length_map|].
  intros r row Hrow. rewrite list_lookup_fmap, Hrow. eexists. split; [done|]. split.
  - rewrite !length_map. unfold cumsum, ones_like.
    by rewrite cumsum_from_length, length_map.
  - intros i Hi. rewrite !list_lookup_fmap. unfold cumsum.
    rewrite cumsum_from_ones by done. simpl. f_equal. unfold gather.
    destruct (Z.ltb_spec (Z.max (0 + Z.of_nat i + 1 - 1) (Z.of_nat max_length)) 0);
      [lia|].
    destruct (Nat.leb_spec i max_length).
    + f_equal. lia.
    + apply lookup_ge_None_2. lia.
Qed.

Lemma call_positions_witness :
  length (call 2 ["k0"; "k1"; "k2"]%string [[7; 7; 7; 7]; [7]]%Z)
    = length [[7; 7; 7; 7]; [7]]%Z ∧
  ∀ r row, [[7; 7; 7; 7]; [7]]%Z !! r = Some row →
    ∃ out, call 2 ["k0"; "k1"; "k2"]%string [[7; 7; 7; 7]; [7]]%Z !! r = Some out ∧
           length out = length row ∧
           ∀ i, i < length row →
                out !! i = Some (if i <=? 2 then ["k0"; "k1"; "k2"]%string !! 2 else None).
Proof. apply (call_positions 2 ["k0"; "k1"; "k2"]%string). reflexivity. Defined.

End PositionEmbeddingFacts.
